(** * Verification of the viral-score collector

    Shallow embedding of the scoring engine ([services/score-calculator.ts]),
    the per-pool nonce issuance ([services/signer.ts]), the signer
    configuration paths ([services/signer.ts], [services/epoch-submitter.ts]),
    the Merkle checkpoint builder ([services/merkle-builder.ts]) and the
    score-cache cleanup task ([jobs/scheduler.ts]).

    JavaScript numbers of the scoring engine are modelled as real numbers
    (no rounding of intermediate results); [Math.round] is [floor (x + 1/2)]. *)

From Stdlib Require Import Reals Lra Psatz Lia ZArith Ascii String List Bool Permutation Sorted.
Import ListNotations.

(* ------------------------------------------------------------------------- *)
(** ** Score engine *)

Module ScoreCalculator.

Open Scope R_scope.

(** [interface AggregatedMetrics] (types/memex.ts).  [latestPostTime] is a
    [Date], kept as its millisecond timestamp. *)
Record AggregatedMetrics := {
  tokenSymbol : string;
  posts : R;
  views : R;
  likes : R;
  reposts : R;
  replies : R;
  uniqueUserCount : R;
  latestPostTime : Z;
  avgBondingCurveProgress : R;
  graduatedPostRatio : R;
  imagePostRatio : R;
  avgPriceFluctuation : R;
  preOrderedUserRatio : R
}.

Record ScoreWeights := {
  w_posts : R; w_views : R; w_likes : R;
  w_reposts : R; w_replies : R; w_uniqueUsers : R
}.

Record EnhancedScoreMultipliers := {
  graduatedTokenBonus : R;
  imagePostBonus : R;
  priceVolatilityBonus : R;
  preOrderedUserWeight : R
}.

Definition DEFAULT_WEIGHTS : ScoreWeights :=
  {| w_posts := 100; w_views := 1; w_likes := 20;
     w_reposts := 50; w_replies := 30; w_uniqueUsers := 200 |}.

Definition DEFAULT_MULTIPLIERS : EnhancedScoreMultipliers :=
  {| graduatedTokenBonus := 1.5; imagePostBonus := 1.2;
     priceVolatilityBonus := 1.1; preOrderedUserWeight := 1.0 |}.

Definition MAX_SCORE : R := 10000.
Definition MIN_SCORE : R := 0.
Definition SCORE_NORMALIZER : R := 10000.
Definition TIME_DECAY_HALF_LIFE_HOURS : R := 24.
Definition MAX_AGE_HOURS : R := 168.
Definition GRADUATED_THRESHOLD : R := 0.3.
Definition IMAGE_THRESHOLD : R := 0.5.
Definition VOLATILITY_THRESHOLD : R := 1.0.

(** Comparisons of JavaScript numbers, as booleans. *)
Definition Rltb (x y : R) : bool := if Rlt_dec x y then true else false.
Definition Rleb (x y : R) : bool := if Rle_dec x y then true else false.

(** [Math.round x] is [floor (x + 0.5)]; [Math.min], [Math.max] are [Rmin],
    [Rmax]. *)
Definition js_round (x : R) : R := IZR (Int_part (x + / 2)).

Definition calculateRawScore (w : ScoreWeights) (m : AggregatedMetrics) : R :=
  posts m * w_posts w +
  views m * w_views w +
  likes m * w_likes w +
  reposts m * w_reposts w +
  replies m * w_replies w +
  uniqueUserCount m * w_uniqueUsers w.

(** The multiplier of [calculateEnhancedMultiplier]; the [factors] strings it
    also returns only feed log messages. *)
Definition calculateEnhancedMultiplier (mu : EnhancedScoreMultipliers)
    (m : AggregatedMetrics) : R :=
  let multiplier := 1.0 in
  let multiplier :=
    if Rleb GRADUATED_THRESHOLD (graduatedPostRatio m) then
      let bonus := 1 + (graduatedTokenBonus mu - 1)
                         * Rmin (graduatedPostRatio m / 0.5) 1 in
      multiplier * bonus
    else multiplier in
  let multiplier :=
    if Rleb IMAGE_THRESHOLD (imagePostRatio m) then
      let bonus := 1 + (imagePostBonus mu - 1) * Rmin (imagePostRatio m) 1 in
      multiplier * bonus
    else multiplier in
  let multiplier :=
    if Rleb VOLATILITY_THRESHOLD (avgPriceFluctuation m) then
      let volatilityFactor := Rmin (avgPriceFluctuation m / 5) 1 in
      let bonus := 1 + (priceVolatilityBonus mu - 1) * volatilityFactor in
      multiplier * bonus
    else multiplier in
  multiplier.

(** [calculateTimeDecay]: [now] is [Date.now()], both times in
    milliseconds; [Math.LN2] is [ln 2]. *)
Definition ageHours (now postTime : Z) : R :=
  IZR (now - postTime) / (1000 * 60 * 60).

Definition calculateTimeDecay (now postTime : Z) : R :=
  let age := ageHours now postTime in
  if Rltb MAX_AGE_HOURS age then 0
  else exp ((- age * ln 2) / TIME_DECAY_HALF_LIFE_HOURS).

(** [applyAntiGaming] returns [(score, penalty)]; the returned penalty is the
    uncapped sum. *)
Definition applyAntiGaming (m : AggregatedMetrics) (rawScore : R) : R * R :=
  let penalty := 0 in
  let penalty :=
    if Rltb 1000 (views m) then
      let engagementRate := (likes m + reposts m + replies m) / views m in
      if Rltb engagementRate 0.001 then penalty + 0.3 else penalty
    else penalty in
  let penalty :=
    if Rltb 10 (posts m) && Rltb (uniqueUserCount m) 3 then penalty + 0.2
    else penalty in
  let penalty := if Rltb 50 (posts m) then penalty + 0.1 else penalty in
  let adjustedScore := rawScore * (1 - Rmin penalty 0.5) in
  (adjustedScore, penalty).

Definition normalizeScore (rawScore : R) : R :=
  let normalized := (rawScore / (rawScore + SCORE_NORMALIZER)) * MAX_SCORE in
  js_round (Rmin MAX_SCORE (Rmax MIN_SCORE normalized)).

Definition calculate (w : ScoreWeights) (mu : EnhancedScoreMultipliers)
    (now : Z) (m : AggregatedMetrics) : R :=
  let rawScore := calculateRawScore w m in
  let timeDecay := calculateTimeDecay now (latestPostTime m) in
  let rawScore := rawScore * timeDecay in
  let '(adjustedScore, _penalty) := applyAntiGaming m rawScore in
  let multiplier := calculateEnhancedMultiplier mu m in
  let enhancedScore := adjustedScore * multiplier in
  normalizeScore enhancedScore.

(** The exported singleton [scoreCalculator = new ScoreCalculator()]. *)
Definition scoreCalculator_calculate (now : Z) (m : AggregatedMetrics) : R :=
  calculate DEFAULT_WEIGHTS DEFAULT_MULTIPLIERS now m.

Definition getScoreTier (score : R) : string :=
  if Rleb 8000 score then "LEGENDARY"
  else if Rleb 6000 score then "VIRAL"
  else if Rleb 4000 score then "HOT"
  else if Rleb 2000 score then "WARM"
  else if Rleb 500 score then "ACTIVE"
  else "COLD".

Definition calculatePairScore (tokenXScore tokenYScore : R) : R :=
  let avgScore := js_round ((tokenXScore + tokenYScore) / 2) in
  Rmin MAX_SCORE (Rmax MIN_SCORE avgScore).

End ScoreCalculator.

(** Statements of the specification (§4.1) about the score engine, written
    from the spec's words, and concrete metrics used in the checks. *)
Module ScoreSpec.

Import ScoreCalculator.
Open Scope R_scope.

(** "+0.3 if views>1000 and (likes+reposts+replies)/views < 0.001" *)
Definition lowEngagement (m : AggregatedMetrics) : bool :=
  Rltb 1000 (views m) && Rltb ((likes m + reposts m + replies m) / views m) 0.001.

(** "+0.2 if posts>10 and uniqueUsers<3" *)
Definition singleUserDominance (m : AggregatedMetrics) : bool :=
  Rltb 10 (posts m) && Rltb (uniqueUserCount m) 3.

(** "+0.1 if posts>50" *)
Definition spamLike (m : AggregatedMetrics) : bool := Rltb 50 (posts m).

(** The additive penalty of the spec. *)
Definition antiGamingPenalty_spec (m : AggregatedMetrics) : R :=
  (if lowEngagement m then 0.3 else 0) +
  (if singleUserDominance m then 0.2 else 0) +
  (if spamLike m then 0.1 else 0).

(** "decay = 2^(-ageHours/24); decay = 0 if ageHours > 168" *)
Definition timeDecay_spec (now postTime : Z) : R :=
  if Rltb 168 (ageHours now postTime) then 0
  else Rpower 2 (- ageHours now postTime / 24).

(** Metrics with all counts and ratios zero except those given. *)
Definition mk_metrics (p v l rp rl u : R) (t : Z) : AggregatedMetrics :=
  {| tokenSymbol := "TEST"; posts := p; views := v; likes := l;
     reposts := rp; replies := rl; uniqueUserCount := u; latestPostTime := t;
     avgBondingCurveProgress := 0; graduatedPostRatio := 0;
     imagePostRatio := 0; avgPriceFluctuation := 0;
     preOrderedUserRatio := 0 |}.

(** posts=10, views=10000, likes=5, reposts=0, replies=0, uniqueUsers=2. *)
Definition boundary_metrics : AggregatedMetrics := mk_metrics 10 10000 5 0 0 2 0.

(** A negative post count, everything else zero, posted at time 0. *)
Definition negative_metrics : AggregatedMetrics := mk_metrics (-1000) 0 0 0 0 0 0.

End ScoreSpec.

(* ------------------------------------------------------------------------- *)
(** ** Score cache cleanup (jobs/scheduler.ts) *)

(** A JavaScript [Map<string, number>]: its entries in insertion order. *)
Module JsMap.

Open Scope Z_scope.

Definition t := list (string * Z).

(** [map.get(k)] *)
Fixpoint get (m : t) (k : string) : option Z :=
  match m with
  | [] => None
  | (k', v) :: rest => if String.eqb k' k then Some v else get rest k
  end.

(** [map.set(k, v)]: an existing key keeps its position, a new key is
    appended. *)
Fixpoint set (m : t) (k : string) (v : Z) : t :=
  match m with
  | [] => [(k, v)]
  | (k', v') :: rest =>
      if String.eqb k' k then (k', v) :: rest else (k', v') :: set rest k v
  end.

Definition size (m : t) : nat := length m.

(** [Array.from(map.entries())] *)
Definition entries (m : t) : list (string * Z) := m.

End JsMap.

Module Scheduler.

Open Scope Z_scope.

(** [Array.prototype.sort] with comparator [(a, b) => b[1] - a[1]]: a stable
    sort by descending score, written as insertion sort (every stable sort
    gives the same result). *)
Fixpoint insert_desc (x : string * Z) (l : list (string * Z)) : list (string * Z) :=
  match l with
  | [] => [x]
  | y :: ys => if snd y <? snd x then x :: y :: ys else y :: insert_desc x ys
  end.

Definition sort_desc (l : list (string * Z)) : list (string * Z) :=
  fold_left (fun acc x => insert_desc x acc) l [].

(** [processCacheCleanup] on [latestTokenScores]. *)
Definition processCacheCleanup (latestTokenScores : JsMap.t) : JsMap.t :=
  if (100 <? JsMap.size latestTokenScores)%nat then
    let sorted := firstn 100 (sort_desc (JsMap.entries latestTokenScores)) in
    (* latestTokenScores.clear(); then set every kept entry *)
    fold_left (fun m kv => JsMap.set m (fst kv) (snd kv)) sorted []
  else latestTokenScores.

(** Duplicate-free keys, as a boolean check. *)
Fixpoint keys_distinct (l : list string) : bool :=
  match l with
  | [] => true
  | k :: rest => negb (existsb (String.eqb k) rest) && keys_distinct rest
  end.

(** A cache of 101 tokens ["T0"; ...; "T100"] with scores 0 .. 100. *)
Definition token_name (i : nat) : string :=
  String (Ascii.ascii_of_nat (i / 16 + 65)) (String (Ascii.ascii_of_nat (i mod 16 + 65)) EmptyString).

Definition cache101 : JsMap.t :=
  map (fun i => (token_name i, Z.of_nat i)) (seq 0 101).

End Scheduler.

(* ------------------------------------------------------------------------- *)
(** ** Per-pool nonce issuance (services/signer.ts) *)

Module ScoreSigner.

Open Scope Z_scope.

(** The signer state that [getNextNonce] reads and writes: the in-memory
    [nonces] map, and the persisted [pair_scores] rows as
    [(poolId, nonce)] pairs. *)
Record Signer := {
  nonces : JsMap.t;
  pairScores : list (string * Z)
}.

(** [db.query.pairScores.findFirst({ where: poolId = p, orderBy: nonce desc })]:
    the highest persisted nonce of pool [p]. *)
Fixpoint lastPersistedNonce (rows : list (string * Z)) (p : string) : option Z :=
  match rows with
  | [] => None
  | (p', n) :: rest =>
      let best := lastPersistedNonce rest p in
      if String.eqb p' p then
        match best with
        | Some m => Some (Z.max n m)
        | None => Some n
        end
      else best
  end.

(** An invocation of [getNextNonce(poolId)] in flight.  The warm path runs
    without yielding; the cold path yields at [await db.query...]. *)
Inductive Call :=
| Call_start (poolId : string)
| Call_awaiting_db (poolId : string)
| Call_done (nonce : Z).

(** One uninterrupted run of a call up to its next [await] or its return;
    the third component is the nonce returned, if it returns. *)
Definition step_call (s : Signer) (c : Call) : Signer * Call * option Z :=
  match c with
  | Call_start p =>
      match JsMap.get (nonces s) p with
      | Some cached =>
          let next := cached + 1 in
          ({| nonces := JsMap.set (nonces s) p next; pairScores := pairScores s |},
           Call_done next, Some next)
      | None => (s, Call_awaiting_db p, None)
      end
  | Call_awaiting_db p =>
      let lastNonce :=
        match lastPersistedNonce (pairScores s) p with
        | Some n => n
        | None => 0
        end in
      let nextNonce := lastNonce + 1 in
      ({| nonces := JsMap.set (nonces s) p nextNonce; pairScores := pairScores s |},
       Call_done nextNonce, Some nextNonce)
  | Call_done n => (s, c, None)
  end.

(** A configuration: signer state, the calls in flight, and the nonces
    returned so far in order. *)
Definition Config : Type := (Signer * list Call * list Z)%type.

Fixpoint replace_nth {A} (l : list A) (i : nat) (x : A) : list A :=
  match l, i with
  | [], _ => []
  | _ :: rest, O => x :: rest
  | y :: rest, S i' => y :: replace_nth rest i' x
  end.

(** The event loop resumes call [i]. *)
Definition resume (cfg : Config) (i : nat) : Config :=
  let '(s, calls, issued) := cfg in
  match nth_error calls i with
  | None => cfg
  | Some c =>
      let '(s', c', out) := step_call s c in
      let issued' := match out with Some n => issued ++ [n] | None => issued end in
      (s', replace_nth calls i c', issued')
  end.

(** An interleaving, given as the sequence of calls the event loop resumes. *)
Definition run (schedule : list nat) (cfg : Config) : Config :=
  fold_left resume schedule cfg.

Definition issued (cfg : Config) : list Z := let '(_, _, l) := cfg in l.

(** [n] concurrent calls for pool [p] on signer state [s]. *)
Definition concurrent (s : Signer) (p : string) (n : nat) : Config :=
  (s, repeat (Call_start p) n, []).

(** The nonces [c+1, ..., c+k]. *)
Definition consecutive_from (c : Z) (k : nat) : list Z :=
  map (fun i => c + 1 + Z.of_nat i) (seq 0 k).

Definition fresh_signer : Signer := {| nonces := []; pairScores := [] |}.

End ScoreSigner.

(* ------------------------------------------------------------------------- *)
(** ** Merkle checkpoint builder (services/merkle-builder.ts)

    [StandardMerkleTree] of @openzeppelin/merkle-tree is embedded as that
    library implements it: leaves hashed with [standardLeafHash], sorted by
    hash, laid out at the end of an array of [2n-1] nodes whose internal
    node [i] is [hashPair(tree[2i+1], tree[2i+2])], with
    [hashPair(a, b) = keccak256(concat(sort([a, b])))].  The hash functions
    are parameters. *)

Module MerkleBuilder.

(** What a build or a query produces: a value, or a thrown error. *)
Inductive Outcome (A : Type) : Type :=
| Ok (a : A)
| Throws (msg : string).
Arguments Ok {A} a.
Arguments Throws {A} msg.

(** The hash primitives the library calls. *)
Class MerkleHash (digest : Type) := {
  (** [===] on the hex strings of two hashes. *)
  digest_eq_dec : forall a b : digest, {a = b} + {a <> b};
  (** [compare] of two hashes as byte strings. *)
  compareBytes : digest -> digest -> comparison;
  (** [standardLeafHash(["bytes32","uint256","uint256"], [poolId, score, epoch])],
      i.e. [keccak256(keccak256(abi.encode(poolId, score, epoch)))]. *)
  standardLeafHash : Z -> Z -> Z -> digest;
  (** [keccak256(concat([a, b]))] *)
  keccakConcat : digest -> digest -> digest
}.

(** The node array, as a function from index to node. *)
Record MerkleTreeArr (digest : Type) := {
  tree_len : nat;
  tree_at : nat -> digest
}.
Arguments tree_len {digest}.
Arguments tree_at {digest}.

(** A leaf [[poolId, score, epoch]]. *)
Definition Leaf : Type := (Z * Z * Z)%type.

(** An entry of [hashedValues]: value, value index, leaf hash. *)
Definition HashedValue (digest : Type) : Type := (Leaf * nat * digest)%type.

(** A [StandardMerkleTree]: the node array and, per value, the value and its
    [treeIndex]. *)
Record StandardTree (digest : Type) := {
  smt_tree : MerkleTreeArr digest;
  smt_values : list (Leaf * nat)
}.
Arguments smt_tree {digest}.
Arguments smt_values {digest}.

(** A row of [merkle_checkpoints]; [treeData] holds the leaves. *)
Record Checkpoint (digest : Type) := {
  cp_root : digest;
  cp_epoch : Z;
  cp_poolCount : nat;
  cp_leaves : list Leaf
}.
Arguments cp_root {digest}.
Arguments cp_epoch {digest}.
Arguments cp_poolCount {digest}.
Arguments cp_leaves {digest}.

Definition Store (digest : Type) : Type := list (Checkpoint digest).

Record MerkleProof (digest : Type) := {
  mp_poolId : Z;
  mp_score : Z;
  mp_epoch : Z;
  mp_proof : list digest;
  mp_root : digest
}.
Arguments mp_poolId {digest}.
Arguments mp_score {digest}.
Arguments mp_epoch {digest}.
Arguments mp_proof {digest}.
Arguments mp_root {digest}.

(** The field of the [MerkleBuilder] singleton that a build writes,
    [this.currentEpoch], next to the database's checkpoints. *)
Record BuilderState (digest : Type) := {
  store : Store digest;
  currentEpoch : Z
}.
Arguments store {digest}.
Arguments currentEpoch {digest}.

(** A [buildTree] call in flight.  It yields at [await this.getCurrentEpoch()]
    (the query reads the store, the assignment to [this.currentEpoch] happens
    on resumption) and at [await this.saveCheckpoint(...)] (the insert is
    atomic in the store); it then returns [this.currentEpoch]. *)
Inductive Build :=
| Build_start (scores : list (string * (Z * Z)))
| Build_read (scores : list (string * (Z * Z))) (epoch : Z)
| Build_saved
| Build_done (epoch : Z)
| Build_failed (msg : string).

Section StandardMerkleTree.

Context {digest : Type} `{MerkleHash digest}.


Definition leafHash (l : Leaf) : digest :=
  let '(p, s, e) := l in standardLeafHash p s e.

Definition hashPair (a b : digest) : digest :=
  match compareBytes a b with
  | Gt => keccakConcat b a
  | _ => keccakConcat a b
  end.

Definition leftChildIndex (i : nat) : nat := 2 * i + 1.
Definition rightChildIndex (i : nat) : nat := 2 * i + 2.
Definition parentIndex (i : nat) : nat := (i - 1) / 2.
Definition siblingIndex (i : nat) : nat := if Nat.odd i then i + 1 else i - 1.

Definition upd (t : nat -> digest) (i : nat) (v : digest) : nat -> digest :=
  fun j => if Nat.eqb j i then v else t j.

(** [for (let i = k - 1; i >= 0; i--) tree[i] = hashPair(tree[2i+1], tree[2i+2])] *)
Fixpoint fill_internal (k : nat) (t : nat -> digest) : nat -> digest :=
  match k with
  | O => t
  | S i =>
      fill_internal i
        (upd t i (hashPair (t (leftChildIndex i)) (t (rightChildIndex i))))
  end.

(** [makeMerkleTree(leaves)]: throws on no leaves; leaf [i] goes to index
    [len - 1 - i]. *)
Definition makeMerkleTree (leaves : list digest) : option (MerkleTreeArr digest) :=
  match leaves with
  | [] => None
  | l0 :: _ =>
      let n := length leaves in
      let len := 2 * n - 1 in
      let placed := fun j => nth (len - 1 - j) leaves l0 in
      Some {| tree_len := len; tree_at := fill_internal (len - n) placed |}
  end.

(** [getProof(tree, index)]: [while (index > 0) { proof.push(tree[sibling]);
    index = parent }]; the loop runs at most [index] times. *)
Fixpoint getProof_aux (fuel : nat) (t : nat -> digest) (index : nat) : list digest :=
  match fuel with
  | O => []
  | S f =>
      if Nat.eqb index 0 then []
      else t (siblingIndex index) :: getProof_aux f t (parentIndex index)
  end.

Definition getProof (t : MerkleTreeArr digest) (index : nat) : list digest :=
  getProof_aux index (tree_at t) index.

(** [processProof(leaf, proof) = proof.reduce(hashPair, leaf)] *)
Definition processProof (leaf : digest) (proof : list digest) : digest :=
  fold_left hashPair proof leaf.

(** [hashedValues.sort((a, b) => compare(a.hash, b.hash))], stable. *)
Fixpoint insert_by_hash (x : HashedValue digest) (l : list (HashedValue digest)) : list (HashedValue digest) :=
  match l with
  | [] => [x]
  | y :: ys =>
      match compareBytes (snd y) (snd x) with
      | Gt => x :: y :: ys
      | _ => y :: insert_by_hash x ys
      end
  end.

Definition sort_by_hash (l : list (HashedValue digest)) : list (HashedValue digest) :=
  fold_left (fun acc x => insert_by_hash x acc) l [].

Fixpoint position_of (v : nat) (l : list (HashedValue digest)) : option nat :=
  match l with
  | [] => None
  | (_, vi, _) :: rest =>
      if Nat.eqb vi v then Some 0
      else option_map S (position_of v rest)
  end.

Definition smt_root (t : StandardTree digest) : digest := tree_at (smt_tree t) 0.

(** [StandardMerkleTree.of(values, ["bytes32", "uint256", "uint256"])] *)
Definition StandardMerkleTree_of (values : list Leaf) : option (StandardTree digest) :=
  let hashedValues :=
    map (fun '(value, valueIndex) => (value, valueIndex, leafHash value))
        (combine values (seq 0 (length values))) in
  let sorted := sort_by_hash hashedValues in
  match makeMerkleTree (map snd sorted) with
  | None => None
  | Some tree =>
      let treeIndex (valueIndex : nat) : nat :=
        match position_of valueIndex sorted with
        | Some leafIndex => tree_len tree - leafIndex - 1
        | None => 0
        end in
      Some {| smt_tree := tree;
              smt_values := map (fun '(value, valueIndex) => (value, treeIndex valueIndex))
                                (combine values (seq 0 (length values))) |}
  end.

(** [tree.getProof(valueIndex)], with its two internal checks (the value's
    leaf hash is at its [treeIndex], and the proof verifies against the
    root); [None] when it throws. *)
Definition smt_getProof (t : StandardTree digest) (valueIndex : nat) : option (list digest) :=
  match nth_error (smt_values t) valueIndex with
  | None => None
  | Some (value, treeIndex) =>
      if digest_eq_dec (leafHash value) (tree_at (smt_tree t) treeIndex) then
        let proof := getProof (smt_tree t) treeIndex in
        if digest_eq_dec (smt_root t) (processProof (leafHash value) proof)
        then Some proof else None
      else None
  end.

Fixpoint maxEpoch (store : Store digest) : option Z :=
  match store with
  | [] => None
  | cp :: rest =>
      match maxEpoch rest with
      | Some e => Some (Z.max (cp_epoch cp) e)
      | None => Some (cp_epoch cp)
      end
  end.

(** [getCurrentEpoch()]: [lastCheckpoint ? lastCheckpoint.epoch + 1 : 1] *)
Definition getCurrentEpoch (store : Store digest) : Z :=
  match maxEpoch store with
  | Some e => (e + 1)%Z
  | None => 1%Z
  end.

(** [saveCheckpoint]: the insert, refused by the unique index on [epoch]. *)
Definition saveCheckpoint (store : Store digest) (cp : Checkpoint digest) : Outcome (Store digest) :=
  if existsb (fun c => Z.eqb (cp_epoch c) (cp_epoch cp)) store
  then Throws "duplicate key value violates unique constraint merkle_epoch_idx"
  else Ok (store ++ [cp]).

(** The part of [buildTree] after [await this.getCurrentEpoch()] returned
    [epoch]; [scores] are the entries of the [Map<string, {poolId, score}>].
    The result is [(root, epoch, poolCount)]. *)
Definition buildTree_finish (store : Store digest) (epoch : Z)
    (scores : list (string * (Z * Z))) : Outcome (Store digest * (digest * Z * nat)) :=
  let leaves := map (fun '(_, (poolId, score)) => (poolId, score, epoch)) scores in
  match leaves with
  | [] => Throws "Cannot build merkle tree with no scores"
  | _ =>
      match StandardMerkleTree_of leaves with
      | None => Throws "Expected non-zero number of leaves"
      | Some tree =>
          let root := smt_root tree in
          let poolCount := length leaves in
          match saveCheckpoint store
                  {| cp_root := root; cp_epoch := epoch;
                     cp_poolCount := poolCount; cp_leaves := leaves |} with
          | Throws msg => Throws msg
          | Ok store' => Ok (store', (root, epoch, poolCount))
          end
      end
  end.

(** [buildTree(scores)] run without interruption. *)
Definition buildTree (store : Store digest) (scores : list (string * (Z * Z)))
    : Outcome (Store digest * (digest * Z * nat)) :=
  buildTree_finish store (getCurrentEpoch store) scores.

(** Successive builds, each finishing before the next starts; the epochs of
    the successful ones are returned in order. *)
Fixpoint buildTree_sequence (store : Store digest) (batches : list (list (string * (Z * Z))))
    : Store digest * list Z :=
  match batches with
  | [] => (store, [])
  | scores :: rest =>
      match buildTree store scores with
      | Ok (store', (_, epoch, _)) =>
          let '(final, epochs) := buildTree_sequence store' rest in
          (final, epoch :: epochs)
      | Throws _ => buildTree_sequence store rest
      end
  end.

Definition step_build (st : BuilderState digest) (b : Build) : BuilderState digest * Build :=
  match b with
  | Build_start scores => (st, Build_read scores (getCurrentEpoch (store st)))
  | Build_read scores epoch =>
      let st1 := {| store := store st; currentEpoch := epoch |} in
      match buildTree_finish (store st1) (currentEpoch st1) scores with
      | Ok (store', _) => ({| store := store'; currentEpoch := currentEpoch st1 |}, Build_saved)
      | Throws msg => (st1, Build_failed msg)
      end
  | Build_saved => (st, Build_done (currentEpoch st))
  | _ => (st, b)
  end.

Definition resume_build (cfg : BuilderState digest * list Build) (i : nat)
    : BuilderState digest * list Build :=
  let '(st, builds) := cfg in
  match nth_error builds i with
  | None => cfg
  | Some b =>
      let '(st', b') := step_build st b in
      (st', ScoreSigner.replace_nth builds i b')
  end.

Definition run_builds (schedule : list nat) (cfg : BuilderState digest * list Build)
    : BuilderState digest * list Build :=
  fold_left resume_build schedule cfg.

(** The latest checkpoint ([orderBy desc(epoch)]). *)
Fixpoint latestCheckpoint (store : Store digest) : option (Checkpoint digest) :=
  match store with
  | [] => None
  | cp :: rest =>
      match latestCheckpoint rest with
      | Some cp' => if Z.ltb (cp_epoch cp) (cp_epoch cp') then Some cp' else Some cp
      | None => Some cp
      end
  end.

Fixpoint find_leaf (poolId : Z) (index : nat) (leaves : list Leaf) : option (nat * Leaf) :=
  match leaves with
  | [] => None
  | l :: rest =>
      if Z.eqb (fst (fst l)) poolId then Some (index, l)
      else find_leaf poolId (S index) rest
  end.

(** [getProofFromCheckpoint(poolId, epoch?)]; an [epoch] of 0 is falsy and
    selects the latest checkpoint.  [None] is [null]. *)
Definition getProofFromCheckpoint (store : Store digest) (poolId : Z) (epoch : option Z)
    : option (MerkleProof digest) :=
  let checkpoint :=
    match epoch with
    | Some e =>
        if Z.eqb e 0 then latestCheckpoint store
        else find (fun cp => Z.eqb (cp_epoch cp) e) store
    | None => latestCheckpoint store
    end in
  match checkpoint with
  | None => None
  | Some cp =>
      match StandardMerkleTree_of (cp_leaves cp) with
      | None => None
      | Some tree =>
          match find_leaf poolId 0 (map fst (smt_values tree)) with
          | None => None
          | Some (index, leaf) =>
              match smt_getProof tree index with
              | None => None
              | Some proof =>
                  let '(_, score, _) := leaf in
                  Some {| mp_poolId := poolId; mp_score := score;
                          mp_epoch := cp_epoch cp; mp_proof := proof;
                          mp_root := smt_root tree |}
              end
          end
      end
  end.

(** [verifyProof(proof)]: [StandardMerkleTree.verify(root, encoding, leaf, proof)]. *)
Definition verifyProof (prf : MerkleProof digest) : bool :=
  if digest_eq_dec (mp_root prf)
       (processProof (standardLeafHash (mp_poolId prf) (mp_score prf) (mp_epoch prf))
                     (mp_proof prf))
  then true else false.

End StandardMerkleTree.

End MerkleBuilder.

(** Checkpoint epochs [1, 2, ..., n]. *)
Module MerkleSpec.
Import MerkleBuilder.

Definition epochs_from_one (n : nat) : list Z :=
  map (fun i => Z.of_nat (S i)) (seq 0 n).

(** The store holds exactly the epochs [1..n], in insertion order. *)
Definition consecutive {digest : Type} (st : Store digest) : Prop :=
  map cp_epoch st = epochs_from_one (length st).

(** Epoch bound of a build that has read its epoch but not yet inserted. *)
Definition read_ok (m : nat) (b : Build) : Prop :=
  match b with
  | Build_read _ e => (1 <= e <= Z.of_nat m + 1)%Z
  | _ => True
  end.

(** Invariant of a configuration of concurrent builds. *)
Definition builds_inv {digest : Type} (cfg : BuilderState digest * list Build) : Prop :=
  consecutive (store (fst cfg)) /\ Forall (read_ok (length (store (fst cfg)))) (snd cfg).

End MerkleSpec.



(** A model of the hash primitives by their terms: a leaf hash records its
    leaf, a node hash its two children, and hashes compare
    lexicographically. *)
Module MerkleSymbolic.
Import MerkleBuilder.

Inductive sdigest :=
| SLeaf (poolId score epoch : Z)
| SNode (a b : sdigest).

Definition lex (c : comparison) (k : comparison) : comparison :=
  match c with Eq => k | _ => c end.

Fixpoint scompare (a b : sdigest) : comparison :=
  match a, b with
  | SLeaf p s e, SLeaf p' s' e' => lex (Z.compare p p') (lex (Z.compare s s') (Z.compare e e'))
  | SLeaf _ _ _, SNode _ _ => Lt
  | SNode _ _, SLeaf _ _ _ => Gt
  | SNode a1 a2, SNode b1 b2 => lex (scompare a1 b1) (scompare a2 b2)
  end.

Definition sdigest_eq_dec (a b : sdigest) : {a = b} + {a <> b}.
Proof. decide equality; apply Z.eq_dec. Defined.

#[export] Instance symbolic_hash : MerkleHash sdigest := {
  digest_eq_dec := sdigest_eq_dec;
  compareBytes := scompare;
  standardLeafHash := SLeaf;
  keccakConcat := SNode
}.

(** Two tokens' scores as [buildTree] receives them. *)
Definition ws1 : list (string * (Z * Z)) :=
  [("PEPE"%string, (11%Z, 7000%Z)); ("DOGE"%string, (22%Z, 3000%Z))].

End MerkleSymbolic.


(* ------------------------------------------------------------------------- *)
(** ** Signer configuration (services/signer.ts, services/epoch-submitter.ts,
    jobs/scheduler.ts)

    [process.env.SIGNER_PRIVATE_KEY] is an [option string]; an absent or
    empty key is falsy.  The account a key derives is left as the key. *)

Module SignerConfig.
Import MerkleBuilder.

Definition Env : Type := option string.

(** [!!process.env.SIGNER_PRIVATE_KEY] *)
Definition truthy (env : Env) : bool :=
  match env with
  | Some k => negb (String.eqb k "")
  | None => false
  end.

Definition SIGNER_REQUIRED : string := "SIGNER_PRIVATE_KEY environment variable is required".

Record ScoreSignerObj := { ss_account : string }.

(** [new ScoreSigner()] *)
Definition ScoreSigner_new (env : Env) : Outcome ScoreSignerObj :=
  match env with
  | Some k => if truthy env then Ok {| ss_account := k |} else Throws SIGNER_REQUIRED
  | None => Throws SIGNER_REQUIRED
  end.

(** Evaluating services/signer.ts: its body ends with
    [export const scoreSigner = new ScoreSigner()]. *)
Definition signer_module_init (env : Env) : Outcome ScoreSignerObj :=
  ScoreSigner_new env.

(** The bindings routes/merkle.ts imports, in order: lines 1-5, then
    lines 171-176, where the file repeats its top-level imports. *)
Local Open Scope string_scope.

Definition merkle_routes_imports : list string :=
  ["Hono"; "db"; "schema"; "desc"; "eq"; "merkleBuilder"; "Hex";
   "Hono"; "db"; "schema"; "eq"; "desc"; "ScoreSigner"; "scoreCalculator";
   "getLatestTokenScores"; "getPairScore"; "signPairScore"].

(** What routes/merkle.ts imports from jobs/scheduler.ts (line 176). *)
Definition merkle_scheduler_imports : list string :=
  ["getLatestTokenScores"; "getPairScore"; "signPairScore"].

(** The names jobs/scheduler.ts exports. *)
Definition scheduler_exports : list string :=
  ["startScheduler"; "stopScheduler"; "triggerBackfill"; "getSchedulerStatus";
   "getLatestTokenScores"; "triggerTokenImageRefresh"; "triggerEpochSubmission";
   "getEpochStatus"].

Fixpoint mem_str (x : string) (l : list string) : bool :=
  match l with
  | [] => false
  | y :: l' => String.eqb x y || mem_str x l'
  end.

(** A name bound twice by the imports of one module. *)
Fixpoint has_duplicate (l : list string) : bool :=
  match l with
  | [] => false
  | x :: l' => mem_str x l' || has_duplicate l'
  end.

(** The imported names a module does not export. *)
Definition missing_exports (imports exports : list string) : list string :=
  filter (fun x => negb (mem_str x exports)) imports.

(** The error of a module that does not parse or link; it is raised while the
    module graph is loaded, before any module of it is evaluated. *)
Definition MERKLE_ROUTES_SYNTAX_ERROR : string :=
  "SyntaxError: routes/merkle.ts does not parse or link".

(** Loading routes/merkle.ts.  A module whose imports bind a name twice is a
    SyntaxError, and so is an import of a name the imported module does not
    export; either stops the load before services/signer.ts, which it
    imports statically, is evaluated.  Only a module that parses and links
    evaluates its dependencies, [new ScoreSigner()] among them. *)
Definition merkle_routes_module_init (env : Env) : Outcome unit :=
  let missing := missing_exports merkle_scheduler_imports scheduler_exports in
  if has_duplicate merkle_routes_imports
     || match missing with [] => false | _ :: _ => true end
  then Throws MERKLE_ROUTES_SYNTAX_ERROR
  else match signer_module_init env with
       | Throws msg => Throws msg
       | Ok _ => Ok tt
       end.

(** Loading index.ts, which imports routes/merkle.ts statically. *)
Definition index_module_init (env : Env) : Outcome unit :=
  merkle_routes_module_init env.





Section Submitter.

(** The signature of the encoded epoch by an account, and the transaction
    hash of a submission: the network and the cryptography. *)
Variable sign : string -> Z -> string.
Variable send : string -> Z -> string -> string.



End Submitter.



Record TriggerResult := { trigger_status : string; trigger_message : string }.




End SignerConfig.


(* ------------------------------------------------------------------------- *)
(** ** More of the score engine (services/score-calculator.ts) and score
    collection (jobs/scheduler.ts) *)

(** A JavaScript [Map<string, V>] for any value type: entries in insertion
    order, as [JsMap] for numbers given as [Z]. *)
Module JsMapV.

Definition t (V : Type) := list (string * V).

(** [map.get(k)] *)
Fixpoint get {V} (m : t V) (k : string) : option V :=
  match m with
  | [] => None
  | (k', v) :: rest => if String.eqb k' k then Some v else get rest k
  end.

(** [map.set(k, v)]: an existing key keeps its position, a new key is
    appended. *)
Fixpoint set {V} (m : t V) (k : string) (v : V) : t V :=
  match m with
  | [] => [(k, v)]
  | (k', v') :: rest =>
      if String.eqb k' k then (k', v) :: rest else (k', v') :: set rest k v
  end.

(** [for (const [k, v] of entries) map.set(k, v)] *)
Definition set_all {V} (m : t V) (entries : list (string * V)) : t V :=
  fold_left (fun m kv => set m (fst kv) (snd kv)) entries m.

End JsMapV.

Module ScoreCalculatorMore.

Import ScoreCalculator.
Open Scope R_scope.

(** [Math.floor] *)
Definition js_floor (x : R) : R := IZR (Int_part x).

Definition calculateProtocolShareReduction (score baseProtocolShare : R) : R :=
  let maxReductionBps := 5000 in
  let reductionBps := js_floor (score * maxReductionBps / MAX_SCORE) in
  let adjustedShare := js_floor (baseProtocolShare * (10000 - reductionBps) / 10000) in
  Rmax 0 adjustedShare.

(** The tiers in the order [getScoreTier] tests them, lowest first. *)
Definition tier_rank (tier : string) : nat :=
  if String.eqb tier "COLD" then 0
  else if String.eqb tier "ACTIVE" then 1
  else if String.eqb tier "WARM" then 2
  else if String.eqb tier "HOT" then 3
  else if String.eqb tier "VIRAL" then 4
  else 5.

Section Batch.

Variable w : ScoreWeights.
Variable mu : EnhancedScoreMultipliers.
(** [clock i]: the value of [Date.now()] read by the [i]-th call of
    [calculate] (the [calculateTimeDecay] inside it). *)
Variable clock : nat -> Z.

(** The loop of [calculateBatch], from the [i]-th metrics on. *)
Fixpoint calculateBatch_loop (i : nat) (scores : JsMapV.t R)
    (metricsArray : list AggregatedMetrics) : JsMapV.t R :=
  match metricsArray with
  | [] => scores
  | metrics :: rest =>
      let score := calculate w mu (clock i) metrics in
      calculateBatch_loop (S i) (JsMapV.set scores (tokenSymbol metrics) score) rest
  end.

Definition calculateBatch (metricsArray : list AggregatedMetrics) : JsMapV.t R :=
  calculateBatch_loop 0 [] metricsArray.

End Batch.

End ScoreCalculatorMore.

Module SchedulerCollection.

Import ScoreCalculator ScoreCalculatorMore MerkleBuilder.
Open Scope R_scope.

(** The module state of jobs/scheduler.ts read and written by
    [processScoreCollection]. *)
Record CollectorState := {
  latestTokenScores : JsMapV.t R;
  latestAggregatedMetrics : list AggregatedMetrics
}.

(** [processScoreCollection]: [collected] is the outcome of
    [memexCollector.collectAndAggregate()] (a thrown error is caught and
    logged); [clock] as in [calculateBatch] for the singleton
    [scoreCalculator]. *)
Definition processScoreCollection (clock : nat -> Z)
    (collected : Outcome (list AggregatedMetrics)) (st : CollectorState) : CollectorState :=
  match collected with
  | Throws _ => st
  | Ok [] => st
  | Ok aggregatedMetrics =>
      let scores := calculateBatch DEFAULT_WEIGHTS DEFAULT_MULTIPLIERS clock aggregatedMetrics in
      {| latestTokenScores := JsMapV.set_all (latestTokenScores st) scores;
         latestAggregatedMetrics := aggregatedMetrics |}
  end.

End SchedulerCollection.


(* ------------------------------------------------------------------------- *)
(** ** Token rankings and viral pairs (jobs/scheduler.ts,
    services/epoch-submitter.ts) *)

Module EpochPairs.

Open Scope Z_scope.

(** [interface ViralPair] *)
Record ViralPair := {
  vp_tokenX : string;
  vp_tokenY : string;
  vp_binStep : Z;
  vp_rank : Z
}.

(** [interface TokenRanking] *)
Record TokenRanking := {
  tr_tokenAddress : string;
  tr_quoteTokenAddress : string;
  tr_score : Z;
  tr_binSteps : list Z
}.

(** An element of [graphqlClient.getMemeTokensWithPools()]: the pools are
    given by their [binStep]s, in the order of the query (highest TVL
    first); the TVL figures are only logged. *)
Record MemeTokenWithPools := {
  mt_tokenAddress : string;
  mt_quoteTokenAddress : string;
  mt_tokenSymbol : string;
  mt_tokenName : string;
  mt_pools : list Z
}.

Record TokenScoreMatch := { match_score : Z; matchedBy : string }.

(** [s.includes(sub)] *)
Fixpoint js_includes (s sub : string) : bool :=
  String.prefix sub s ||
  match s with
  | EmptyString => false
  | String _ s' => js_includes s' sub
  end.

(** [score && score > 0] for a [Map.get] result: [undefined] and [0] are
    falsy. *)
Definition positive_score (o : option Z) : option Z :=
  match o with
  | Some s => if 0 <? s then Some s else None
  | None => None
  end.

Section Rankings.

(** [String.prototype.toUpperCase] (Unicode case mapping). *)
Variable toUpperCase : string -> string.

(** The [for (const [scoreKey, score] of scoreMap.entries())] loop of
    [findTokenScore]. *)
Fixpoint partialMatch (name : string) (entries : list (string * Z)) : TokenScoreMatch :=
  match entries with
  | [] => {| match_score := 0; matchedBy := "none" |}
  | (scoreKey, score) :: rest =>
      if score <=? 0 then partialMatch name rest else
      let upperKey := toUpperCase scoreKey in
      if String.eqb upperKey name || js_includes name upperKey || js_includes upperKey name
      then {| match_score := score; matchedBy := "name-partial:" ++ scoreKey ++ "→" ++ name |}
      else partialMatch name rest
  end.

(** [findTokenScore], on a score map whose values are integers (the
    scores of [calculate] or of the snapshots). *)
Definition findTokenScore (tokenData : MemeTokenWithPools) (scoreMap : JsMap.t) : TokenScoreMatch :=
  let symbol := toUpperCase (mt_tokenSymbol tokenData) in
  let name := toUpperCase (mt_tokenName tokenData) in
  match positive_score (JsMap.get scoreMap symbol) with
  | Some symbolScore => {| match_score := symbolScore; matchedBy := "symbol:" ++ symbol |}
  | None =>
      match positive_score (JsMap.get scoreMap name) with
      | Some nameScore => {| match_score := nameScore; matchedBy := "name:" ++ name |}
      | None => partialMatch name (JsMap.entries scoreMap)
      end
  end.

Definition ranking_of (tokenData : MemeTokenWithPools) (score : Z) : TokenRanking :=
  {| tr_tokenAddress := mt_tokenAddress tokenData;
     tr_quoteTokenAddress := mt_quoteTokenAddress tokenData;
     tr_score := score;
     tr_binSteps := mt_pools tokenData |}.

(** [rankings.sort((a, b) => b.score - a.score)]: a stable sort by
    descending score, as insertion sort. *)
Fixpoint insert_by_score (x : TokenRanking) (l : list TokenRanking) : list TokenRanking :=
  match l with
  | [] => [x]
  | y :: ys => if tr_score y <? tr_score x then x :: y :: ys else y :: insert_by_score x ys
  end.

Definition sort_by_score (l : list TokenRanking) : list TokenRanking :=
  fold_left (fun acc x => insert_by_score x acc) l [].

(** [buildTokenRankings]: [memeTokensWithPools] is the outcome of the
    GraphQL query (a thrown error is caught and gives []); the check of
    top-scored tokens without pools only logs. *)
Definition buildTokenRankings (memeTokensWithPools : MerkleBuilder.Outcome (list MemeTokenWithPools))
    (scoreMap : JsMap.t) : list TokenRanking :=
  match memeTokensWithPools with
  | MerkleBuilder.Throws _ => []
  | MerkleBuilder.Ok [] => []
  | MerkleBuilder.Ok tokens =>
      let rankings :=
        fold_left (fun rankings tokenData =>
            let score := match_score (findTokenScore tokenData scoreMap) in
            if score <=? 0 then rankings else rankings ++ [ranking_of tokenData score])
          tokens [] in
      sort_by_score rankings
  end.

End Rankings.

Definition maxPairsPerRank : list nat := [3; 2; 1]%nat.

Definition no_ranking : TokenRanking :=
  {| tr_tokenAddress := ""; tr_quoteTokenAddress := ""; tr_score := 0; tr_binSteps := [] |}.

(** The inner loop of [buildViralPairs]:
    [for (i = 0; i < Math.min(ranking.binSteps.length, pairsToAdd); i++)]. *)
Definition push_pairs (pairs : list ViralPair) (ranking : TokenRanking) (rank : Z)
    (pairsToAdd : nat) : list ViralPair :=
  fold_left (fun pairs i =>
      pairs ++ [{| vp_tokenX := tr_tokenAddress ranking;
                   vp_tokenY := tr_quoteTokenAddress ranking;
                   vp_binStep := nth i (tr_binSteps ranking) 0;
                   vp_rank := rank |}])
    (seq 0 (Nat.min (length (tr_binSteps ranking)) pairsToAdd)) pairs.

(** [EpochSubmitter.buildViralPairs] *)
Definition buildViralPairs (rankings : list TokenRanking) : list ViralPair :=
  fold_left (fun pairs rankIdx =>
      let ranking := nth rankIdx rankings no_ranking in
      let rank := Z.of_nat (rankIdx + 1) in
      let pairsToAdd := nth rankIdx maxPairsPerRank 0%nat in
      push_pairs pairs ranking rank pairsToAdd)
    (seq 0 (Nat.min (length rankings) 3)) [].

(** The pairs of one ranking as the doc comment of [buildViralPairs] puts
    them: one per binStep among its first [k], in TVL order. *)
Definition rank_pairs (ranking : TokenRanking) (rank : Z) (k : nat) : list ViralPair :=
  map (fun b => {| vp_tokenX := tr_tokenAddress ranking;
                   vp_tokenY := tr_quoteTokenAddress ranking;
                   vp_binStep := b; vp_rank := rank |})
      (firstn k (tr_binSteps ranking)).

(** Rank 1 with its top 3 binSteps, rank 2 with 2, rank 3 with 1. *)
Definition viral_pairs_spec (rankings : list TokenRanking) : list ViralPair :=
  match rankings with
  | [] => []
  | [r1] => rank_pairs r1 1 3
  | [r1; r2] => rank_pairs r1 1 3 ++ rank_pairs r2 2 2
  | r1 :: r2 :: r3 :: _ => rank_pairs r1 1 3 ++ rank_pairs r2 2 2 ++ rank_pairs r3 3 1
  end.

End EpochPairs.

(* ------------------------------------------------------------------------- *)
(** ** Pair pool ids (services/signer.ts) *)

Module PairPoolId.

Section PoolId.

(** A JavaScript string is kept as its UTF-8 encoding, the bytes that
    [encodePacked] writes for a [string]. *)
Variable Hex : Type.
Variable keccak256 : list Byte.byte -> Hex.
(** [String.prototype.toUpperCase] *)
Variable toUpperCase : string -> string.
(** The [<] of JavaScript strings, which [Array.prototype.sort] uses by
    default (UTF-16 code unit order). *)
Variable js_lt : string -> string -> bool.

(** [[a, b].sort()] *)
Definition sort2 (a b : string) : string * string :=
  if js_lt b a then (b, a) else (a, b).

(** [encodePacked(['string', 'string'], [a, b])]: the two strings' bytes,
    concatenated with no length or separator. *)
Definition encodePacked_string_string (a b : string) : list Byte.byte :=
  String.list_byte_of_string a ++ String.list_byte_of_string b.

(** [ScoreSigner.generatePairPoolId] *)
Definition generatePairPoolId (tokenX tokenY : string) : Hex :=
  let '(sortedX, sortedY) := sort2 (toUpperCase tokenX) (toUpperCase tokenY) in
  keccak256 (encodePacked_string_string sortedX sortedY).

End PoolId.

End PairPoolId.

(* ------------------------------------------------------------------------- *)
(** ** Pair scores of the score engine (services/score-calculator.ts) *)

Module ScorePairs.

Import ScoreCalculator.
Open Scope R_scope.

(** The value stored under a pair key by [calculateAllPairScores]. *)
Record PairEntry := {
  pe_tokenX : string;
  pe_tokenY : string;
  pe_pairScore : R;
  pe_tokenXScore : R;
  pe_tokenYScore : R
}.

(** [tokenScores.get(k) || 0] (a score read from the map is a number; the
    NaN case of [||] does not arise on reals). *)
Definition score_or_0 (tokenScores : JsMapV.t R) (k : string) : R :=
  match JsMapV.get tokenScores k with Some v => v | None => 0 end.

Section Pairs.

(** The [<] of JavaScript strings used by the default [sort()]. *)
Variable js_lt : string -> string -> bool.

(** The body of the inner loop of [calculateAllPairScores] at [i], [j]: the
    pair key and the value it sets. *)
Definition pairEntry (tokens : list string) (tokenScores : JsMapV.t R) (i j : nat)
  : string * PairEntry :=
  let tokenX := nth i tokens ""%string in
  let tokenY := nth j tokens ""%string in
  let tokenXScore := score_or_0 tokenScores tokenX in
  let tokenYScore := score_or_0 tokenScores tokenY in
  let '(sortedX, sortedY) := PairPoolId.sort2 js_lt tokenX tokenY in
  let pairKey := (sortedX ++ "/" ++ sortedY)%string in
  let pairScore := calculatePairScore tokenXScore tokenYScore in
  (pairKey,
   {| pe_tokenX := sortedX;
      pe_tokenY := sortedY;
      pe_pairScore := pairScore;
      pe_tokenXScore := if String.eqb sortedX tokenX then tokenXScore else tokenYScore;
      pe_tokenYScore := if String.eqb sortedY tokenY then tokenYScore else tokenXScore |}).

(** [ScoreCalculator.calculateAllPairScores]: [for i < n, for j = i + 1 < n]
    over the keys of the map, in insertion order. *)
Definition calculateAllPairScores (tokenScores : JsMapV.t R) : JsMapV.t PairEntry :=
  let tokens := map fst tokenScores in
  fold_left
    (fun pairScores i =>
       fold_left
         (fun pairScores j =>
            let kv := pairEntry tokens tokenScores i j in
            JsMapV.set pairScores (fst kv) (snd kv))
         (seq (S i) (length tokens - S i)) pairScores)
    (seq 0 (length tokens)) [].

End Pairs.

(** [ScoreCalculator.getPairScore]: [null] when either upper-cased symbol
    has no score. *)
Definition getPairScore (tokenScores : JsMapV.t R) (toUpperCase : string -> string)
  (tokenX tokenY : string) : option (R * R * R) :=
  match JsMapV.get tokenScores (toUpperCase tokenX),
        JsMapV.get tokenScores (toUpperCase tokenY) with
  | Some tokenXScore, Some tokenYScore =>
      Some (calculatePairScore tokenXScore tokenYScore, tokenXScore, tokenYScore)
  | _, _ => None
  end.

(** The index pairs [(i, j)] of the nested loops, in loop order. *)
Definition index_pairs (n : nat) : list (nat * nat) :=
  flat_map (fun i => map (fun j => (i, j)) (seq (S i) (n - S i))) (seq 0 n).

(** A string with no ["/"]. *)
Definition no_slash (s : string) : Prop :=
  ~ In "/"%char (list_ascii_of_string s).

End ScorePairs.




(* ------------------------------------------------------------------------- *)
(** ** The backfill guard (jobs/scheduler.ts) *)

Module Backfill.

Import SignerConfig.
Open Scope string_scope.

(** The module-level flags [backfillCompleted] and [backfillInProgress]. *)
Record Flags := { backfillCompleted : bool; backfillInProgress : bool }.

Definition initial_flags : Flags :=
  {| backfillCompleted := false; backfillInProgress := false |}.

(** Where a running [performInitialBackfill] is suspended: at
    [await memexCollector.initialBackfill(...)] or at
    [await processScoreCollection()]. *)
Inductive Pending := AwaitBackfill | AwaitCollection.

Definition option_list {A} (o : option A) : list A :=
  match o with Some a => [a] | None => [] end.

(** The synchronous start of [performInitialBackfill], up to its first
    [await]. *)
Definition performInitialBackfill_start (f : Flags) : Flags * option Pending :=
  if backfillCompleted f || backfillInProgress f then (f, None)
  else ({| backfillCompleted := backfillCompleted f; backfillInProgress := true |},
        Some AwaitBackfill).

(** A suspended [performInitialBackfill] resumed: [ok] tells whether
    [initialBackfill] resolved; [processScoreCollection] catches its own
    errors, so the second [await] always resumes normally. The [finally]
    clears [backfillInProgress]. *)
Definition performInitialBackfill_resume (f : Flags) (p : Pending) (ok : bool)
  : Flags * option Pending :=
  match p with
  | AwaitBackfill =>
      if ok then ({| backfillCompleted := true; backfillInProgress := backfillInProgress f |},
                  Some AwaitCollection)
      else ({| backfillCompleted := backfillCompleted f; backfillInProgress := false |}, None)
  | AwaitCollection =>
      ({| backfillCompleted := backfillCompleted f; backfillInProgress := false |}, None)
  end.

(** [triggerBackfill] *)
Definition triggerBackfill (f : Flags) : Flags * option Pending * TriggerResult :=
  if backfillCompleted f then
    (f, None, {| trigger_status := "skipped"; trigger_message := "Backfill already completed" |})
  else if backfillInProgress f then
    (f, None, {| trigger_status := "skipped"; trigger_message := "Backfill already in progress" |})
  else
    let '(f', p) := performInitialBackfill_start f in
    (f', p, {| trigger_status := "started"; trigger_message := "Backfill started in background" |}).

(** The flags, the suspended calls, and the results returned so far. *)
Definition Config : Type := (Flags * list Pending * list TriggerResult)%type.

(** A request to [triggerBackfill], or the [i]-th suspended call resuming. *)
Inductive Action := Trigger | Resume (i : nat) (ok : bool).

Definition step (cfg : Config) (a : Action) : Config :=
  let '(f, pending, results) := cfg in
  match a with
  | Trigger =>
      let '(f', p, r) := triggerBackfill f in
      (f', (pending ++ option_list p)%list, (results ++ [r])%list)
  | Resume i ok =>
      match nth_error pending i with
      | None => cfg
      | Some p =>
          let '(f', p') := performInitialBackfill_resume f p ok in
          (f', (firstn i pending ++ option_list p' ++ skipn (S i) pending)%list, results)
      end
  end.

Definition run (schedule : list Action) (cfg : Config) : Config :=
  fold_left step schedule cfg.

Definition start : Config := (initial_flags, [], []).

Definition cfg_flags (cfg : Config) : Flags := fst (fst cfg).
Definition cfg_pending (cfg : Config) : list Pending := snd (fst cfg).
Definition cfg_results (cfg : Config) : list TriggerResult := snd cfg.

End Backfill.










(* ------------------------------------------------------------------------- *)
(** ** The signed message hash (services/signer.ts) *)

Module MessageHash.

Open Scope Z_scope.

(** [numberToHex(x, {size: n})] as bytes (each byte a [Z] in [0, 256)),
    big-endian. *)
Fixpoint be_bytes (n : nat) (x : Z) : list Z :=
  match n with
  | O => []
  | S n' => be_bytes n' (x / 256) ++ [x mod 256]
  end.

(** A value [encodePacked] accepts for [bytes32] (a 32-byte hex) or
    [uint256]; anything else makes it throw. *)
Definition fits256 (x : Z) : bool := (0 <=? x) && (x <? 2 ^ 256).

(** [encodePacked(['bytes32', 'uint256', 'uint256', 'uint256'],
    [poolId, score, timestamp, nonce])]; [None] when it throws. *)
Definition encodePacked_message (poolId score timestamp nonce : Z) : option (list Z) :=
  if fits256 poolId && fits256 score && fits256 timestamp && fits256 nonce
  then Some (be_bytes 32 poolId ++ be_bytes 32 score ++ be_bytes 32 timestamp ++
             be_bytes 32 nonce)
  else None.

(** [ScoreSigner.createMessageHash] *)
Definition createMessageHash {Hex : Type} (keccak256 : list Z -> Hex)
    (poolId score timestamp nonce : Z) : option Hex :=
  option_map keccak256 (encodePacked_message poolId score timestamp nonce).

(** Reading a big-endian byte string back as a number. *)
Definition from_be (bytes : list Z) : Z := fold_left (fun acc b => acc * 256 + b) bytes 0.

End MessageHash.



(* ------------------------------------------------------------------------- *)
(** ** Token listing endpoints (routes/score.ts) *)

Module ScoreRoutes.

Import ScoreCalculator.
Open Scope R_scope.

(** [Array.prototype.sort] with the comparator [(a, b) => key(b) - key(a)]:
    the engine's sort is stable, and for this comparator its result is the
    one of a stable insertion sort on decreasing keys, an element going after
    every earlier one whose key is not smaller. *)
Fixpoint insert_key_desc {A} (key : A -> R) (x : A) (l : list A) : list A :=
  match l with
  | [] => [x]
  | y :: rest => if Rlt_dec (key y) (key x) then x :: y :: rest
                 else y :: insert_key_desc key x rest
  end.

Definition sort_key_desc {A} (key : A -> R) (l : list A) : list A :=
  fold_left (fun acc x => insert_key_desc key x acc) l [].

(** [array.slice(0, end)] for an integral [end] ([None]: [NaN], which
    counts as 0): the number of elements kept. *)
Definition slice_end (len : nat) (e : option Z) : nat :=
  match e with
  | None => O
  | Some e =>
      if (e <? 0)%Z then Z.to_nat (Z.max 0 (Z.of_nat len + e))
      else Z.to_nat (Z.min e (Z.of_nat len))
  end.

(** [.map((item, index) => ({ rank: index + 1, ...item }))] *)
Definition with_rank {A} (l : list A) : list (nat * A) := combine (seq 1 (length l)) l.

Section Routes.

(** [isBlacklisted] of constants/token-blacklist. *)
Variable isBlacklisted : string -> bool.

(** The per-token data the leaderboard reads from [memexCollector]
    ([allStats.get(symbol) || zeros] and [getTokenImageInfo(symbol)]). *)
Variable Info : Type.
Variable info : string -> Info.

Definition not_blacklisted (kv : string * R) : bool := negb (isBlacklisted (fst kv)).

(** GET /tokens: [(tokenSymbol, score, tier)] rows. *)
Definition tokens (tokenScores : JsMapV.t R) : list (string * R * string) :=
  sort_key_desc (fun it => snd (fst it))
    (map (fun kv => (fst kv, snd kv, getScoreTier (snd kv)))
       (filter not_blacklisted tokenScores)).

(** An item of GET /tokens/leaderboard before ranking:
    [(tokenSymbol, stats and image info, pulseScore)]. *)
Definition leaderboard_item (kv : string * R) : string * Info * R :=
  (fst kv, info (fst kv), js_round (snd kv / 100)).

Definition pulse (it : string * Info * R) : R := snd it.

(** GET /tokens/leaderboard, [limit] the value of
    [parseInt(c.req.query('limit') || '20')] ([None]: [NaN]). *)
Definition leaderboard (tokenScores : JsMapV.t R) (limit : option Z)
    : list (nat * (string * Info * R)) :=
  let sorted := sort_key_desc pulse (map leaderboard_item (filter not_blacklisted tokenScores)) in
  let e := option_map (fun l => Z.min l 100) limit in
  with_rank (firstn (slice_end (length sorted) e) sorted).

End Routes.

End ScoreRoutes.





(* ------------------------------------------------------------------------- *)
(** ** Metrics aggregation from stored posts (services/memex-collector.ts) *)

Module MemexAggregate.

Import ScoreCalculator.
Open Scope R_scope.

(** A row of [memex_posts] as [aggregateFromDB] reads it.  A token column
    is [None] when it is null or empty (falsy) and [Some l] when
    [JSON.parse] reads the array [l] from it; nullable numbers are
    options; [postCreatedAt] is a Date as milliseconds. *)
Record DbPost := {
  mentionedTokens : option (list string);
  extractedTickers : option (list string);
  extractedHashtags : option (list string);
  userId : Z;
  viewCount : option R;
  likeCount : option R;
  repostCount : option R;
  replyCount : option R;
  bondingCurveProgress : option R;
  hasImage : bool;
  priceFluctuationRange : option R;
  userIsPreOrdered : bool;
  postCreatedAt : Z
}.

(** [col ? JSON.parse(col).map((t) => t.toUpperCase()) : []] *)
Definition parsed (toUpperCase : string -> string) (col : option (list string)) : list string :=
  match col with Some l => map toUpperCase l | None => [] end.

(** [set.add(x)] on a [Set<string>] / [Set<number>] kept in insertion order. *)
Definition set_add_str (s : list string) (x : string) : list string :=
  if existsb (String.eqb x) s then s else s ++ [x].

Definition set_add_num (s : list Z) (x : Z) : list Z :=
  if existsb (Z.eqb x) s then s else s ++ [x].

(** [[...new Set(l)]] *)
Definition js_set (l : list string) : list string := fold_left set_add_str l [].

(** [allTokens] of a post. *)
Definition post_tokens (toUpperCase : string -> string) (p : DbPost) : list string :=
  js_set (parsed toUpperCase (mentionedTokens p) ++ parsed toUpperCase (extractedTickers p) ++
          parsed toUpperCase (extractedHashtags p)).

(** [TokenMetrics] without its [uniqueUsers] set, which [aggregateFromDB]
    never reads (it counts users in [usersByToken]). *)
Record TokenMetrics := {
  tm_tokenSymbol : string;
  tm_posts : R;
  tm_views : R;
  tm_likes : R;
  tm_reposts : R;
  tm_replies : R;
  tm_latestPostTime : Z;
  tm_avgBondingCurveProgress : R;
  tm_graduatedPostCount : R;
  tm_postsWithImages : R;
  tm_totalPriceFluctuation : R;
  tm_preOrderedUserPosts : R
}.

Definition empty_metrics (token : string) : TokenMetrics :=
  {| tm_tokenSymbol := token; tm_posts := 0; tm_views := 0; tm_likes := 0;
     tm_reposts := 0; tm_replies := 0; tm_latestPostTime := 0%Z;
     tm_avgBondingCurveProgress := 0; tm_graduatedPostCount := 0;
     tm_postsWithImages := 0; tm_totalPriceFluctuation := 0;
     tm_preOrderedUserPosts := 0 |}.

(** [x ?? 0] *)
Definition or0 (x : option R) : R := match x with Some v => v | None => 0 end.

(** [post.bondingCurveProgress === 100] *)
Definition is_100 (x : option R) : bool :=
  match x with Some v => if Req_EM_T v 100 then true else false | None => false end.

(** The updates of [existing] for one post. *)
Definition add_post (p : DbPost) (m : TokenMetrics) : TokenMetrics :=
  {| tm_tokenSymbol := tm_tokenSymbol m;
     tm_posts := tm_posts m + 1;
     tm_views := tm_views m + or0 (viewCount p);
     tm_likes := tm_likes m + or0 (likeCount p);
     tm_reposts := tm_reposts m + or0 (repostCount p);
     tm_replies := tm_replies m + or0 (replyCount p);
     tm_latestPostTime :=
       if (tm_latestPostTime m <? postCreatedAt p)%Z then postCreatedAt p
       else tm_latestPostTime m;
     tm_avgBondingCurveProgress := tm_avgBondingCurveProgress m + or0 (bondingCurveProgress p);
     tm_graduatedPostCount :=
       tm_graduatedPostCount m + (if is_100 (bondingCurveProgress p) then 1 else 0);
     tm_postsWithImages := tm_postsWithImages m + (if hasImage p then 1 else 0);
     tm_totalPriceFluctuation := tm_totalPriceFluctuation m + Rabs (or0 (priceFluctuationRange p));
     tm_preOrderedUserPosts :=
       tm_preOrderedUserPosts m + (if userIsPreOrdered p then 1 else 0) |}.

Definition AggState : Type := (JsMapV.t TokenMetrics * JsMapV.t (list Z))%type.

(** The body of [for (const token of allTokens)] for one token. *)
Definition add_token (p : DbPost) (acc : AggState) (token : string) : AggState :=
  let '(metrics, usersByToken) := acc in
  let existing := match JsMapV.get metrics token with
                  | Some e => e | None => empty_metrics token end in
  let users := match JsMapV.get usersByToken token with Some s => s | None => [] end in
  (JsMapV.set metrics token (add_post p existing),
   JsMapV.set usersByToken token (set_add_num users (userId p))).

(** The body of [for (const post of dbPosts)]. *)
Definition add_db_post (toUpperCase : string -> string) (acc : AggState) (p : DbPost) : AggState :=
  fold_left (add_token p) (post_tokens toUpperCase p) acc.

(** [m.posts > 0 ? x / m.posts : 0] *)
Definition per_post (x posts : R) : R := if Rlt_dec 0 posts then x / posts else 0.

(** The row pushed for [[token, m]]. *)
Definition to_aggregated (toUpperCase : string -> string) (usersByToken : JsMapV.t (list Z))
    (kv : string * TokenMetrics) : AggregatedMetrics :=
  let '(token, m) := kv in
  {| tokenSymbol := toUpperCase (tm_tokenSymbol m);
     posts := tm_posts m;
     views := tm_views m;
     likes := tm_likes m;
     reposts := tm_reposts m;
     replies := tm_replies m;
     uniqueUserCount :=
       match JsMapV.get usersByToken token with Some s => INR (length s) | None => 0 end;
     latestPostTime := tm_latestPostTime m;
     avgBondingCurveProgress := per_post (tm_avgBondingCurveProgress m) (tm_posts m);
     graduatedPostRatio := per_post (tm_graduatedPostCount m) (tm_posts m);
     imagePostRatio := per_post (tm_postsWithImages m) (tm_posts m);
     avgPriceFluctuation := per_post (tm_totalPriceFluctuation m) (tm_posts m);
     preOrderedUserRatio := per_post (tm_preOrderedUserPosts m) (tm_posts m) |}.

(** [aggregateFromDB] on the posts [dbPosts] its query returns. *)
Definition aggregateFromDB (toUpperCase : string -> string) (dbPosts : list DbPost)
    : list AggregatedMetrics :=
  match dbPosts with
  | [] => []
  | _ =>
      let '(metrics, usersByToken) := fold_left (add_db_post toUpperCase) dbPosts ([], []) in
      map (to_aggregated toUpperCase usersByToken) metrics
  end.

End MemexAggregate.






(* ------------------------------------------------------------------------- *)
(** ** Per-period token statistics (services/memex-collector.ts) *)

Module TokenStats.

Import MemexAggregate.
Open Scope R_scope.

(** [{ posts, views, likes }], each with its ['1h'], ['1d'] and ['7d']
    entries. *)
Record PeriodStats := {
  posts_1h : R; posts_1d : R; posts_7d : R;
  views_1h : R; views_1d : R; views_7d : R;
  likes_1h : R; likes_1d : R; likes_7d : R
}.

Definition zero_stats : PeriodStats :=
  {| posts_1h := 0; posts_1d := 0; posts_7d := 0;
     views_1h := 0; views_1d := 0; views_7d := 0;
     likes_1h := 0; likes_1d := 0; likes_7d := 0 |}.

(** [col ? JSON.parse(col) : []] *)
Definition raw (col : option (list string)) : list string :=
  match col with Some l => l | None => [] end.

(** [[...new Set([...mentions, ...tickers, ...hashtags])].map((t) => t.toUpperCase())]:
    duplicates are removed before upper-casing. *)
Definition stats_tokens (toUpperCase : string -> string) (p : DbPost) : list string :=
  map toUpperCase (js_set (raw (mentionedTokens p) ++ raw (extractedTickers p) ++
                           raw (extractedHashtags p))).

(** The updates of [existing] for one post and one of its tokens. *)
Definition add_stats (isWithin1h isWithin1d : bool) (viewCount likeCount : R)
    (s : PeriodStats) : PeriodStats :=
  {| posts_7d := posts_7d s + 1;
     views_7d := views_7d s + viewCount;
     likes_7d := likes_7d s + likeCount;
     posts_1d := if isWithin1d then posts_1d s + 1 else posts_1d s;
     views_1d := if isWithin1d then views_1d s + viewCount else views_1d s;
     likes_1d := if isWithin1d then likes_1d s + likeCount else likes_1d s;
     posts_1h := if isWithin1h then posts_1h s + 1 else posts_1h s;
     views_1h := if isWithin1h then views_1h s + viewCount else views_1h s;
     likes_1h := if isWithin1h then likes_1h s + likeCount else likes_1h s |}.

(** The body of [for (const token of allTokens)]. *)
Definition add_token_stats (isWithin1h isWithin1d : bool) (viewCount likeCount : R)
    (statsMap : JsMapV.t PeriodStats) (token : string) : JsMapV.t PeriodStats :=
  let existing := match JsMapV.get statsMap token with Some e => e | None => zero_stats end in
  JsMapV.set statsMap token (add_stats isWithin1h isWithin1d viewCount likeCount existing).

(** The body of [for (const post of posts)]. *)
Definition stats_post (toUpperCase : string -> string) (oneHourAgo oneDayAgo : Z)
    (statsMap : JsMapV.t PeriodStats) (p : DbPost) : JsMapV.t PeriodStats :=
  let viewCount := or0 (MemexAggregate.viewCount p) in
  let likeCount := or0 (MemexAggregate.likeCount p) in
  let isWithin1h := (oneHourAgo <=? postCreatedAt p)%Z in
  let isWithin1d := (oneDayAgo <=? postCreatedAt p)%Z in
  fold_left (add_token_stats isWithin1h isWithin1d viewCount likeCount)
    (stats_tokens toUpperCase p) statsMap.

(** [getAllTokenStats] at time [now] (milliseconds) on the posts its
    query returns. *)
Definition getAllTokenStats (toUpperCase : string -> string) (now : Z) (posts : list DbPost)
    : JsMapV.t PeriodStats :=
  fold_left (stats_post toUpperCase (now - 60 * 60 * 1000) (now - 24 * 60 * 60 * 1000))
    posts [].

End TokenStats.




(* ========================================================================= *)
(** * Properties *)

(** ** Score engine *)

Module ScoreCalculatorFacts.

Import ScoreCalculator.
Open Scope R_scope.

Lemma Int_part_unique (x : R) (k : Z) :
  IZR k <= x < IZR k + 1 -> Int_part x = k.
Proof.
  intros [Hl Hu]. unfold Int_part.
  assert (Hup : up x = (k + 1)%Z).
  { symmetry. apply tech_up; rewrite plus_IZR; lra. }
  lia.
Qed.

Lemma js_round_IZR (n : Z) : js_round (IZR n) = IZR n.
Proof.
  unfold js_round. f_equal. apply Int_part_unique. lra.
Qed.

Lemma js_round_in_range (x : R) :
  0 <= x <= 10000 ->
  exists n : Z, js_round x = IZR n /\ (0 <= n <= 10000)%Z.
Proof.
  intros Hx. unfold js_round.
  destruct (base_Int_part (x + / 2)) as [Hl Hu].
  exists (Int_part (x + / 2)). split; [reflexivity|].
  split.
  - apply le_IZR. simpl.
    destruct (Z_lt_le_dec (Int_part (x + / 2)) 0) as [Hneg|Hnn].
    + assert (IZR (Int_part (x + / 2)) <= -1).
      { replace (-1) with (IZR (-1)) by reflexivity. apply IZR_le. lia. }
      lra.
    + apply IZR_le in Hnn. exact Hnn.
  - apply le_IZR.
    destruct (Z_le_gt_dec (Int_part (x + / 2)) 10000) as [Hle|Hgt].
    + apply IZR_le in Hle. exact Hle.
    + assert (IZR 10001 <= IZR (Int_part (x + / 2))) by (apply IZR_le; lia).
      lra.
Qed.

Lemma clamp_in_range (y : R) :
  0 <= Rmin MAX_SCORE (Rmax MIN_SCORE y) <= 10000.
Proof.
  unfold Rmin, Rmax, MAX_SCORE, MIN_SCORE.
  destruct (Rle_dec 0 y); destruct (Rle_dec 10000 _); lra.
Qed.

Lemma normalizeScore_in_range (x : R) :
  exists n : Z, normalizeScore x = IZR n /\ (0 <= n <= 10000)%Z.
Proof.
  unfold normalizeScore. apply js_round_in_range. apply clamp_in_range.
Qed.

(** C3: whatever the metrics (and whatever the magnitude of the weighted
    sum), [calculate] returns an integer score between 0 and 10000; in
    particular this holds for every valid input. *)
Theorem calculate_score_in_range :
  forall (w : ScoreWeights) (mu : EnhancedScoreMultipliers) (now : Z)
         (m : AggregatedMetrics),
  exists n : Z, calculate w mu now m = IZR n /\ (0 <= n <= 10000)%Z.
Proof.
  intros w mu now m. unfold calculate.
  destruct (applyAntiGaming m _) as [adjusted penalty].
  apply normalizeScore_in_range.
Qed.


Lemma Rltb_true (x y : R) : x < y -> Rltb x y = true.
Proof. intros H. unfold Rltb. destruct (Rlt_dec x y); [reflexivity|contradiction]. Qed.

Lemma Rltb_false (x y : R) : y <= x -> Rltb x y = false.
Proof. intros H. unfold Rltb. destruct (Rlt_dec x y); [lra|reflexivity]. Qed.

Lemma Rleb_true (x y : R) : x <= y -> Rleb x y = true.
Proof. intros H. unfold Rleb. destruct (Rle_dec x y); [reflexivity|contradiction]. Qed.

Lemma Rleb_false (x y : R) : y < x -> Rleb x y = false.
Proof. intros H. unfold Rleb. destruct (Rle_dec x y); [lra|reflexivity]. Qed.

Lemma Rmin_l_le (x y : R) : x <= y -> Rmin x y = x.
Proof. intros. unfold Rmin. destruct (Rle_dec x y); lra. Qed.

Lemma Rmin_r_le (x y : R) : y <= x -> Rmin x y = y.
Proof. intros. unfold Rmin. destruct (Rle_dec x y); lra. Qed.

Lemma Rmax_l_le (x y : R) : y <= x -> Rmax x y = x.
Proof. intros. unfold Rmax. destruct (Rle_dec x y); lra. Qed.

Lemma Rmax_r_le (x y : R) : x <= y -> Rmax x y = y.
Proof. intros. unfold Rmax. destruct (Rle_dec x y); lra. Qed.

Lemma ageHours_same (t : Z) : ageHours t t = 0.
Proof. unfold ageHours. rewrite Z.sub_diag. lra. Qed.

Lemma calculateTimeDecay_fresh (t : Z) : calculateTimeDecay t t = 1.
Proof.
  unfold calculateTimeDecay. rewrite ageHours_same.
  rewrite Rltb_false by (unfold MAX_AGE_HOURS; lra).
  replace ((- 0 * ln 2) / TIME_DECAY_HALF_LIFE_HOURS) with 0
    by (unfold TIME_DECAY_HALF_LIFE_HOURS; field).
  apply exp_0.
Qed.

Lemma calculateTimeDecay_nonneg (now t : Z) : 0 <= calculateTimeDecay now t.
Proof.
  unfold calculateTimeDecay. destruct (Rltb _ _); [lra|].
  left. apply exp_pos.
Qed.

(** C8: the decay factor is [2^(-ageHours/24)], and 0 strictly above 168
    hours; it is 1 for a post of age 0, 1/2 for a post 24 hours old, and 0
    for any post older than 168 hours. *)
Theorem calculateTimeDecay_half_life :
  (forall now t, calculateTimeDecay now t = ScoreSpec.timeDecay_spec now t) /\
  (forall t, calculateTimeDecay t t = 1) /\
  (forall now, calculateTimeDecay now (now - 86400000) = / 2) /\
  (forall now t, 168 < ageHours now t -> calculateTimeDecay now t = 0).
Proof.
  split; [|split; [|split]].
  - intros now t. unfold calculateTimeDecay, ScoreSpec.timeDecay_spec,
      MAX_AGE_HOURS, TIME_DECAY_HALF_LIFE_HOURS, Rpower.
    destruct (Rltb 168 (ageHours now t)); [reflexivity|].
    f_equal. field.
  - exact calculateTimeDecay_fresh.
  - intros now. unfold calculateTimeDecay.
    assert (Hage : ageHours now (now - 86400000) = 24).
    { unfold ageHours. replace (now - (now - 86400000))%Z with 86400000%Z by lia.
      lra. }
    rewrite Hage, Rltb_false by (unfold MAX_AGE_HOURS; lra).
    match goal with
    | |- exp ?a = _ =>
        replace a with (- ln 2) by (unfold TIME_DECAY_HALF_LIFE_HOURS; field)
    end.
    rewrite exp_Ropp, exp_ln by lra. reflexivity.
  - intros now t H. unfold calculateTimeDecay.
    rewrite Rltb_true by (unfold MAX_AGE_HOURS; lra). reflexivity.
Qed.


Lemma applyAntiGaming_penalty (m : AggregatedMetrics) (r : R) :
  snd (applyAntiGaming m r) = ScoreSpec.antiGamingPenalty_spec m.
Proof.
  unfold applyAntiGaming, ScoreSpec.antiGamingPenalty_spec,
    ScoreSpec.lowEngagement, ScoreSpec.singleUserDominance, ScoreSpec.spamLike.
  simpl.
  destruct (Rltb 1000 (views m)); destruct (Rltb (_ / _) 0.001);
  destruct (Rltb 10 (posts m) && Rltb (uniqueUserCount m) 3);
  destruct (Rltb 50 (posts m)); simpl; lra.
Qed.

Lemma applyAntiGaming_score (m : AggregatedMetrics) (r : R) :
  fst (applyAntiGaming m r) = r * (1 - Rmin (snd (applyAntiGaming m r)) 0.5).
Proof. reflexivity. Qed.

(** C9: the penalty is the sum of 0.3 (views > 1000 and engagement rate below
    0.001), 0.2 (posts > 10 and fewer than 3 unique users) and 0.1
    (posts > 50); the adjusted score is [decayed * (1 - min penalty 0.5)].
    With posts=10, views=10000, likes=5, reposts=replies=0, uniqueUsers=2 the
    low-engagement penalty applies and the single-user-dominance one does
    not (the thresholds are strict), so the penalty is 0.3. *)
Theorem applyAntiGaming_penalties :
  (forall m decayed,
     applyAntiGaming m decayed =
       (decayed * (1 - Rmin (ScoreSpec.antiGamingPenalty_spec m) 0.5),
        ScoreSpec.antiGamingPenalty_spec m)) /\
  (forall decayed,
     ScoreSpec.lowEngagement ScoreSpec.boundary_metrics = true /\
     ScoreSpec.singleUserDominance ScoreSpec.boundary_metrics = false /\
     snd (applyAntiGaming ScoreSpec.boundary_metrics decayed) = 0.3).
Proof.
  split.
  - intros m decayed.
    rewrite (surjective_pairing (applyAntiGaming m decayed)).
    rewrite applyAntiGaming_score, applyAntiGaming_penalty. reflexivity.
  - intros decayed.
    assert (Hlow : ScoreSpec.lowEngagement ScoreSpec.boundary_metrics = true).
    { unfold ScoreSpec.lowEngagement; simpl.
      rewrite Rltb_true by lra. rewrite Rltb_true by lra. reflexivity. }
    assert (Hdom : ScoreSpec.singleUserDominance ScoreSpec.boundary_metrics = false).
    { unfold ScoreSpec.singleUserDominance; simpl.
      rewrite Rltb_false by lra. reflexivity. }
    split; [exact Hlow|]. split; [exact Hdom|].
    rewrite applyAntiGaming_penalty.
    unfold ScoreSpec.antiGamingPenalty_spec. rewrite Hlow, Hdom.
    unfold ScoreSpec.spamLike; simpl. rewrite Rltb_false by lra. lra.
Qed.

Lemma calculatePairScore_8000_4000 : calculatePairScore 8000 4000 = 6000.
Proof.
  unfold calculatePairScore.
  replace ((8000 + 4000) / 2) with (IZR 6000) by lra.
  rewrite js_round_IZR. unfold MAX_SCORE, MIN_SCORE.
  rewrite Rmax_r_le by lra. rewrite Rmin_r_le by lra. reflexivity.
Qed.

Lemma getScoreTier_6000 : getScoreTier 6000 = "VIRAL"%string.
Proof.
  unfold getScoreTier.
  rewrite Rleb_false by lra. rewrite Rleb_true by lra. reflexivity.
Qed.

(** C4 (as stated): the pair score of 8000 and 4000 is 6000 and its tier is
    HOT.  Refuted: 6000 lies in the VIRAL band (6000 <= s < 8000). *)
Lemma pair_8000_4000_not_HOT :
  ~ (calculatePairScore 8000 4000 = 6000 /\
     getScoreTier (calculatePairScore 8000 4000) = "HOT"%string).
Proof.
  rewrite calculatePairScore_8000_4000, getScoreTier_6000.
  intros [_ H]. discriminate H.
Qed.

(** C4 (amended): the pair score of the token scores 8000 and 4000 is
    round((8000+4000)/2) = 6000, and its tier is VIRAL. *)
Theorem pair_8000_4000_VIRAL :
  calculatePairScore 8000 4000 = 6000 /\
  getScoreTier (calculatePairScore 8000 4000) = "VIRAL"%string.
Proof.
  rewrite calculatePairScore_8000_4000. split; [reflexivity|].
  exact getScoreTier_6000.
Qed.


Lemma Rmin_nonneg (x y : R) : 0 <= x -> 0 <= y -> 0 <= Rmin x y.
Proof. intros. unfold Rmin. destruct (Rle_dec x y); lra. Qed.

Lemma Rle_1_mult (x y : R) : 1 <= x -> 1 <= y -> 1 <= x * y.
Proof. intros. nra. Qed.

Lemma default_multiplier_ge_1 (m : AggregatedMetrics) :
  1 <= calculateEnhancedMultiplier DEFAULT_MULTIPLIERS m.
Proof.
  unfold calculateEnhancedMultiplier, DEFAULT_MULTIPLIERS,
    GRADUATED_THRESHOLD, IMAGE_THRESHOLD, VOLATILITY_THRESHOLD; simpl.
  unfold Rleb.
  destruct (Rle_dec 0.3 (graduatedPostRatio m)) as [Hg|Hg];
  destruct (Rle_dec 0.5 (imagePostRatio m)) as [Hi|Hi];
  destruct (Rle_dec 1.0 (avgPriceFluctuation m)) as [Hv|Hv];
  repeat match goal with
  | |- context [Rmin ?a ?b] =>
      let H := fresh "Hmin" in
      assert (H : 0 <= Rmin a b) by (apply Rmin_nonneg; lra);
      generalize dependent (Rmin a b); intros
  end;
  replace 1.0 with 1 by lra;
  repeat apply Rle_1_mult; lra.
Qed.

Lemma normalizeScore_nonpos (e : R) :
  e <= 0 -> normalizeScore e = if Rleb (-10000) e then 0 else 10000.
Proof.
  intros He. unfold normalizeScore, SCORE_NORMALIZER, MAX_SCORE, MIN_SCORE.
  destruct (Rle_dec (-10000) e) as [Hge|Hlt].
  - rewrite Rleb_true by lra.
    assert (Hn : e / (e + 10000) * 10000 <= 0).
    { destruct (Req_dec e (-10000)) as [Heq|Hne].
      - subst e. replace (-10000 + 10000) with 0 by lra.
        unfold Rdiv. rewrite Rinv_0. lra.
      - assert (Hpos : 0 < e + 10000) by lra.
        assert (0 < / (e + 10000)) by (apply Rinv_0_lt_compat; exact Hpos).
        unfold Rdiv. nra. }
    rewrite Rmax_l_le by exact Hn. rewrite Rmin_r_le by lra.
    exact (js_round_IZR 0).
  - rewrite Rleb_false by lra.
    assert (Hneg : e + 10000 < 0) by lra.
    assert (Hq : e = (e / (e + 10000)) * (e + 10000)) by (field; lra).
    assert (Hgt : 1 < e / (e + 10000)).
    { set (q := e / (e + 10000)) in *. nra. }
    rewrite Rmax_r_le by lra. rewrite Rmin_l_le by lra.
    exact (js_round_IZR 10000).
Qed.

(** C1 (as stated): metrics with a negative count are rejected with a
    validation error instead of being scored.  Refuted: [calculate] has no
    validation step, and for posts = -1000 (all else zero, posted now) it
    returns the maximum score 10000. *)
Lemma negative_posts_scored_10000 :
  scoreCalculator_calculate 0 ScoreSpec.negative_metrics = 10000.
Proof.
  unfold scoreCalculator_calculate, calculate.
  change (latestPostTime ScoreSpec.negative_metrics) with 0%Z.
  rewrite calculateTimeDecay_fresh.
  assert (Hraw : calculateRawScore DEFAULT_WEIGHTS ScoreSpec.negative_metrics
                 = -100000) by (unfold calculateRawScore; simpl; lra).
  rewrite Hraw.
  rewrite (surjective_pairing (applyAntiGaming _ _)).
  rewrite applyAntiGaming_score, applyAntiGaming_penalty.
  assert (Hp : ScoreSpec.antiGamingPenalty_spec ScoreSpec.negative_metrics = 0).
  { unfold ScoreSpec.antiGamingPenalty_spec, ScoreSpec.lowEngagement,
      ScoreSpec.singleUserDominance, ScoreSpec.spamLike; simpl.
    rewrite (Rltb_false 1000 0), (Rltb_false 10 (-1000)), (Rltb_false 50 (-1000))
      by lra.
    simpl. lra. }
  rewrite Hp.
  assert (Hm : calculateEnhancedMultiplier DEFAULT_MULTIPLIERS
                 ScoreSpec.negative_metrics = 1).
  { unfold calculateEnhancedMultiplier, GRADUATED_THRESHOLD, IMAGE_THRESHOLD,
      VOLATILITY_THRESHOLD; simpl.
    rewrite !Rleb_false by lra. lra. }
  rewrite Hm. rewrite Rmin_l_le by lra.
  rewrite normalizeScore_nonpos by lra.
  rewrite Rleb_false by lra. reflexivity.
Qed.

(** C1 (amended): [calculate] does not validate its input; metrics whose
    weighted total is negative (for instance because of a negative count)
    are scored like any other: with [e] the total after decay, anti-gaming
    penalty and bonus multipliers, the score is 0 when [e >= -10000] and the
    maximum 10000 when [e < -10000]. *)
Theorem calculate_negative_total_scored :
  forall (now : Z) (m : AggregatedMetrics),
  calculateRawScore DEFAULT_WEIGHTS m < 0 ->
  scoreCalculator_calculate now m =
    (let e := fst (applyAntiGaming m
                     (calculateRawScore DEFAULT_WEIGHTS m
                      * calculateTimeDecay now (latestPostTime m)))
              * calculateEnhancedMultiplier DEFAULT_MULTIPLIERS m in
     if Rleb (-10000) e then 0 else 10000).
Proof.
  intros now m Hraw. unfold scoreCalculator_calculate, calculate. cbv zeta.
  rewrite (surjective_pairing (applyAntiGaming _ _)).
  apply normalizeScore_nonpos.
  rewrite applyAntiGaming_score.
  pose proof (calculateTimeDecay_nonneg now (latestPostTime m)) as Hd.
  pose proof (default_multiplier_ge_1 m) as Hm.
  set (p := snd _).
  assert (Hc : 0 < 1 - Rmin p 0.5).
  { unfold Rmin. destruct (Rle_dec p 0.5); lra. }
  set (d := calculateTimeDecay now (latestPostTime m)) in *.
  set (r := calculateRawScore DEFAULT_WEIGHTS m) in *.
  set (c := 1 - Rmin p 0.5) in *.
  set (mu := calculateEnhancedMultiplier DEFAULT_MULTIPLIERS m) in *.
  assert (r * d <= 0) by nra.
  assert (r * d * c <= 0) by nra.
  simpl fst. nra.
Qed.

End ScoreCalculatorFacts.

Module ScoreCalculatorWitnesses.

Import ScoreCalculator.
Open Scope R_scope.

(** Witness of [calculate_negative_total_scored] at posts = -1000. *)
Lemma calculate_negative_total_scored_witness :
  calculateRawScore DEFAULT_WEIGHTS ScoreSpec.negative_metrics < 0 /\
  scoreCalculator_calculate 0 ScoreSpec.negative_metrics =
    (let m := ScoreSpec.negative_metrics in
     let e := fst (applyAntiGaming m
                     (calculateRawScore DEFAULT_WEIGHTS m
                      * calculateTimeDecay 0 (latestPostTime m)))
              * calculateEnhancedMultiplier DEFAULT_MULTIPLIERS m in
     if Rleb (-10000) e then 0 else 10000).
Proof.
  assert (H : calculateRawScore DEFAULT_WEIGHTS ScoreSpec.negative_metrics < 0)
    by (unfold calculateRawScore; simpl; lra).
  split; [exact H|].
  exact (ScoreCalculatorFacts.calculate_negative_total_scored 0 _ H).
Defined.

(** Witness of [calculateTimeDecay_half_life] at a post 200 hours old. *)
Lemma calculateTimeDecay_half_life_witness :
  168 < ageHours 720000000 0 /\ calculateTimeDecay 720000000 0 = 0.
Proof.
  assert (H : 168 < ageHours 720000000 0)
    by (unfold ageHours; rewrite Z.sub_0_r; lra).
  split; [exact H|].
  exact (proj2 (proj2 (proj2 ScoreCalculatorFacts.calculateTimeDecay_half_life))
           720000000%Z 0%Z H).
Defined.

End ScoreCalculatorWitnesses.

(** ** Score cache cleanup *)

Module SchedulerFacts.

Import Scheduler.
Open Scope Z_scope.

Lemma insert_desc_perm (x : string * Z) (l : list (string * Z)) :
  Permutation (insert_desc x l) (x :: l).
Proof.
  induction l as [|y ys IH]; simpl; [reflexivity|].
  destruct (snd y <? snd x); [reflexivity|].
  rewrite IH. apply perm_swap.
Qed.

Lemma sort_desc_perm_acc (l acc : list (string * Z)) :
  Permutation (fold_left (fun acc x => insert_desc x acc) l acc) (acc ++ l).
Proof.
  revert acc. induction l as [|x l IH]; intros acc; simpl.
  - rewrite app_nil_r. reflexivity.
  - rewrite IH. rewrite insert_desc_perm. simpl.
    apply Permutation_middle.
Qed.

Lemma sort_desc_perm (l : list (string * Z)) : Permutation (sort_desc l) l.
Proof. unfold sort_desc. apply sort_desc_perm_acc. Qed.

Definition score_ge (a b : string * Z) : Prop := snd b <= snd a.

Lemma insert_desc_sorted (x : string * Z) (l : list (string * Z)) :
  Sorted score_ge l -> Sorted score_ge (insert_desc x l).
Proof.
  induction 1 as [|y ys Hs IH Hhd]; simpl.
  - repeat constructor.
  - destruct (snd y <? snd x) eqn:E.
    + apply Z.ltb_lt in E. constructor; [constructor; assumption|].
      constructor. unfold score_ge. lia.
    + apply Z.ltb_ge in E. constructor; [exact IH|].
      destruct ys as [|z zs]; simpl.
      * constructor. unfold score_ge. lia.
      * inversion Hhd; subst. destruct (snd z <? snd x);
        constructor; unfold score_ge in *; lia.
Qed.

Lemma sort_desc_sorted (l : list (string * Z)) : Sorted score_ge (sort_desc l).
Proof.
  unfold sort_desc.
  assert (H : forall acc, Sorted score_ge acc ->
            Sorted score_ge (fold_left (fun acc x => insert_desc x acc) l acc)).
  { induction l as [|x l IH]; intros acc Hacc; simpl; [exact Hacc|].
    apply IH. apply insert_desc_sorted. exact Hacc. }
  apply H. constructor.
Qed.

Lemma keys_distinct_NoDup (l : list string) :
  keys_distinct l = true -> NoDup l.
Proof.
  induction l as [|k l IH]; simpl; intros H; [constructor|].
  apply andb_true_iff in H as [Hn Hr]. constructor; [|exact (IH Hr)].
  intros Hin. apply negb_true_iff in Hn.
  assert (existsb (String.eqb k) l = true).
  { apply existsb_exists. exists k. split; [exact Hin|apply String.eqb_refl]. }
  congruence.
Qed.

Lemma get_app_notin (m : JsMap.t) (k : string) (v : Z) :
  ~ In k (map fst m) -> JsMap.set m k v = m ++ [(k, v)].
Proof.
  induction m as [|[k' v'] rest IH]; simpl; intros Hn; [reflexivity|].
  destruct (String.eqb k' k) eqn:E.
  - apply String.eqb_eq in E. subst. exfalso. apply Hn. left. reflexivity.
  - f_equal. apply IH. intros Hin. apply Hn. right. exact Hin.
Qed.

Lemma rebuild_distinct (l acc : JsMap.t) :
  NoDup (map fst (acc ++ l)) ->
  fold_left (fun m kv => JsMap.set m (fst kv) (snd kv)) l acc = acc ++ l.
Proof.
  revert acc. induction l as [|[k v] l IH]; intros acc Hnd; simpl.
  - rewrite app_nil_r. reflexivity.
  - rewrite get_app_notin.
    + rewrite IH; [rewrite <- app_assoc; reflexivity|].
      rewrite <- app_assoc. exact Hnd.
    + rewrite map_app in Hnd. simpl in Hnd.
      apply NoDup_remove_2 in Hnd. intros Hin. apply Hnd.
      apply in_or_app. left. exact Hin.
Qed.

Lemma get_in_distinct (m : JsMap.t) (k : string) (v : Z) :
  NoDup (map fst m) -> In (k, v) m -> JsMap.get m k = Some v.
Proof.
  induction m as [|[k' v'] rest IH]; simpl; intros Hnd Hin; [contradiction|].
  inversion Hnd as [|? ? Hnot Hnd']; subst.
  destruct Hin as [Heq|Hin].
  - inversion Heq; subst. rewrite String.eqb_refl. reflexivity.
  - destruct (String.eqb k' k) eqn:E.
    + apply String.eqb_eq in E. subst. exfalso. apply Hnot.
      apply in_map_iff. exists (k, v). split; [reflexivity|exact Hin].
    + apply IH; assumption.
Qed.

Lemma get_notin (m : JsMap.t) (k : string) :
  ~ In k (map fst m) -> JsMap.get m k = None.
Proof.
  induction m as [|[k' v'] rest IH]; simpl; intros Hn; [reflexivity|].
  destruct (String.eqb k' k) eqn:E.
  - apply String.eqb_eq in E. subst. exfalso. apply Hn. left. reflexivity.
  - apply IH. intros Hin. apply Hn. right. exact Hin.
Qed.

Lemma NoDup_app_disjoint (l1 l2 : list string) :
  NoDup (l1 ++ l2) -> forall x, In x l1 -> ~ In x l2.
Proof.
  induction l1 as [|y l1 IH]; simpl; intros Hnd x Hx; [contradiction|].
  inversion Hnd as [|? ? Hnot Hnd']; subst.
  destruct Hx as [<-|Hx].
  - intros Hin. apply Hnot. apply in_or_app. right. exact Hin.
  - apply IH; assumption.
Qed.

Lemma StronglySorted_app_rel (l1 l2 : list (string * Z)) :
  StronglySorted score_ge (l1 ++ l2) ->
  forall a b, In a l1 -> In b l2 -> score_ge a b.
Proof.
  induction l1 as [|x l1 IH]; simpl; intros Hs a b Ha Hb; [contradiction|].
  apply StronglySorted_inv in Hs as [Hs Hall].
  destruct Ha as [<-|Ha].
  - rewrite Forall_forall in Hall. apply Hall. apply in_or_app. right. exact Hb.
  - apply IH; assumption.
Qed.

(** C10: after [processCacheCleanup] the score cache has at most 100
    entries.  A cache of more than 100 tokens is reduced to exactly 100
    entries, all taken from it, and every token of the old cache is either
    still there with its score or gone from lookups with a score no higher
    than any kept one; a cache of at most 100 tokens is left unchanged. *)
Theorem processCacheCleanup_top100 :
  forall cache : JsMap.t,
  NoDup (map fst cache) ->
  let cache' := processCacheCleanup cache in
  (JsMap.size cache' <= 100)%nat /\
  ((JsMap.size cache <= 100)%nat -> cache' = cache) /\
  ((100 < JsMap.size cache)%nat ->
     JsMap.size cache' = 100%nat /\
     incl cache' cache /\
     forall k s, In (k, s) cache ->
       JsMap.get cache' k = Some s \/
       (JsMap.get cache' k = None /\
        forall k1 s1, In (k1, s1) cache' -> s <= s1)).
Proof.
  intros cache Hnd cache'.
  assert (Hperm := sort_desc_perm cache).
  assert (Hsorted := sort_desc_sorted cache).
  assert (Hnds : NoDup (map fst (sort_desc cache))).
  { apply (Permutation_NoDup (Permutation_map fst (Permutation_sym Hperm))).
    exact Hnd. }
  set (s := sort_desc cache) in *.
  assert (Hsplit : s = firstn 100 s ++ skipn 100 s) by (symmetry; apply firstn_skipn).
  assert (Hbig : (100 < JsMap.size cache)%nat ->
                 cache' = firstn 100 s).
  { intros Hlt. unfold cache', processCacheCleanup.
    apply Nat.ltb_lt in Hlt. rewrite Hlt.
    apply (rebuild_distinct _ []). simpl.
    rewrite Hsplit in Hnds. rewrite map_app in Hnds.
    apply NoDup_app_remove_r in Hnds. exact Hnds. }
  assert (Hsmall : (JsMap.size cache <= 100)%nat -> cache' = cache).
  { intros Hle. unfold cache', processCacheCleanup.
    destruct (100 <? JsMap.size cache)%nat eqn:E; [|reflexivity].
    apply Nat.ltb_lt in E. lia. }
  assert (Hlen : length s = length cache) by (apply Permutation_length; exact Hperm).
  split; [|split; [exact Hsmall|]].
  - destruct (Nat.le_gt_cases (JsMap.size cache) 100) as [Hle|Hlt].
    + rewrite (Hsmall Hle). exact Hle.
    + rewrite (Hbig Hlt). unfold JsMap.size. rewrite length_firstn. lia.
  - intros Hlt. rewrite (Hbig Hlt). split; [|split].
    + unfold JsMap.size in *. rewrite length_firstn. lia.
    + intros x Hx. apply (Permutation_in _ Hperm).
      rewrite Hsplit. apply in_or_app. left. exact Hx.
    + intros k sc Hin.
      assert (Hin' : In (k, sc) s) by (apply (Permutation_in _ (Permutation_sym Hperm)); exact Hin).
      rewrite Hsplit in Hin'. apply in_app_or in Hin' as [Hf|Hs].
      * left. apply get_in_distinct; [|exact Hf].
        rewrite Hsplit, map_app in Hnds. apply NoDup_app_remove_r in Hnds. exact Hnds.
      * right. split.
        -- apply get_notin. intros Hk.
           rewrite Hsplit, map_app in Hnds.
           apply (NoDup_app_disjoint _ _ Hnds k Hk).
           apply in_map_iff. exists (k, sc). split; [reflexivity|exact Hs].
        -- intros k1 s1 Hin1.
           assert (Hss : StronglySorted score_ge s).
           { apply Sorted_StronglySorted; [|exact Hsorted].
             intros a b c Hab Hbc. unfold score_ge in *. lia. }
           rewrite Hsplit in Hss.
           exact (StronglySorted_app_rel _ _ Hss (k1, s1) (k, sc) Hin1 Hs).
Qed.

End SchedulerFacts.

Module SchedulerWitnesses.

Import Scheduler.

Lemma cache101_keys : NoDup (map fst cache101).
Proof. apply SchedulerFacts.keys_distinct_NoDup. vm_compute. reflexivity. Qed.

(** The lowest-scoring token of [cache101] is dropped from lookups. *)
Example cache101_drops_lowest :
  JsMap.get (processCacheCleanup cache101) (token_name 0) = None.
Proof. vm_compute. reflexivity. Qed.

(** Witness of [processCacheCleanup_top100] at a cache of 101 tokens. *)
Lemma processCacheCleanup_top100_witness :
  NoDup (map fst cache101) /\
  JsMap.size (processCacheCleanup cache101) = 100%nat.
Proof.
  split; [exact cache101_keys|].
  exact (proj1 (proj2 (proj2
    (SchedulerFacts.processCacheCleanup_top100 cache101 cache101_keys))
    ltac:(vm_compute; lia))).
Defined.

End SchedulerWitnesses.

(** ** Per-pool nonce issuance *)

Module ScoreSignerFacts.

Import ScoreSigner.
Open Scope Z_scope.

Lemma get_set_same (m : JsMap.t) (k : string) (v : Z) :
  JsMap.get (JsMap.set m k v) k = Some v.
Proof.
  induction m as [|[k' v'] rest IH]; simpl.
  - rewrite String.eqb_refl. reflexivity.
  - destruct (String.eqb k' k) eqn:E; simpl.
    + rewrite E. reflexivity.
    + rewrite E. exact IH.
Qed.

Lemma Forall_replace_nth {A} (P : A -> Prop) (l : list A) (i : nat) (x : A) :
  Forall P l -> P x -> Forall P (replace_nth l i x).
Proof.
  revert i. induction l as [|y l IH]; intros i Hl Hx; simpl; [constructor|].
  inversion Hl; subst. destruct i; constructor; auto.
Qed.

Lemma consecutive_from_S (c : Z) (k : nat) :
  consecutive_from c (S k) = consecutive_from c k ++ [c + 1 + Z.of_nat k].
Proof.
  unfold consecutive_from. rewrite seq_S, map_app. reflexivity.
Qed.

Lemma length_consecutive_from (c : Z) (k : nat) :
  length (consecutive_from c k) = k.
Proof. unfold consecutive_from. rewrite length_map, length_seq. reflexivity. Qed.

(** Invariant of a pool whose cache entry is warm: the cached value is the
    last nonce issued, no call waits on the database, and the nonces issued
    so far are [c+1, c+2, ...]. *)
Definition warm_inv (p : string) (c : Z) (cfg : Config) : Prop :=
  let '(s, calls, log) := cfg in
  JsMap.get (nonces s) p = Some (c + Z.of_nat (length log)) /\
  Forall (fun x => x = Call_start p \/ exists k, x = Call_done k) calls /\
  log = consecutive_from c (length log).

Lemma resume_warm_inv (p : string) (c : Z) (cfg : Config) (i : nat) :
  warm_inv p c cfg -> warm_inv p c (resume cfg i).
Proof.
  destruct cfg as [[s calls] log]. intros (Hget & Hall & Hlog). unfold resume.
  destruct (nth_error calls i) as [call|] eqn:E; [|simpl; tauto].
  assert (Hc : call = Call_start p \/ exists k, call = Call_done k).
  { rewrite Forall_forall in Hall. apply Hall. eapply nth_error_In. exact E. }
  destruct Hc as [->|[k ->]]; simpl.
  - rewrite Hget. simpl. split; [|split].
    + rewrite get_set_same, length_app. simpl. f_equal. lia.
    + apply Forall_replace_nth; [exact Hall|]. right. eexists. reflexivity.
    + rewrite length_app. simpl. rewrite Nat.add_1_r, consecutive_from_S.
      rewrite <- Hlog. f_equal. f_equal. lia.
  - split; [exact Hget|split; [|exact Hlog]].
    apply Forall_replace_nth; [exact Hall|]. right. eexists. reflexivity.
Qed.

Lemma run_warm_inv (p : string) (c : Z) (schedule : list nat) (cfg : Config) :
  warm_inv p c cfg -> warm_inv p c (run schedule cfg).
Proof.
  unfold run. revert cfg.
  induction schedule as [|i rest IH]; intros cfg H; simpl; [exact H|].
  apply IH. apply resume_warm_inv. exact H.
Qed.

(** C2 (as stated): N concurrent calls for one pool always get N distinct
    nonces.  Refuted: two concurrent calls on a cold cache both wait for the
    database read, both see no persisted nonce, and both return nonce 1. *)
Lemma cold_concurrent_duplicate_nonce :
  issued (run [0; 1; 0; 1]%nat (concurrent fresh_signer "pool"%string 2)) = [1; 1].
Proof. vm_compute. reflexivity. Qed.

(** C2 (amended): once the pool's cache entry holds [c], any interleaving
    of concurrent calls for the pool returns the consecutive nonces
    [c+1, c+2, ...] in the order they return; a call on a cold cache resumes
    after the highest persisted nonce of the pool (0 when none). *)
Theorem getNextNonce_warm_consecutive :
  (forall (s : Signer) (p : string) (c : Z) (n : nat) (schedule : list nat),
     JsMap.get (nonces s) p = Some c ->
     let log := issued (run schedule (concurrent s p n)) in
     log = consecutive_from c (length log)) /\
  (forall (s : Signer) (p : string),
     JsMap.get (nonces s) p = None ->
     issued (run [0; 0]%nat (concurrent s p 1)) =
       [match lastPersistedNonce (pairScores s) p with
        | Some last => last
        | None => 0
        end + 1]).
Proof.
  split.
  - intros s p c n schedule Hget log.
    assert (H0 : warm_inv p c (concurrent s p n)).
    { simpl. split; [rewrite Z.add_0_r; exact Hget|split; [|reflexivity]].
      apply Forall_forall. intros x Hx. apply repeat_spec in Hx. left. exact Hx. }
    pose proof (run_warm_inv p c schedule _ H0) as Hinv.
    unfold log. destruct (run schedule (concurrent s p n)) as [[s' calls] l].
    simpl in Hinv |- *. tauto.
  - intros s p Hnone. unfold run, concurrent. simpl. rewrite Hnone. simpl.
    reflexivity.
Qed.

End ScoreSignerFacts.

Module ScoreSignerWitnesses.

Import ScoreSigner.
Open Scope Z_scope.

Definition warm_signer : Signer :=
  {| nonces := [("pool"%string, 7)]; pairScores := [("pool"%string, 7)] |}.

Definition cold_signer : Signer :=
  {| nonces := []; pairScores := [("pool"%string, 3); ("other"%string, 9); ("pool"%string, 5)] |}.

(** Witness of [getNextNonce_warm_consecutive]: three interleaved calls on
    a warm pool, and one call on a cold pool with persisted nonces 3 and 5. *)
Lemma getNextNonce_warm_consecutive_witness :
  JsMap.get (nonces warm_signer) "pool"%string = Some 7 /\
  issued (run [2; 0; 1]%nat (concurrent warm_signer "pool"%string 3)) =
    consecutive_from 7 (length (issued (run [2; 0; 1]%nat (concurrent warm_signer "pool"%string 3)))) /\
  JsMap.get (nonces cold_signer) "pool"%string = None /\
  issued (run [0; 0]%nat (concurrent cold_signer "pool"%string 1)) = [6].
Proof.
  assert (Hw : JsMap.get (nonces warm_signer) "pool"%string = Some 7) by reflexivity.
  assert (Hc : JsMap.get (nonces cold_signer) "pool"%string = None) by reflexivity.
  split; [exact Hw|]. split.
  - exact (proj1 ScoreSignerFacts.getNextNonce_warm_consecutive
             warm_signer "pool"%string 7 3%nat [2; 0; 1]%nat Hw).
  - split; [exact Hc|].
    exact (proj2 ScoreSignerFacts.getNextNonce_warm_consecutive cold_signer "pool"%string Hc).
Defined.

End ScoreSignerWitnesses.

(* ------------------------------------------------------------------------- *)
Module MerkleBuilderFacts.
Import MerkleBuilder MerkleSpec.

Section Epochs.

Context {digest : Type} `{MerkleHash digest}.

Lemma length_insert_by_hash (x : HashedValue digest) l :
  length (insert_by_hash x l) = S (length l).
Proof.
  induction l as [|y ys IH]; simpl; [reflexivity|].
  destruct (compareBytes (snd y) (snd x)); simpl; rewrite ?IH; reflexivity.
Qed.

Lemma length_sort_by_hash_acc (l acc : list (HashedValue digest)) :
  length (fold_left (fun acc x => insert_by_hash x acc) l acc) = length l + length acc.
Proof.
  revert acc; induction l as [|x l IH]; intros acc; simpl; [reflexivity|].
  rewrite IH, length_insert_by_hash. lia.
Qed.

Lemma length_sort_by_hash (l : list (HashedValue digest)) :
  length (sort_by_hash l) = length l.
Proof.
  unfold sort_by_hash. rewrite length_sort_by_hash_acc. simpl. lia.
Qed.

Lemma StandardMerkleTree_of_some (values : list Leaf) :
  values <> [] -> exists t, StandardMerkleTree_of values = Some t.
Proof.
  intros Hne. unfold StandardMerkleTree_of.
  set (sorted := sort_by_hash _).
  assert (Hlen : length sorted = length values).
  { unfold sorted. rewrite length_sort_by_hash, length_map, length_combine, length_seq. lia. }
  destruct sorted as [|y ys] eqn:Hs.
  - destruct values; [contradiction|discriminate].
  - simpl. eexists. reflexivity.
Qed.

Lemma buildTree_finish_spec (st : Store digest) e scores :
  match buildTree_finish st e scores with
  | Ok (st', (_, e', _)) =>
      e' = e /\ map cp_epoch st' = map cp_epoch st ++ [e] /\
      existsb (fun c => Z.eqb (cp_epoch c) e) st = false
  | Throws _ =>
      scores = [] \/ existsb (fun c => Z.eqb (cp_epoch c) e) st = true
  end.
Proof.
  unfold buildTree_finish.
  destruct scores as [|[sym [p s]] rest]; simpl; [left; reflexivity|].
  destruct (StandardMerkleTree_of_some ((p, s, e) :: map (fun '(_, (poolId, score)) => (poolId, score, e)) rest))
    as [t Ht]; [discriminate|].
  rewrite Ht. unfold saveCheckpoint. simpl cp_epoch.
  destruct (existsb _ st) eqn:Hex; [right; reflexivity|].
  rewrite map_app. simpl. auto.
Qed.

Lemma In_epochs_from_one x n :
  In x (epochs_from_one n) <-> (1 <= x <= Z.of_nat n)%Z.
Proof.
  unfold epochs_from_one. rewrite in_map_iff. split.
  - intros (i & <- & Hi). apply in_seq in Hi. lia.
  - intros Hx. exists (Z.to_nat x - 1)%nat. split; [lia|]. apply in_seq. lia.
Qed.

Lemma epochs_from_one_S n :
  epochs_from_one (S n) = epochs_from_one n ++ [Z.of_nat (S n)].
Proof.
  unfold epochs_from_one. rewrite seq_S, map_app. reflexivity.
Qed.

Lemma maxEpoch_spec (st : Store digest) e :
  maxEpoch st = Some e ->
  In e (map cp_epoch st) /\ forall x, In x (map cp_epoch st) -> (x <= e)%Z.
Proof.
  revert e; induction st as [|cp rest IH]; intros e; simpl; [discriminate|].
  destruct (maxEpoch rest) as [e'|] eqn:Hm; intros Heq; injection Heq as <-.
  - destruct (IH e' eq_refl) as [Hin Hle]. split.
    + destruct (Z.max_spec (cp_epoch cp) e') as [[_ ->]|[_ ->]]; auto.
    + intros x [<-|Hx]; [lia|]. specialize (Hle x Hx). lia.
  - destruct rest; [|simpl in Hm; destruct (maxEpoch rest); discriminate].
    split; [left; reflexivity|]. intros x [<-|[]]. lia.
Qed.

Lemma maxEpoch_none (st : Store digest) : maxEpoch st = None -> st = [].
Proof.
  destruct st as [|cp rest]; simpl; [reflexivity|].
  destruct (maxEpoch rest); discriminate.
Qed.

Lemma getCurrentEpoch_consecutive (st : Store digest) :
  consecutive st -> getCurrentEpoch st = (Z.of_nat (length st) + 1)%Z.
Proof.
  unfold consecutive, getCurrentEpoch. intros Hc.
  destruct (maxEpoch st) as [e|] eqn:Hm.
  - destruct (maxEpoch_spec st e Hm) as [Hin Hle].
    rewrite Hc in Hin, Hle. apply In_epochs_from_one in Hin.
    assert (Hm' : In (Z.of_nat (length st)) (epochs_from_one (length st)))
      by (apply In_epochs_from_one; lia).
    specialize (Hle _ Hm'). lia.
  - rewrite (maxEpoch_none st Hm). reflexivity.
Qed.

Lemma existsb_epoch_In (st : Store digest) e :
  existsb (fun c => Z.eqb (cp_epoch c) e) st = true <-> In e (map cp_epoch st).
Proof.
  rewrite existsb_exists, in_map_iff. split.
  - intros (c & Hc & Heq). apply Z.eqb_eq in Heq. eauto.
  - intros (c & Heq & Hc). exists c. split; [exact Hc|]. apply Z.eqb_eq. exact Heq.
Qed.

(** Inserting the epoch of a build into a consecutive store: the insert
    succeeds only with the next epoch. *)
Lemma buildTree_finish_consecutive (st : Store digest) e scores :
  consecutive st -> (1 <= e <= Z.of_nat (length st) + 1)%Z ->
  match buildTree_finish st e scores with
  | Ok (st', _) => consecutive st' /\ length st' = S (length st)
  | Throws _ => True
  end.
Proof.
  intros Hc He. pose proof (buildTree_finish_spec st e scores) as Hs.
  destruct (buildTree_finish st e scores) as [[st' [[r e'] n]]|msg]; [|exact I].
  destruct Hs as (_ & Hmap & Hex).
  assert (Hlen : length st' = S (length st)).
  { rewrite <- (length_map cp_epoch st'), Hmap, length_app, length_map. simpl. lia. }
  split; [|exact Hlen].
  unfold consecutive in *. rewrite Hmap, Hc, Hlen, epochs_from_one_S.
  assert (Hnot : ~ In e (epochs_from_one (length st))).
  { rewrite <- Hc, <- existsb_epoch_In, Hex. discriminate. }
  rewrite In_epochs_from_one in Hnot.
  f_equal. f_equal. lia.
Qed.

Lemma buildTree_sequence_consecutive (st : Store digest) batches :
  consecutive st -> Forall (fun scores => scores <> []) batches ->
  map cp_epoch (fst (buildTree_sequence st batches)) = map cp_epoch st ++ snd (buildTree_sequence st batches) /\
  consecutive (fst (buildTree_sequence st batches)) /\
  length (fst (buildTree_sequence st batches)) = length st + length batches.
Proof.
  revert st; induction batches as [|b rest IH]; intros st Hc Hall; simpl.
  - rewrite app_nil_r. auto.
  - inversion Hall as [|? ? Hb Hrest]; subst.
    pose proof (buildTree_finish_spec st (getCurrentEpoch st) b) as Hs.
    pose proof (buildTree_finish_consecutive st (getCurrentEpoch st) b Hc) as Hk.
    rewrite (getCurrentEpoch_consecutive st Hc) in Hk, Hs.
    specialize (Hk ltac:(lia)).
    unfold buildTree. rewrite (getCurrentEpoch_consecutive st Hc).
    destruct (buildTree_finish st _ b) as [[st' [[r e'] n]]|msg].
    + destruct Hs as (-> & Hmap & _). destruct Hk as [Hc' Hlen].
      destruct (IH st' Hc' Hrest) as (Hm & Hc'' & Hl).
      destruct (buildTree_sequence st' rest) as [final epochs]; simpl in *.
      split; [rewrite Hm, Hmap, <- app_assoc; reflexivity|].
      split; [exact Hc''|]. lia.
    + exfalso. destruct Hs as [Hnil|Hex]; [contradiction|].
      apply existsb_epoch_In in Hex. unfold consecutive in Hc. rewrite Hc in Hex.
      apply In_epochs_from_one in Hex. lia.
Qed.

Lemma read_ok_mono m m' b : (m <= m')%nat -> read_ok m b -> read_ok m' b.
Proof. destruct b; simpl; auto; lia. Qed.

Lemma step_build_inv (st : BuilderState digest) b :
  consecutive (store st) -> read_ok (length (store st)) b ->
  consecutive (store (fst (step_build st b))) /\
  (length (store st) <= length (store (fst (step_build st b))))%nat /\
  read_ok (length (store (fst (step_build st b)))) (snd (step_build st b)).
Proof.
  intros Hc Hb. destruct b as [scores|scores e| |e|msg]; simpl; auto.
  - rewrite (getCurrentEpoch_consecutive _ Hc). repeat split; auto; lia.
  - simpl in Hb.
    pose proof (buildTree_finish_consecutive (store st) e scores Hc Hb) as Hk.
    destruct (buildTree_finish (store st) e scores) as [[st' r]|msg]; simpl.
    + destruct Hk as [Hc' Hl]. repeat split; auto; lia.
    + repeat split; auto.
Qed.

Lemma resume_build_inv cfg i : builds_inv cfg -> builds_inv (resume_build cfg i).
Proof.
  destruct cfg as [st builds]. unfold builds_inv; simpl. intros [Hc Hall].
  destruct (nth_error builds i) as [b|] eqn:Hn; [|simpl; auto].
  assert (Hb : read_ok (length (store st)) b)
    by (eapply Forall_forall; [exact Hall|]; eapply nth_error_In; exact Hn).
  destruct (step_build_inv st b Hc Hb) as (Hc' & Hle & Hb').
  destruct (step_build st b) as [st' b']; simpl in *.
  split; [exact Hc'|].
  apply ScoreSignerFacts.Forall_replace_nth; [|exact Hb'].
  eapply Forall_impl; [|exact Hall]. intros x. apply read_ok_mono. exact Hle.
Qed.

Lemma run_builds_inv schedule cfg : builds_inv cfg -> builds_inv (run_builds schedule cfg).
Proof.
  unfold run_builds. revert cfg; induction schedule as [|i rest IH]; intros cfg Hinv; simpl.
  - exact Hinv.
  - apply IH. apply resume_build_inv. exact Hinv.
Qed.

(** C6: a successful [buildTree] persists the epoch it read, the greatest
    persisted epoch plus one (1 on an empty store), which no checkpoint held
    before; successive builds of non-empty score sets from an empty store
    persist and return exactly the epochs 1..K; and under any interleaving
    of concurrent builds, the unique index on [epoch] keeps the persisted
    epochs exactly 1..m, in insertion order. *)
Theorem buildTree_epochs_consecutive :
  (forall (st st' : Store digest) scores root epoch poolCount,
     buildTree st scores = Ok (st', (root, epoch, poolCount)) ->
     epoch = match maxEpoch st with Some e => (e + 1)%Z | None => 1%Z end /\
     map cp_epoch st' = map cp_epoch st ++ [epoch] /\
     ~ In epoch (map cp_epoch st)) /\
  (forall batches,
     Forall (fun scores => scores <> []) batches ->
     snd (buildTree_sequence (digest := digest) [] batches) = epochs_from_one (length batches) /\
     map cp_epoch (fst (buildTree_sequence (digest := digest) [] batches)) =
       epochs_from_one (length batches)) /\
  (forall (st : BuilderState digest) batches schedule,
     consecutive (store st) ->
     consecutive (store (fst (run_builds schedule (st, map Build_start batches))))).
Proof.
  split; [|split].
  - intros st st' scores root epoch poolCount Hb.
    pose proof (buildTree_finish_spec st (getCurrentEpoch st) scores) as Hs.
    unfold buildTree in Hb. rewrite Hb in Hs. destruct Hs as (-> & Hmap & Hex).
    split; [reflexivity|]. split; [exact Hmap|].
    rewrite <- existsb_epoch_In, Hex. discriminate.
  - intros batches Hall.
    destruct (buildTree_sequence_consecutive [] batches eq_refl Hall) as (Hm & Hc & Hl).
    unfold consecutive in Hc. rewrite Hl in Hc. simpl in Hm, Hc.
    split; [rewrite <- Hm|]; exact Hc.
  - intros st batches schedule Hc.
    apply (run_builds_inv schedule (st, map Build_start batches)).
    split; [exact Hc|]. simpl.
    apply Forall_forall. intros b Hb. apply in_map_iff in Hb.
    destruct Hb as (s & <- & _). exact I.
Qed.

End Epochs.

End MerkleBuilderFacts.

(* ------------------------------------------------------------------------- *)
Module MerkleTreeFacts.
Import MerkleBuilder MerkleSpec.

Section Tree.

Context {digest : Type} `{MerkleHash digest}.

Lemma fill_internal_above k (t : nat -> digest) j :
  (k <= j)%nat -> fill_internal k t j = t j.
Proof.
  revert t; induction k as [|i IH]; intros t Hj; simpl; [reflexivity|].
  rewrite IH by lia. unfold upd.
  destruct (Nat.eqb_spec j i); [lia|reflexivity].
Qed.

Lemma fill_internal_node k (t : nat -> digest) i :
  (i < k)%nat ->
  fill_internal k t i =
  hashPair (fill_internal k t (2 * i + 1)) (fill_internal k t (2 * i + 2)).
Proof.
  revert t; induction k as [|k' IH]; intros t Hi; [lia|]. simpl.
  destruct (Nat.eq_dec i k') as [->|Hne].
  - rewrite !fill_internal_above by lia. unfold upd, leftChildIndex, rightChildIndex.
    repeat match goal with
           | |- context [Nat.eqb ?a ?b] => destruct (Nat.eqb_spec a b); try lia
           end.
    f_equal; f_equal; lia.
  - apply IH. lia.
Qed.

Lemma div2_odd m : ((2 * m + 1 - 1) / 2 = m)%nat.
Proof. symmetry. apply (Nat.div_unique _ _ _ 0); lia. Qed.

Lemma div2_even m : (1 <= m)%nat -> ((2 * m - 1) / 2 = m - 1)%nat.
Proof. intros Hm. symmetry. apply (Nat.div_unique _ _ _ 1); lia. Qed.

Lemma odd_2m1 m : Nat.odd (2 * m + 1) = true.
Proof. apply Nat.odd_spec. exists m. reflexivity. Qed.

Lemma odd_2m m : Nat.odd (2 * m) = false.
Proof.
  rewrite <- Nat.negb_even. replace (Nat.even (2 * m)) with true; [reflexivity|].
  symmetry. apply Nat.even_spec. exists m. reflexivity.
Qed.

Section Ordered.

(** [compare] on byte strings is antisymmetric and only equal strings
    compare [Eq]. *)
Hypothesis compare_antisym : forall a b : digest, compareBytes b a = CompOpp (compareBytes a b).
Hypothesis compare_eq : forall a b : digest, compareBytes a b = Eq -> a = b.

Lemma hashPair_comm (a b : digest) : hashPair a b = hashPair b a.
Proof.
  unfold hashPair. rewrite (compare_antisym a b).
  destruct (compareBytes a b) eqn:Hc; simpl; try reflexivity.
  apply compare_eq in Hc. subst. reflexivity.
Qed.

(** Walking up from any node along [getProof] reaches the root. *)
Lemma getProof_aux_root (t : nat -> digest) k :
  (forall i, (i < k)%nat -> t i = hashPair (t (2 * i + 1)) (t (2 * i + 2))) ->
  forall fuel j, (j < 2 * k + 1)%nat -> (j <= fuel)%nat ->
  fold_left hashPair (getProof_aux fuel t j) (t j) = t 0%nat.
Proof.
  intros Hnode fuel. induction fuel as [|f IH]; intros j Hj Hf.
  - replace j with 0%nat by lia. reflexivity.
  - simpl. destruct (Nat.eqb_spec j 0) as [->|Hj0]; [reflexivity|].
    simpl. unfold siblingIndex, parentIndex.
    destruct (Nat.Even_or_Odd j) as [[m Hm]|[m Hm]]; subst j.
    + rewrite odd_2m, div2_even by lia.
      assert (Hp : t (m - 1)%nat = hashPair (t (2 * m)%nat) (t (2 * m - 1)%nat)).
      { rewrite hashPair_comm, Hnode by lia.
        replace (2 * (m - 1) + 1)%nat with (2 * m - 1)%nat by lia.
        replace (2 * (m - 1) + 2)%nat with (2 * m)%nat by lia. reflexivity. }
      rewrite <- Hp. apply IH; lia.
    + rewrite odd_2m1, div2_odd.
      replace (2 * m + 1 + 1)%nat with (2 * m + 2)%nat by lia.
      rewrite <- Hnode by lia. apply IH; lia.
Qed.

End Ordered.

Lemma insert_by_hash_perm (x : HashedValue digest) l :
  Permutation (insert_by_hash x l) (x :: l).
Proof.
  induction l as [|y ys IH]; simpl; [reflexivity|].
  destruct (compareBytes (snd y) (snd x)); try reflexivity;
    (eapply perm_trans; [apply perm_skip; exact IH|apply perm_swap]).
Qed.

Lemma sort_by_hash_perm_acc (l acc : list (HashedValue digest)) :
  Permutation (fold_left (fun acc x => insert_by_hash x acc) l acc) (l ++ acc).
Proof.
  revert acc; induction l as [|x l IH]; intros acc; simpl; [reflexivity|].
  eapply perm_trans; [apply IH|].
  eapply perm_trans; [apply Permutation_app_head, insert_by_hash_perm|].
  apply Permutation_sym, Permutation_middle.
Qed.

Lemma sort_by_hash_perm (l : list (HashedValue digest)) :
  Permutation (sort_by_hash l) l.
Proof.
  unfold sort_by_hash. rewrite <- (app_nil_r l) at 2. apply sort_by_hash_perm_acc.
Qed.

Lemma position_of_spec v (l : list (HashedValue digest)) pos :
  position_of v l = Some pos ->
  exists x d, nth_error l pos = Some (x, v, d).
Proof.
  revert pos; induction l as [|[[x vi] d] rest IH]; intros pos; simpl; [discriminate|].
  destruct (Nat.eqb_spec vi v) as [->|_].
  - intros Heq; injection Heq as <-. exists x, d. reflexivity.
  - destruct (position_of v rest) as [p|] eqn:Hp; simpl; [|discriminate].
    intros Heq; injection Heq as <-. simpl. apply IH. reflexivity.
Qed.

Lemma position_of_some v (l : list (HashedValue digest)) x d :
  In (x, v, d) l -> exists pos, position_of v l = Some pos /\ (pos < length l)%nat.
Proof.
  induction l as [|[[x' vi] d'] rest IH]; simpl; [intros []|].
  intros Hin. destruct (Nat.eqb_spec vi v) as [->|Hne].
  - exists 0%nat. split; [reflexivity|lia].
  - destruct Hin as [Heq|Hin]; [injection Heq; intros; subst; contradiction|].
    destruct (IH Hin) as (pos & Hp & Hl). exists (S pos). rewrite Hp. split; [reflexivity|]. simpl. lia.
Qed.

Lemma In_combine_seq {A} (l : list A) k a i :
  In (a, i) (combine l (seq k (length l))) -> (k <= i)%nat /\ nth_error l (i - k) = Some a.
Proof.
  revert k; induction l as [|y ys IH]; intros k; simpl; [intros []|].
  intros [Heq|Hin].
  - injection Heq as -> ->. rewrite Nat.sub_diag. auto.
  - destruct (IH (S k) Hin) as [Hk Hn]. split; [lia|].
    replace (i - k)%nat with (S (i - S k)) by lia. exact Hn.
Qed.

Lemma nth_error_combine_seq {A} (l : list A) k i a :
  nth_error l i = Some a -> nth_error (combine l (seq k (length l))) i = Some (a, (k + i)%nat).
Proof.
  revert k i; induction l as [|y ys IH]; intros k i; simpl.
  - destruct i; discriminate.
  - destruct i as [|i]; simpl.
    + intros Heq; injection Heq as ->. rewrite Nat.add_0_r. reflexivity.
    + intros Hn. rewrite (IH (S k) i Hn). f_equal. f_equal. lia.
Qed.

Lemma map_fst_combine {A B} (l : list A) (l' : list B) :
  length l <= length l' -> map fst (combine l l') = l.
Proof.
  revert l'; induction l as [|y ys IH]; intros [|z zs]; simpl; intros Hl; try reflexivity; try lia.
  rewrite IH by lia. reflexivity.
Qed.

Lemma StandardMerkleTree_of_values (values : list Leaf) t :
  StandardMerkleTree_of values = Some t -> map fst (smt_values t) = values.
Proof.
  unfold StandardMerkleTree_of.
  destruct (makeMerkleTree _) as [tr|]; [|discriminate].
  intros Heq; injection Heq as <-. simpl.
  rewrite map_map.
  transitivity (map fst (combine values (seq 0 (length values)))).
  - apply map_ext. intros [v i]. reflexivity.
  - apply map_fst_combine. rewrite length_seq. lia.
Qed.

Section Complete.

Hypothesis compare_antisym : forall a b : digest, compareBytes b a = CompOpp (compareBytes a b).
Hypothesis compare_eq : forall a b : digest, compareBytes a b = Eq -> a = b.

(** Every value of a [StandardMerkleTree] gets a proof from [getProof], and
    that proof leads from its leaf hash to the root. *)
Lemma smt_getProof_complete (values : list Leaf) t index leaf :
  StandardMerkleTree_of values = Some t ->
  nth_error values index = Some leaf ->
  exists proof, smt_getProof t index = Some proof /\
                processProof (leafHash leaf) proof = smt_root t.
Proof.
  intros Ht Hleaf. unfold StandardMerkleTree_of in Ht.
  set (hv := map (fun '(value, valueIndex) => (value, valueIndex, leafHash value))
                 (combine values (seq 0 (length values)))) in Ht.
  set (sorted := sort_by_hash hv) in Ht.
  (* the hashed entry of [leaf] and its position in the sorted list *)
  assert (Hin : In (leaf, index, leafHash leaf) sorted).
  { eapply Permutation_in; [apply Permutation_sym, sort_by_hash_perm|].
    unfold hv. apply in_map_iff. exists (leaf, index). split; [reflexivity|].
    eapply nth_error_In. apply (nth_error_combine_seq values 0 index leaf Hleaf). }
  destruct (position_of_some index sorted _ _ Hin) as (pos & Hpos & Hposl).
  destruct (position_of_spec index sorted pos Hpos) as (x & d & Hx).
  assert (Hxd : x = leaf /\ d = leafHash leaf).
  { assert (Hxin : In (x, index, d) hv).
    { eapply Permutation_in; [apply sort_by_hash_perm|]. eapply nth_error_In. exact Hx. }
    unfold hv in Hxin. apply in_map_iff in Hxin.
    destruct Hxin as ([v i] & Heq & Hc). injection Heq as Hv Hi Hd. subst x d i.
    apply In_combine_seq in Hc. rewrite Nat.sub_0_r, Hleaf in Hc.
    destruct Hc as [_ Hc]. injection Hc as ->. auto. }
  destruct Hxd as [-> ->].
  (* the node array *)
  set (n := length sorted) in *.
  assert (Hn : length (map snd sorted) = n) by (apply length_map).
  unfold makeMerkleTree in Ht.
  destruct (map snd sorted) as [|l0 rest] eqn:Hms; [simpl in Hn; lia|].
  rewrite <- Hms in *. rewrite Hn in Ht.
  injection Ht as <-.
  change (n + (n + 0))%nat with (2 * n)%nat.
  set (tr := fill_internal (2 * n - 1 - n) (fun j => nth (2 * n - 1 - 1 - j) (map snd sorted) l0)).
  set (ti := (2 * n - 1 - pos - 1)%nat).
  assert (Hleafslot : tr ti = leafHash leaf).
  { unfold tr. rewrite fill_internal_above by (unfold ti; lia).
    replace (2 * n - 1 - 1 - ti)%nat with pos by (unfold ti; lia).
    apply nth_error_nth. rewrite nth_error_map.
    transitivity (option_map snd (Some (leaf, index, leafHash leaf)));
      [f_equal; exact Hx|reflexivity]. }
  assert (Hroot : fold_left hashPair (getProof_aux ti tr ti) (tr ti) = tr 0%nat).
  { apply (getProof_aux_root compare_antisym compare_eq tr (2 * n - 1 - n)).
    - intros i Hi. unfold tr. apply fill_internal_node. exact Hi.
    - unfold ti. lia.
    - lia. }
  assert (Hroot' : processProof (leafHash leaf)
                    (getProof {| tree_len := 2 * n - 1; tree_at := tr |} ti) = tr 0%nat).
  { unfold processProof, getProof. cbn [tree_at]. rewrite <- Hleafslot. exact Hroot. }
  unfold smt_getProof. cbn -[Nat.mul Nat.sub].
  rewrite nth_error_map, (nth_error_combine_seq values 0 index leaf Hleaf). cbn -[Nat.mul Nat.sub].
  rewrite Hpos.
  destruct (digest_eq_dec _ _) as [_|Hne]; [|exfalso; apply Hne; symmetry; exact Hleafslot].
  destruct (digest_eq_dec _ _) as [_|Hne]; [|exfalso; apply Hne; symmetry; exact Hroot'].
  eexists. split; [reflexivity|exact Hroot'].
Qed.

End Complete.

Lemma buildTree_finish_ok (st : Store digest) e scores st' r :
  buildTree_finish st e scores = Ok (st', r) ->
  exists t,
    let leaves := map (fun '(_, (poolId, score)) => (poolId, score, e)) scores in
    StandardMerkleTree_of leaves = Some t /\
    existsb (fun c => Z.eqb (cp_epoch c) e) st = false /\
    st' = st ++ [{| cp_root := smt_root t; cp_epoch := e;
                    cp_poolCount := length leaves; cp_leaves := leaves |}] /\
    r = (smt_root t, e, length leaves).
Proof.
  unfold buildTree_finish.
  destruct scores as [|[sym [p s]] rest]; [discriminate|].
  cbv zeta. cbn [map].
  destruct (StandardMerkleTree_of _) as [t|] eqn:Ht; [|discriminate].
  unfold saveCheckpoint. cbn [cp_epoch].
  destruct (existsb _ st) eqn:Hex; [discriminate|].
  intros Heq. injection Heq as <- <-. exists t. auto.
Qed.

Lemma find_app_none {A} (f : A -> bool) l1 l2 :
  existsb f l1 = false -> find f (l1 ++ l2) = find f l2.
Proof.
  induction l1 as [|x l1 IH]; simpl; [reflexivity|].
  destruct (f x); [discriminate|]. exact IH.
Qed.

Lemma latestCheckpoint_app (st : Store digest) cp :
  (forall c, In c st -> (cp_epoch c < cp_epoch cp)%Z) ->
  latestCheckpoint (st ++ [cp]) = Some cp.
Proof.
  induction st as [|c rest IH]; intros Hlt; simpl; [reflexivity|].
  rewrite IH by (intros c' Hc'; apply Hlt; right; exact Hc').
  destruct (Z.ltb_spec (cp_epoch c) (cp_epoch cp)) as [_|Hge]; [reflexivity|].
  specialize (Hlt c (or_introl eq_refl)). lia.
Qed.

Lemma getCurrentEpoch_gt (st : Store digest) c :
  In c st -> (cp_epoch c < getCurrentEpoch st)%Z.
Proof.
  intros Hc. unfold getCurrentEpoch.
  destruct (maxEpoch st) as [e|] eqn:Hm.
  - destruct (MerkleBuilderFacts.maxEpoch_spec st e Hm) as [_ Hle].
    specialize (Hle (cp_epoch c) (in_map _ _ _ Hc)). lia.
  - rewrite (MerkleBuilderFacts.maxEpoch_none st Hm) in Hc. destruct Hc.
Qed.

Lemma find_leaf_spec poolId k (leaves : list Leaf) i leaf :
  find_leaf poolId k leaves = Some (i, leaf) ->
  (k <= i)%nat /\ nth_error leaves (i - k) = Some leaf /\ fst (fst leaf) = poolId.
Proof.
  revert k; induction leaves as [|l rest IH]; intros k; simpl; [discriminate|].
  destruct (Z.eqb_spec (fst (fst l)) poolId) as [Hp|_].
  - intros Heq; injection Heq as <- <-. rewrite Nat.sub_diag. auto.
  - intros Hf. destruct (IH (S k) Hf) as (Hk & Hn & Hp). split; [lia|].
    replace (i - k)%nat with (S (i - S k)) by lia. auto.
Qed.

Lemma find_leaf_some poolId k (leaves : list Leaf) leaf :
  In leaf leaves -> fst (fst leaf) = poolId -> exists r, find_leaf poolId k leaves = Some r.
Proof.
  revert k; induction leaves as [|l rest IH]; intros k; simpl; [intros []|].
  intros Hin Hp. destruct (Z.eqb_spec (fst (fst l)) poolId); [eauto|].
  destruct Hin as [->|Hin]; [contradiction|]. eauto.
Qed.

Section Sound.

(** The idealisation of keccak256 as collision-free: distinct inputs have
    distinct hashes. *)
Hypothesis leafHash_inj : forall p s e p' s' e',
  standardLeafHash p s e = standardLeafHash p' s' e' -> p = p' /\ s = s' /\ e = e'.
Hypothesis keccakConcat_inj : forall a b a' b' : digest,
  keccakConcat a b = keccakConcat a' b' -> a = a' /\ b = b'.

Lemma hashPair_inj_l (a b x : digest) : hashPair a x = hashPair b x -> a = b.
Proof.
  unfold hashPair.
  destruct (compareBytes a x), (compareBytes b x); intros Heq;
    apply keccakConcat_inj in Heq; destruct Heq; congruence.
Qed.

Lemma hashPair_inj_r (x a b : digest) : hashPair x a = hashPair x b -> a = b.
Proof.
  unfold hashPair.
  destruct (compareBytes x a), (compareBytes x b); intros Heq;
    apply keccakConcat_inj in Heq; destruct Heq; congruence.
Qed.

Lemma processProof_inj_leaf (proof : list digest) a b :
  processProof a proof = processProof b proof -> a = b.
Proof.
  unfold processProof. revert a b.
  induction proof as [|x rest IH]; intros a b; simpl; [auto|].
  intros Heq. apply IH in Heq. eapply hashPair_inj_l. exact Heq.
Qed.

Lemma processProof_replace (proof : list digest) k x x' leaf :
  nth_error proof k = Some x -> x' <> x ->
  processProof leaf (ScoreSigner.replace_nth proof k x') <> processProof leaf proof.
Proof.
  unfold processProof. revert k leaf.
  induction proof as [|y rest IH]; intros k leaf Hk Hne; [destruct k; discriminate|].
  destruct k as [|k]; simpl in *.
  - injection Hk as ->. intros Heq.
    apply (processProof_inj_leaf rest) in Heq. apply hashPair_inj_r in Heq. contradiction.
  - apply IH; assumption.
Qed.

End Sound.

Section Verify.

Hypothesis compare_antisym : forall a b : digest, compareBytes b a = CompOpp (compareBytes a b).
Hypothesis compare_eq : forall a b : digest, compareBytes a b = Eq -> a = b.
Hypothesis leafHash_inj : forall p s e p' s' e',
  standardLeafHash p s e = standardLeafHash p' s' e' -> p = p' /\ s = s' /\ e = e'.
Hypothesis keccakConcat_inj : forall a b a' b' : digest,
  keccakConcat a b = keccakConcat a' b' -> a = a' /\ b = b'.

(** C7: for a checkpoint persisted by a successful [buildTree] (which needs
    a non-empty score set), proof retrieval for the pool of any of its
    leaves, by the checkpoint's epoch or as the latest checkpoint, returns a
    proof of that pool at that epoch and root which [verifyProof] accepts;
    and, with keccak256 idealised as collision-free, a proof that
    [verifyProof] accepts is rejected once its poolId, its score or one
    element of its proof path is changed. *)
Theorem checkpoint_proof_verifies :
  (forall (st st' : Store digest) scores root epoch poolCount sym poolId score query,
     buildTree st scores = Ok (st', (root, epoch, poolCount)) ->
     In (sym, (poolId, score)) scores ->
     query = None \/ query = Some epoch ->
     exists prf,
       getProofFromCheckpoint st' poolId query = Some prf /\
       verifyProof prf = true /\
       mp_poolId prf = poolId /\ mp_epoch prf = epoch /\ mp_root prf = root /\
       exists sym', In (sym', (poolId, mp_score prf)) scores) /\
  (forall prf : MerkleProof digest,
     verifyProof prf = true ->
     (forall poolId', poolId' <> mp_poolId prf ->
        verifyProof {| mp_poolId := poolId'; mp_score := mp_score prf;
                       mp_epoch := mp_epoch prf; mp_proof := mp_proof prf;
                       mp_root := mp_root prf |} = false) /\
     (forall score', score' <> mp_score prf ->
        verifyProof {| mp_poolId := mp_poolId prf; mp_score := score';
                       mp_epoch := mp_epoch prf; mp_proof := mp_proof prf;
                       mp_root := mp_root prf |} = false) /\
     (forall k x x', nth_error (mp_proof prf) k = Some x -> x' <> x ->
        verifyProof {| mp_poolId := mp_poolId prf; mp_score := mp_score prf;
                       mp_epoch := mp_epoch prf;
                       mp_proof := ScoreSigner.replace_nth (mp_proof prf) k x';
                       mp_root := mp_root prf |} = false)).
Proof.
  split.
  - intros st st' scores root epoch poolCount sym poolId score query Hb Hin Hq.
    unfold buildTree in Hb. apply buildTree_finish_ok in Hb.
    destruct Hb as (t & Ht & Hex & -> & Hr).
    injection Hr as Hroot Hepoch _. subst root epoch.
    set (leaves := map (fun '(_, (poolId, score)) => (poolId, score, getCurrentEpoch st)) scores) in *.
    set (cp := {| cp_root := smt_root t; cp_epoch := getCurrentEpoch st;
                  cp_poolCount := length leaves; cp_leaves := leaves |}).
    assert (Hlatest : latestCheckpoint (st ++ [cp]) = Some cp).
    { apply latestCheckpoint_app. intros c Hc. apply getCurrentEpoch_gt. exact Hc. }
    assert (Hsel : forall (P : option (Checkpoint digest) -> Prop),
               P (Some cp) ->
               P (match query with
                  | Some e => if Z.eqb e 0 then latestCheckpoint (st ++ [cp])
                              else find (fun cp => Z.eqb (cp_epoch cp) e) (st ++ [cp])
                  | None => latestCheckpoint (st ++ [cp])
                  end)).
    { intros P HP. destruct Hq as [->| ->]; [rewrite Hlatest; exact HP|].
      destruct (Z.eqb _ 0); [rewrite Hlatest; exact HP|].
      rewrite (find_app_none _ st [cp] Hex). cbn. rewrite Z.eqb_refl. exact HP. }
    unfold getProofFromCheckpoint. apply Hsel. cbn [cp_leaves cp cp_epoch].
    rewrite Ht, (StandardMerkleTree_of_values _ t Ht).
    assert (Hleaf : In (poolId, score, getCurrentEpoch st) leaves).
    { unfold leaves. apply in_map_iff. exists (sym, (poolId, score)). auto. }
    destruct (find_leaf_some poolId 0 leaves _ Hleaf eq_refl) as [[index leaf] Hfind].
    rewrite Hfind.
    destruct (find_leaf_spec poolId 0 leaves index leaf Hfind) as (_ & Hnth & Hp).
    rewrite Nat.sub_0_r in Hnth.
    destruct (smt_getProof_complete compare_antisym compare_eq leaves t index leaf Ht Hnth)
      as (proof & Hgp & Hpp).
    rewrite Hgp.
    assert (Hl : In leaf leaves) by (eapply nth_error_In; exact Hnth).
    unfold leaves in Hl. apply in_map_iff in Hl.
    destruct Hl as ([sym' [p' s']] & <- & Hin').
    cbn in Hp. subst p'.
    eexists. split; [reflexivity|]. cbn.
    split; [|repeat split; eauto].
    unfold verifyProof. cbn.
    destruct (digest_eq_dec _ _) as [_|Hne]; [reflexivity|].
    exfalso. apply Hne. symmetry. exact Hpp.
  - intros prf Hv. unfold verifyProof in *. cbn.
    destruct (digest_eq_dec _ _) as [Hr|_]; [|discriminate].
    repeat split.
    + intros p' Hne. destruct (digest_eq_dec _ _) as [Hr'|_]; [exfalso|reflexivity].
      rewrite Hr in Hr'. apply processProof_inj_leaf in Hr'; [|exact keccakConcat_inj].
      apply leafHash_inj in Hr'. destruct Hr' as (Hp & _). congruence.
    + intros s' Hne. destruct (digest_eq_dec _ _) as [Hr'|_]; [exfalso|reflexivity].
      rewrite Hr in Hr'. apply processProof_inj_leaf in Hr'; [|exact keccakConcat_inj].
      apply leafHash_inj in Hr'. destruct Hr' as (_ & Hs & _). congruence.
    + intros k x x' Hk Hne. destruct (digest_eq_dec _ _) as [Hr'|_]; [exfalso|reflexivity].
      rewrite Hr in Hr'.
      apply (processProof_replace keccakConcat_inj (mp_proof prf) k x x'
               (standardLeafHash (mp_poolId prf) (mp_score prf) (mp_epoch prf)) Hk Hne).
      symmetry. exact Hr'.
Qed.

End Verify.

End Tree.

End MerkleTreeFacts.

Module MerkleWitnesses.
Import MerkleBuilder MerkleSpec MerkleSymbolic.

Lemma lex_antisym c k c' k' :
  c' = CompOpp c -> k' = CompOpp k -> lex c' k' = CompOpp (lex c k).
Proof. intros -> ->. destruct c; reflexivity. Qed.

Lemma scompare_antisym (a b : sdigest) : scompare b a = CompOpp (scompare a b).
Proof.
  revert b; induction a as [p s e|a1 IH1 a2 IH2]; intros [p' s' e'|b1 b2]; simpl; try reflexivity.
  - apply lex_antisym; [apply Z.compare_antisym|].
    apply lex_antisym; apply Z.compare_antisym.
  - apply lex_antisym; [apply IH1|apply IH2].
Qed.

Lemma lex_eq c k : lex c k = Eq -> c = Eq /\ k = Eq.
Proof. destruct c; simpl; auto; discriminate. Qed.

Lemma scompare_eq (a b : sdigest) : scompare a b = Eq -> a = b.
Proof.
  revert b; induction a as [p s e|a1 IH1 a2 IH2]; intros [p' s' e'|b1 b2]; simpl;
    try discriminate.
  - intros Hc. apply lex_eq in Hc. destruct Hc as [Hp Hc]. apply lex_eq in Hc.
    destruct Hc as [Hs He]. apply Z.compare_eq in Hp, Hs, He. subst. reflexivity.
  - intros Hc. apply lex_eq in Hc. destruct Hc as [H1 H2].
    rewrite (IH1 _ H1), (IH2 _ H2). reflexivity.
Qed.

Lemma SLeaf_inj p s e p' s' e' :
  SLeaf p s e = SLeaf p' s' e' -> p = p' /\ s = s' /\ e = e'.
Proof. intros Heq. injection Heq as -> -> ->. auto. Qed.

Lemma SNode_inj (a b a' b' : sdigest) : SNode a b = SNode a' b' -> a = a' /\ b = b'.
Proof. intros Heq. injection Heq as -> ->. auto. Qed.

Lemma ws1_nonempty : Forall (fun scores => scores <> []) [ws1; ws1; ws1].
Proof. repeat constructor; discriminate. Qed.

Lemma buildTree_epochs_consecutive_witness :
  (exists (st' : Store sdigest) root poolCount,
     buildTree [] ws1 = Ok (st', (root, 1%Z, poolCount))) /\
  snd (buildTree_sequence (digest := sdigest) [] [ws1; ws1; ws1]) = [1; 2; 3]%Z.
Proof.
  destruct (@MerkleBuilderFacts.buildTree_epochs_consecutive sdigest symbolic_hash) as (H1 & H2 & _).
  split.
  - destruct (buildTree [] ws1) as [[st' [[root e] n]]|msg] eqn:Hb;
      [|vm_compute in Hb; discriminate].
    destruct (H1 [] st' ws1 root e n Hb) as (He & _). simpl in He. subst e.
    exists st', root, n. reflexivity.
  - destruct (H2 _ ws1_nonempty) as [He _]. rewrite He. reflexivity.
Defined.

Lemma checkpoint_proof_verifies_witness :
  exists (st' : Store sdigest) root prf,
    buildTree [] ws1 = Ok (st', (root, 1%Z, 2%nat)) /\
    getProofFromCheckpoint st' 11%Z (Some 1%Z) = Some prf /\
    verifyProof prf = true /\
    verifyProof {| mp_poolId := 12%Z; mp_score := mp_score prf; mp_epoch := mp_epoch prf;
                   mp_proof := mp_proof prf; mp_root := mp_root prf |} = false.
Proof.
  destruct (@MerkleTreeFacts.checkpoint_proof_verifies sdigest symbolic_hash
              scompare_antisym scompare_eq SLeaf_inj SNode_inj) as [Hc Hs].
  destruct (buildTree [] ws1) as [[st' [[root e] n]]|msg] eqn:Hb;
    [|vm_compute in Hb; discriminate].
  pose proof Hb as Hb'. vm_compute in Hb'. injection Hb' as _ _ He Hn. subst e n.
  destruct (Hc [] st' ws1 root 1%Z 2%nat "PEPE"%string 11%Z 7000%Z (Some 1%Z)
              Hb (or_introl eq_refl) (or_intror eq_refl))
    as (prf & Hget & Hver & Hpool & _).
  exists st', root, prf. split; [reflexivity|]. split; [exact Hget|]. split; [exact Hver|].
  destruct (Hs prf Hver) as (Hp & _). apply Hp. rewrite Hpool. discriminate.
Defined.

End MerkleWitnesses.

(* ------------------------------------------------------------------------- *)
Module SignerConfigFacts.
Import MerkleBuilder SignerConfig.



(** Loading routes/merkle.ts, and so index.ts, fails for every environment,
    a signer key set or not: the file binds its imports twice and imports
    names jobs/scheduler.ts does not export. *)
Lemma index_module_init_fails (env : Env) :
  merkle_routes_module_init env = Throws MERKLE_ROUTES_SYNTAX_ERROR /\
  index_module_init env = Throws MERKLE_ROUTES_SYNTAX_ERROR.
Proof. split; reflexivity. Qed.



End SignerConfigFacts.

Module SignerConfigWitnesses.
Import MerkleBuilder SignerConfig.


End SignerConfigWitnesses.

(* ------------------------------------------------------------------------- *)
(** ** More of the score engine and score collection *)

Module JsMapVFacts.

Lemma getV_set_same {V} (m : JsMapV.t V) k v : JsMapV.get (JsMapV.set m k v) k = Some v.
Proof.
  induction m as [|[k0 v0] rest IH]; simpl; [rewrite String.eqb_refl; reflexivity|].
  destruct (String.eqb_spec k0 k); simpl.
  - subst. rewrite String.eqb_refl. reflexivity.
  - apply String.eqb_neq in n. rewrite n. exact IH.
Qed.

Lemma get_set_other {V} (m : JsMapV.t V) k k' v :
  k <> k' -> JsMapV.get (JsMapV.set m k v) k' = JsMapV.get m k'.
Proof.
  intros Hne. induction m as [|[k0 v0] rest IH]; simpl.
  - destruct (String.eqb_spec k k'); congruence.
  - destruct (String.eqb_spec k0 k); simpl.
    + subst. destruct (String.eqb_spec k k'); congruence.
    + destruct (String.eqb_spec k0 k'); [reflexivity|exact IH].
Qed.

Lemma get_In {V} (m : JsMapV.t V) k v : JsMapV.get m k = Some v -> In (k, v) m.
Proof.
  induction m as [|[k0 v0] rest IH]; simpl; [discriminate|].
  destruct (String.eqb_spec k0 k); [intros [= ->]; subst; auto|auto].
Qed.

Lemma In_keys_set {V} (m : JsMapV.t V) k v x :
  In x (map fst (JsMapV.set m k v)) -> x = k \/ In x (map fst m).
Proof.
  induction m as [|[k0 v0] rest IH]; simpl; [intuition|].
  destruct (String.eqb_spec k0 k); simpl; [tauto|].
  intros [<-|Hin]; [auto|]. apply IH in Hin. tauto.
Qed.

Lemma NoDup_keys_set {V} (m : JsMapV.t V) k v :
  NoDup (map fst m) -> NoDup (map fst (JsMapV.set m k v)).
Proof.
  induction m as [|[k0 v0] rest IH]; simpl; intros Hnd.
  - constructor; [intros []|constructor].
  - inversion Hnd as [|? ? Hn Hnd']; subst.
    destruct (String.eqb_spec k0 k); simpl; constructor; auto.
    intros Hin. apply In_keys_set in Hin. destruct Hin; [congruence|contradiction].
Qed.

Lemma set_all_notin {V} (l : list (string * V)) (m : JsMapV.t V) k :
  ~ In k (map fst l) -> JsMapV.get (JsMapV.set_all m l) k = JsMapV.get m k.
Proof.
  unfold JsMapV.set_all. revert m.
  induction l as [|[k0 v0] rest IH]; simpl; intros m Hn; [reflexivity|].
  rewrite IH by tauto. apply get_set_other. intros ->. apply Hn. auto.
Qed.

Lemma set_all_In {V} (l : list (string * V)) (m : JsMapV.t V) k v :
  NoDup (map fst l) -> In (k, v) l -> JsMapV.get (JsMapV.set_all m l) k = Some v.
Proof.
  intros Hnd Hin. apply in_split in Hin. destruct Hin as (l1 & l2 & ->).
  rewrite map_app in Hnd. simpl in Hnd. apply NoDup_remove_2 in Hnd.
  unfold JsMapV.set_all. rewrite fold_left_app. simpl.
  change (JsMapV.get (JsMapV.set_all
            (JsMapV.set (fold_left (fun m kv => JsMapV.set m (fst kv) (snd kv)) l1 m) k v) l2) k
          = Some v).
  rewrite set_all_notin; [apply getV_set_same|].
  intros Hk. apply Hnd. apply in_or_app. auto.
Qed.

Lemma get_of_In {V} (m : JsMapV.t V) k v :
  NoDup (map fst m) -> In (k, v) m -> JsMapV.get m k = Some v.
Proof.
  induction m as [|[k0 v0] rest IH]; simpl; [intros _ []|].
  intros Hnd Hin. apply NoDup_cons_iff in Hnd. destruct Hnd as [Hn Hnd].
  destruct Hin as [[= -> ->]|Hin]; [rewrite String.eqb_refl; reflexivity|].
  destruct (String.eqb_spec k0 k) as [->|]; [|auto].
  exfalso. apply Hn. apply (in_map fst _ _ Hin).
Qed.

Lemma In_keys_get {V} (m : JsMapV.t V) k :
  In k (map fst m) <-> exists v, JsMapV.get m k = Some v.
Proof.
  induction m as [|[k0 v0] rest IH]; simpl; [split; [intros []|intros [v H]; discriminate]|].
  destruct (String.eqb_spec k0 k) as [->|Hne]; [split; eauto|].
  rewrite <- IH. split; [intros [H|H]; [contradiction|exact H]|auto].
Qed.

End JsMapVFacts.

Module ScoreMoreFacts.

Import ScoreCalculator ScoreCalculatorMore SchedulerCollection MerkleBuilder.
Import ScoreCalculatorFacts JsMapVFacts.
Open Scope R_scope.

Lemma js_floor_IZR (k : Z) : js_floor (IZR k) = IZR k.
Proof. unfold js_floor. f_equal. apply Int_part_unique. lra. Qed.

Lemma js_floor_le (x : R) : js_floor x <= x.
Proof. unfold js_floor. destruct (base_Int_part x). lra. Qed.

Lemma js_floor_mono (x y : R) : x <= y -> js_floor x <= js_floor y.
Proof.
  intros Hxy. unfold js_floor. apply IZR_le.
  destruct (Z_le_gt_dec (Int_part x) (Int_part y)) as [H|H]; [exact H|exfalso].
  destruct (base_Int_part x) as [Hx _]. destruct (base_Int_part y) as [_ Hy].
  assert (IZR (Int_part y) + 1 <= IZR (Int_part x)).
  { rewrite <- plus_IZR. apply IZR_le. lia. }
  lra.
Qed.

Lemma js_floor_ge_int (k : Z) (x : R) : IZR k <= x -> IZR k <= js_floor x.
Proof. intros H. rewrite <- (js_floor_IZR k). apply js_floor_mono. exact H. Qed.

Lemma js_floor_lt_int (k : Z) (x : R) : x < IZR k + 1 -> js_floor x <= IZR k.
Proof.
  intros H. unfold js_floor. destruct (base_Int_part x) as [Hl _].
  assert (Hlt : IZR (Int_part x) < IZR (k + 1)) by (rewrite plus_IZR; lra).
  apply lt_IZR in Hlt. apply IZR_le. lia.
Qed.

Lemma js_floor_int (x : R) : exists n, js_floor x = IZR n.
Proof. exists (Int_part x). reflexivity. Qed.

Lemma js_round_between (a b : Z) (v : R) :
  IZR a <= v <= IZR b -> IZR a <= js_round v <= IZR b.
Proof.
  intros [Ha Hb]. unfold js_round. change (IZR (Int_part (v + / 2))) with (js_floor (v + / 2)).
  split; [apply js_floor_ge_int; lra|apply js_floor_lt_int; lra].
Qed.

Lemma clamp_int (k : Z) :
  exists n, Rmin MAX_SCORE (Rmax MIN_SCORE (IZR k)) = IZR n /\ (0 <= n <= 10000)%Z.
Proof.
  unfold MAX_SCORE, MIN_SCORE.
  destruct (Z_lt_le_dec k 0) as [Hn|Hn].
  - exists 0%Z. rewrite (Rmax_l_le 0 (IZR k)) by (apply IZR_le; lia).
    rewrite Rmin_r_le by lra. split; [reflexivity|lia].
  - rewrite (Rmax_r_le 0 (IZR k)) by (apply IZR_le; lia).
    destruct (Z_le_gt_dec k 10000) as [Hk|Hk].
    + exists k. rewrite Rmin_r_le by (apply IZR_le; lia). split; [reflexivity|lia].
    + exists 10000%Z. rewrite Rmin_l_le by (apply IZR_le; lia). split; [reflexivity|lia].
Qed.

Lemma Rmax_0_mono (x y : R) : x <= y -> Rmax 0 x <= Rmax 0 y.
Proof. unfold Rmax. destruct (Rle_dec 0 x), (Rle_dec 0 y); lra. Qed.

Lemma Rmax_0_int (k : Z) : exists n, Rmax 0 (IZR k) = IZR n /\ (0 <= n)%Z.
Proof.
  destruct (Z_lt_le_dec k 0) as [Hn|Hn].
  - exists 0%Z. rewrite Rmax_l_le by (apply IZR_le; lia). split; [reflexivity|lia].
  - exists k. rewrite Rmax_r_le by (apply IZR_le; lia). split; [reflexivity|lia].
Qed.

Lemma reductionBps_range (score : R) :
  0 <= score <= 10000 -> 0 <= js_floor (score * 5000 / MAX_SCORE) <= 5000.
Proof.
  intros Hs. unfold MAX_SCORE. split.
  - apply (js_floor_ge_int 0). apply Rmult_le_pos; [lra|]. left. apply Rinv_0_lt_compat. lra.
  - apply (js_floor_lt_int 5000). lra.
Qed.

(** calculateProtocolShareReduction: for a score in the range [0, 10000]
    and a non-negative base share, the adjusted share is at most the base
    and at least [floor(base / 2)] (the 50% maximum reduction); a higher
    score never gives a larger share; the result is always a non-negative
    integer; and at score 0 an integer base share is returned unchanged. *)
Theorem calculateProtocolShareReduction_props :
  (forall score base, 0 <= score <= 10000 -> 0 <= base ->
     js_floor (base / 2) <= calculateProtocolShareReduction score base <= base) /\
  (forall s1 s2 base, s1 <= s2 -> 0 <= base ->
     calculateProtocolShareReduction s2 base <= calculateProtocolShareReduction s1 base) /\
  (forall score base, exists n,
     calculateProtocolShareReduction score base = IZR n /\ (0 <= n)%Z) /\
  (forall b : Z, (0 <= b)%Z -> calculateProtocolShareReduction 0 (IZR b) = IZR b).
Proof.
  unfold calculateProtocolShareReduction. split; [|split; [|split]].
  - intros score base Hs Hb. apply reductionBps_range in Hs.
    set (r := js_floor (score * 5000 / MAX_SCORE)) in *.
    assert (Hhalf : base / 2 <= base * (10000 - r) / 10000) by (unfold Rdiv; nra).
    assert (Hle : base * (10000 - r) / 10000 <= base) by (unfold Rdiv; nra).
    pose proof (js_floor_le (base * (10000 - r) / 10000)).
    apply js_floor_mono in Hhalf.
    assert (H0 : 0 <= js_floor (base / 2)) by (apply (js_floor_ge_int 0); lra).
    rewrite Rmax_r_le by lra. lra.
  - intros s1 s2 base H12 Hb. apply Rmax_0_mono. apply js_floor_mono.
    assert (Hr : js_floor (s1 * 5000 / MAX_SCORE) <= js_floor (s2 * 5000 / MAX_SCORE)).
    { apply js_floor_mono. unfold MAX_SCORE, Rdiv. nra. }
    unfold Rdiv. nra.
  - intros score base. apply Rmax_0_int.
  - intros b Hb. replace (0 * 5000 / MAX_SCORE) with (IZR 0) by (unfold MAX_SCORE; field).
    rewrite js_floor_IZR. replace (IZR b * (10000 - IZR 0) / 10000) with (IZR b) by field.
    rewrite js_floor_IZR. apply Rmax_r_le. apply IZR_le. exact Hb.
Qed.

(** calculatePairScore: the pair score is symmetric in its two token
    scores and always an integer in [0, 10000]; for two integer token
    scores in [0, 10000] it lies between the smaller and the larger. *)
Theorem calculatePairScore_props (x y : R) :
  calculatePairScore x y = calculatePairScore y x /\
  (exists n, calculatePairScore x y = IZR n /\ (0 <= n <= 10000)%Z) /\
  (forall a b : Z, x = IZR a -> y = IZR b ->
     (0 <= a <= 10000)%Z -> (0 <= b <= 10000)%Z ->
     Rmin x y <= calculatePairScore x y <= Rmax x y).
Proof.
  unfold calculatePairScore. split; [rewrite Rplus_comm; reflexivity|]. split.
  - apply clamp_int.
  - intros a b -> -> Ha Hb.
    assert (Hcl : forall (lo hi : Z), (0 <= lo)%Z -> (hi <= 10000)%Z ->
              IZR lo <= (IZR a + IZR b) / 2 <= IZR hi ->
              IZR lo <= Rmin MAX_SCORE (Rmax MIN_SCORE (js_round ((IZR a + IZR b) / 2))) <= IZR hi).
    { intros lo hi Hlo Hhi Hv. apply js_round_between in Hv.
      apply IZR_le in Hlo, Hhi. unfold MAX_SCORE, MIN_SCORE.
      rewrite (Rmax_r_le 0) by lra. rewrite Rmin_r_le by lra. exact Hv. }
    destruct (Z_le_gt_dec a b) as [Hab|Hab].
    + apply IZR_le in Hab as Hab'.
      rewrite (Rmin_l_le (IZR a)), (Rmax_r_le (IZR a)) by exact Hab'.
      apply Hcl; lia || lra.
    + assert (Hba : IZR b <= IZR a) by (apply IZR_le; lia).
      rewrite (Rmin_r_le (IZR a)), (Rmax_l_le (IZR a)) by exact Hba.
      apply Hcl; lia || lra.
Qed.

(** getScoreTier: the tier is monotone in the score: a higher score never
    gets a lower tier (in the order COLD, ACTIVE, WARM, HOT, VIRAL,
    LEGENDARY). *)
Theorem getScoreTier_monotone (s s' : R) :
  s <= s' -> (tier_rank (getScoreTier s) <= tier_rank (getScoreTier s'))%nat.
Proof.
  intros H. unfold getScoreTier, Rleb.
  repeat match goal with |- context [Rle_dec ?a ?b] => destruct (Rle_dec a b) end;
    first [exfalso; lra | vm_compute; lia].
Qed.

Section BatchFacts.

Variable w : ScoreWeights.
Variable mu : EnhancedScoreMultipliers.
Variable clock : nat -> Z.

Lemma batch_loop_keys i scores ms x :
  In x (map fst (calculateBatch_loop w mu clock i scores ms)) ->
  In x (map fst scores) \/ In x (map tokenSymbol ms).
Proof.
  revert i scores. induction ms as [|m rest IH]; simpl; intros i scores Hin; [auto|].
  apply IH in Hin. destruct Hin as [Hin|Hin]; [|auto].
  apply In_keys_set in Hin. destruct Hin; auto.
Qed.

Lemma batch_loop_NoDup i scores ms :
  NoDup (map fst scores) -> NoDup (map fst (calculateBatch_loop w mu clock i scores ms)).
Proof.
  revert i scores. induction ms as [|m rest IH]; simpl; intros i scores Hnd; [exact Hnd|].
  apply IH. apply NoDup_keys_set. exact Hnd.
Qed.

Lemma batch_loop_notin i scores ms k :
  ~ In k (map tokenSymbol ms) ->
  JsMapV.get (calculateBatch_loop w mu clock i scores ms) k = JsMapV.get scores k.
Proof.
  revert i scores. induction ms as [|m rest IH]; simpl; intros i scores Hn; [reflexivity|].
  rewrite IH by tauto. apply get_set_other. intros Heq. apply Hn. auto.
Qed.

Lemma batch_loop_last i scores l1 m l2 :
  ~ In (tokenSymbol m) (map tokenSymbol l2) ->
  JsMapV.get (calculateBatch_loop w mu clock i scores (l1 ++ m :: l2)) (tokenSymbol m) =
  Some (calculate w mu (clock (i + length l1)%nat) m).
Proof.
  intros Hn. revert i scores. induction l1 as [|a l1 IH]; intros i scores; simpl.
  - rewrite batch_loop_notin by exact Hn. rewrite getV_set_same, Nat.add_0_r. reflexivity.
  - rewrite IH. do 3 f_equal. lia.
Qed.

End BatchFacts.

(** processScoreCollection (with calculateBatch): a failed or empty
    collection leaves the scheduler state unchanged; otherwise the latest
    metrics become the collected ones, a token without metrics in the batch
    keeps its previous score, and a token's score becomes the score that
    [calculate] gives for the last metrics of that token in the batch (a
    later duplicate symbol overwrites an earlier one). *)
Theorem processScoreCollection_updates (clock : nat -> Z) (st : CollectorState) :
  (forall msg, processScoreCollection clock (Throws msg) st = st) /\
  processScoreCollection clock (Ok []) st = st /\
  (forall ms, ms <> [] ->
     let st' := processScoreCollection clock (Ok ms) st in
     latestAggregatedMetrics st' = ms /\
     (forall sym, ~ In sym (map tokenSymbol ms) ->
        JsMapV.get (latestTokenScores st') sym = JsMapV.get (latestTokenScores st) sym) /\
     (forall l1 m l2, ms = l1 ++ m :: l2 -> ~ In (tokenSymbol m) (map tokenSymbol l2) ->
        JsMapV.get (latestTokenScores st') (tokenSymbol m) =
        Some (scoreCalculator_calculate (clock (length l1)) m))).
Proof.
  split; [reflexivity|]. split; [reflexivity|].
  intros ms Hne st'. unfold st', processScoreCollection.
  destruct ms as [|m0 rest0] eqn:Hms; [contradiction|]. cbv beta iota. rewrite <- Hms.
  cbn [latestAggregatedMetrics latestTokenScores]. split; [reflexivity|]. split.
  - intros sym Hn. rewrite set_all_notin; [reflexivity|].
    intros Hin. unfold calculateBatch in Hin. apply batch_loop_keys in Hin.
    destruct Hin as [[]|Hin]. contradiction.
  - intros l1 m l2 Hsplit Hn. apply set_all_In.
    + unfold calculateBatch. apply batch_loop_NoDup. constructor.
    + apply get_In. unfold calculateBatch, scoreCalculator_calculate. rewrite Hsplit.
      rewrite (batch_loop_last _ _ _ 0 [] l1 m l2 Hn). reflexivity.
Qed.
End ScoreMoreFacts.

Module ScoreMoreWitnesses.

Import ScoreCalculator ScoreCalculatorMore SchedulerCollection MerkleBuilder ScoreSpec.
Open Scope R_scope.

Lemma calculateProtocolShareReduction_props_witness :
  calculateProtocolShareReduction 0 1000 = 1000 /\
  js_floor (1000 / 2) <= calculateProtocolShareReduction 10000 1000 <= 1000 /\
  calculateProtocolShareReduction 10000 1000 <= calculateProtocolShareReduction 2000 1000.
Proof.
  destruct ScoreMoreFacts.calculateProtocolShareReduction_props as (Hb & Hm & _ & H0).
  split; [apply (H0 1000%Z); lia|]. split; [apply Hb; lra|]. apply Hm; lra.
Defined.

Lemma calculatePairScore_props_witness :
  Rmin 8000 4000 <= calculatePairScore 8000 4000 <= Rmax 8000 4000.
Proof.
  destruct (ScoreMoreFacts.calculatePairScore_props 8000 4000) as (_ & _ & H).
  apply (H 8000%Z 4000%Z); reflexivity || lia.
Defined.

Lemma getScoreTier_monotone_witness :
  500 <= 6000 /\ (tier_rank (getScoreTier 500) <= tier_rank (getScoreTier 6000))%nat.
Proof.
  assert (H : 500 <= 6000) by lra.
  split; [exact H|]. apply (ScoreMoreFacts.getScoreTier_monotone 500 6000 H).
Defined.

Definition pepe_state : CollectorState :=
  {| latestTokenScores := [("PEPE"%string, 5)]; latestAggregatedMetrics := [] |}.

Lemma processScoreCollection_updates_witness :
  let st' := processScoreCollection (fun i => Z.of_nat i) (Ok [boundary_metrics; negative_metrics])
               pepe_state in
  JsMapV.get (latestTokenScores st') "PEPE" = Some 5 /\
  JsMapV.get (latestTokenScores st') "TEST" = Some (scoreCalculator_calculate 1 negative_metrics).
Proof.
  destruct (ScoreMoreFacts.processScoreCollection_updates (fun i => Z.of_nat i) pepe_state)
    as (_ & _ & H).
  assert (Hne : [boundary_metrics; negative_metrics] <> []) by discriminate.
  destruct (H _ Hne) as (_ & Hother & Hlast).
  split.
  - apply (Hother "PEPE"%string). simpl. intros [Hx|[Hx|[]]]; discriminate.
  - apply (Hlast [boundary_metrics] negative_metrics []); [reflexivity|]. simpl. tauto.
Defined.

End ScoreMoreWitnesses.

(* ------------------------------------------------------------------------- *)
(** ** Token rankings and viral pairs *)

Module EpochPairsFacts.

Import EpochPairs.
Open Scope Z_scope.

Lemma skipn_nth {A} (l : list A) d s :
  (s < length l)%nat -> skipn s l = nth s l d :: skipn (S s) l.
Proof.
  revert s. induction l as [|a l IH]; intros s Hs; simpl in Hs; [lia|].
  destruct s as [|s]; [reflexivity|]. simpl. apply IH. lia.
Qed.

Lemma fold_nth_seq {A B} (f : A -> B) (l : list A) d s n acc :
  (s + n <= length l)%nat ->
  fold_left (fun acc i => acc ++ [f (nth i l d)]) (seq s n) acc =
  acc ++ map f (firstn n (skipn s l)).
Proof.
  revert s acc. induction n as [|n IH]; intros s acc Hn; simpl.
  - rewrite app_nil_r. reflexivity.
  - rewrite IH by lia. rewrite (skipn_nth l d s) by lia. simpl.
    rewrite <- app_assoc. reflexivity.
Qed.

Lemma push_pairs_spec pairs r rank k :
  push_pairs pairs r rank k = pairs ++ rank_pairs r rank k.
Proof.
  unfold push_pairs, rank_pairs.
  assert (Hf : firstn k (tr_binSteps r) =
               firstn (Nat.min (length (tr_binSteps r)) k) (skipn 0 (tr_binSteps r))).
  { simpl skipn. destruct (Nat.le_ge_cases (length (tr_binSteps r)) k).
    - rewrite Nat.min_l by lia. rewrite !firstn_all2 by lia. reflexivity.
    - rewrite Nat.min_r by lia. reflexivity. }
  rewrite Hf.
  apply (fold_nth_seq (fun b => {| vp_tokenX := tr_tokenAddress r;
                                   vp_tokenY := tr_quoteTokenAddress r;
                                   vp_binStep := b; vp_rank := rank |}) (tr_binSteps r) 0 0).
  lia.
Qed.

Lemma length_rank_pairs r rank k : length (rank_pairs r rank k) = Nat.min k (length (tr_binSteps r)).
Proof. unfold rank_pairs. rewrite length_map, length_firstn. reflexivity. Qed.

Lemma rank_pairs_nil r rank k :
  (0 < k)%nat -> rank_pairs r rank k = [] <-> tr_binSteps r = [].
Proof.
  intros Hk. unfold rank_pairs. destruct (tr_binSteps r) as [|b bs]; destruct k; simpl;
    try lia; split; intros; (reflexivity || discriminate).
Qed.

Lemma buildViralPairs_eq (rankings : list TokenRanking) :
  buildViralPairs rankings = viral_pairs_spec rankings.
Proof.
  unfold buildViralPairs.
  destruct rankings as [|r1 [|r2 [|r3 rest]]]; cbn -[push_pairs rank_pairs];
    rewrite ?Nat.min_0_r; cbn -[push_pairs rank_pairs];
    rewrite ?push_pairs_spec, <- ?app_assoc; reflexivity.
Qed.

(** buildViralPairs: the pairs are those of the first three rankings in
    order, rank 1 with the first three binSteps of its ranking, rank 2
    with two, rank 3 with one (fewer when the ranking has fewer binSteps),
    each pair made of the ranking's token and quote token; so there are
    at most 6 pairs, and none exactly when none of the first three
    rankings has a binStep. *)
Theorem buildViralPairs_spec (rankings : list TokenRanking) :
  buildViralPairs rankings = viral_pairs_spec rankings /\
  (length (buildViralPairs rankings) <= 6)%nat /\
  (buildViralPairs rankings = [] <-> Forall (fun r => tr_binSteps r = []) (firstn 3 rankings)).
Proof.
  rewrite buildViralPairs_eq. split; [reflexivity|]. split.
  - destruct rankings as [|r1 [|r2 [|r3 rest]]]; simpl viral_pairs_spec;
      rewrite ?length_app, ?length_rank_pairs; cbn [length]; lia.
  - destruct rankings as [|r1 [|r2 [|r3 rest]]]; simpl viral_pairs_spec; simpl firstn.
    + split; constructor.
    + pose proof (rank_pairs_nil r1 1 3 ltac:(lia)) as E1. split.
      * intros H. constructor; [apply E1; exact H|constructor].
      * intros H. apply E1. exact (Forall_inv H).
    + pose proof (rank_pairs_nil r1 1 3 ltac:(lia)) as E1.
      pose proof (rank_pairs_nil r2 2 2 ltac:(lia)) as E2. split.
      * intros H. apply app_eq_nil in H. destruct H as [H1 H2].
        constructor; [apply E1; exact H1|]. constructor; [apply E2; exact H2|constructor].
      * intros H.
        rewrite (proj2 E1 (Forall_inv H)), (proj2 E2 (Forall_inv (Forall_inv_tail H))).
        reflexivity.
    + pose proof (rank_pairs_nil r1 1 3 ltac:(lia)) as E1.
      pose proof (rank_pairs_nil r2 2 2 ltac:(lia)) as E2.
      pose proof (rank_pairs_nil r3 3 1 ltac:(lia)) as E3. split.
      * intros H. apply app_eq_nil in H. destruct H as [H1 H].
        apply app_eq_nil in H. destruct H as [H2 H3].
        constructor; [apply E1; exact H1|]. constructor; [apply E2; exact H2|].
        constructor; [apply E3; exact H3|constructor].
      * intros H.
        rewrite (proj2 E1 (Forall_inv H)), (proj2 E2 (Forall_inv (Forall_inv_tail H))),
          (proj2 E3 (Forall_inv (Forall_inv_tail (Forall_inv_tail H)))).
        reflexivity.
Qed.

Lemma JsMap_get_In (m : JsMap.t) k v : JsMap.get m k = Some v -> In (k, v) m.
Proof.
  induction m as [|[k0 v0] rest IH]; simpl; [discriminate|].
  destruct (String.eqb_spec k0 k); [intros [= ->]; subst; auto|auto].
Qed.

Lemma positive_score_some o s : positive_score o = Some s -> o = Some s /\ 0 < s.
Proof.
  destruct o as [v|]; simpl; [|discriminate].
  destruct (Z.ltb_spec 0 v); [intros [= ->]; auto|discriminate].
Qed.

Lemma positive_score_pos s : 0 < s -> positive_score (Some s) = Some s.
Proof. intros H. simpl. apply Z.ltb_lt in H. rewrite H. reflexivity. Qed.

Lemma js_includes_empty s : js_includes s "" = true.
Proof. destruct s; reflexivity. Qed.

Lemma partialMatch_result up name l :
  match_score (partialMatch up name l) = 0 \/
  (0 < match_score (partialMatch up name l) /\
   exists k, In (k, match_score (partialMatch up name l)) l).
Proof.
  induction l as [|[k s] rest IH]; simpl; [auto|].
  destruct (Z.leb_spec s 0).
  - destruct IH as [IH|(Hp & k' & Hk)]; [auto|right; split; [exact Hp|exists k'; auto]].
  - destruct (_ || _ || _); simpl.
    + right. split; [lia|exists k; auto].
    + destruct IH as [IH|(Hp & k' & Hk)]; [auto|right; split; [exact Hp|exists k'; auto]].
Qed.

Lemma partialMatch_empty_name up l1 k s l2 :
  Forall (fun kv => snd kv <= 0) l1 -> 0 < s ->
  match_score (partialMatch up "" (l1 ++ (k, s) :: l2)) = s.
Proof.
  intros Hl1 Hs. induction Hl1 as [|[k0 s0] l1 H0 _ IH]; simpl in *.
  - destruct (Z.leb_spec s 0); [lia|]. rewrite js_includes_empty, !orb_true_r. reflexivity.
  - destruct (Z.leb_spec s0 0); [exact IH|lia].
Qed.

(** findTokenScore: the score found is 0 or a positive score stored in
    the map; a positive score under the upper-cased symbol is taken
    first, then a positive score under the upper-cased name; and a token
    whose name upper-cases to the empty string, with neither of these,
    gets the first positive score of the map, whatever its key (every
    string includes the empty string). *)
Theorem findTokenScore_spec (up : string -> string) (td : MemeTokenWithPools) (scoreMap : JsMap.t) :
  let r := match_score (findTokenScore up td scoreMap) in
  (r = 0 \/ (0 < r /\ exists k, In (k, r) scoreMap)) /\
  (forall s, JsMap.get scoreMap (up (mt_tokenSymbol td)) = Some s -> 0 < s -> r = s) /\
  (forall s, positive_score (JsMap.get scoreMap (up (mt_tokenSymbol td))) = None ->
     JsMap.get scoreMap (up (mt_tokenName td)) = Some s -> 0 < s -> r = s) /\
  (up (mt_tokenName td) = ""%string ->
   positive_score (JsMap.get scoreMap (up (mt_tokenSymbol td))) = None ->
   positive_score (JsMap.get scoreMap "") = None ->
   forall l1 k s l2, scoreMap = l1 ++ (k, s) :: l2 ->
     Forall (fun kv => snd kv <= 0) l1 -> 0 < s -> r = s).
Proof.
  intros r. unfold r, findTokenScore. split; [|split; [|split]].
  - destruct (positive_score (JsMap.get scoreMap (up (mt_tokenSymbol td)))) as [s|] eqn:E1.
    + apply positive_score_some in E1. destruct E1 as [E1 Hs].
      right. split; [exact Hs|]. eexists. apply JsMap_get_In. exact E1.
    + destruct (positive_score (JsMap.get scoreMap (up (mt_tokenName td)))) as [s|] eqn:E2.
      * apply positive_score_some in E2. destruct E2 as [E2 Hs].
        right. split; [exact Hs|]. eexists. apply JsMap_get_In. exact E2.
      * apply partialMatch_result.
  - intros s Hg Hs. rewrite Hg, (positive_score_pos s Hs). reflexivity.
  - intros s Hn Hg Hs. rewrite Hn, Hg, (positive_score_pos s Hs). reflexivity.
  - intros Hname Hn He l1 k s l2 Hm Hl1 Hs. rewrite Hn, Hname, He.
    unfold JsMap.entries. rewrite Hm. apply partialMatch_empty_name; assumption.
Qed.

Lemma insert_by_score_perm x l : Permutation (insert_by_score x l) (x :: l).
Proof.
  induction l as [|y ys IH]; simpl; [reflexivity|].
  destruct (tr_score y <? tr_score x); [reflexivity|].
  rewrite IH. apply perm_swap.
Qed.

Lemma sort_by_score_perm (l : list TokenRanking) : Permutation (sort_by_score l) l.
Proof.
  unfold sort_by_score.
  assert (H : forall acc, Permutation (fold_left (fun acc x => insert_by_score x acc) l acc)
                                      (acc ++ l)).
  { induction l as [|x l IH]; intros acc; simpl; [rewrite app_nil_r; reflexivity|].
    rewrite IH, insert_by_score_perm. apply Permutation_middle. }
  apply H.
Qed.

Lemma insert_by_score_sorted x l :
  Sorted (fun a b => tr_score b <= tr_score a) l ->
  Sorted (fun a b => tr_score b <= tr_score a) (insert_by_score x l).
Proof.
  induction 1 as [|y ys Hs IH Hhd]; simpl.
  - repeat constructor.
  - destruct (Z.ltb_spec (tr_score y) (tr_score x)).
    + constructor; [constructor; assumption|]. constructor. lia.
    + constructor; [exact IH|].
      destruct ys as [|z zs]; simpl; [constructor; lia|].
      inversion Hhd; subst. destruct (tr_score z <? tr_score x); constructor; lia.
Qed.

Lemma sort_by_score_sorted (l : list TokenRanking) :
  Sorted (fun a b => tr_score b <= tr_score a) (sort_by_score l).
Proof.
  unfold sort_by_score.
  assert (H : forall acc, Sorted (fun a b => tr_score b <= tr_score a) acc ->
            Sorted (fun a b => tr_score b <= tr_score a)
                   (fold_left (fun acc x => insert_by_score x acc) l acc)).
  { induction l as [|x l IH]; intros acc Hacc; simpl; [exact Hacc|].
    apply IH. apply insert_by_score_sorted. exact Hacc. }
  apply H. constructor.
Qed.

Lemma rankings_loop up (m : JsMap.t) toks acc :
  fold_left (fun rankings tokenData =>
      let score := match_score (findTokenScore up tokenData m) in
      if score <=? 0 then rankings else rankings ++ [ranking_of tokenData score]) toks acc =
  acc ++ flat_map (fun td => let s := match_score (findTokenScore up td m) in
                             if s <=? 0 then [] else [ranking_of td s]) toks.
Proof.
  revert acc. induction toks as [|td rest IH]; intros acc; simpl; [rewrite app_nil_r; reflexivity|].
  rewrite IH. destruct (_ <=? 0); simpl; [reflexivity|]. rewrite <- app_assoc. reflexivity.
Qed.

(** buildTokenRankings: a failed or empty GraphQL query gives no
    rankings; otherwise the rankings are exactly the pool tokens whose
    [findTokenScore] is positive (each with that score and its pools'
    binSteps), sorted by descending score. *)
Theorem buildTokenRankings_spec (up : string -> string) (m : JsMap.t) :
  (forall msg, buildTokenRankings up (MerkleBuilder.Throws msg) m = []) /\
  buildTokenRankings up (MerkleBuilder.Ok []) m = [] /\
  (forall tokens,
     let rankings := buildTokenRankings up (MerkleBuilder.Ok tokens) m in
     Permutation rankings
       (flat_map (fun td => let s := match_score (findTokenScore up td m) in
                            if s <=? 0 then [] else [ranking_of td s]) tokens) /\
     Sorted (fun a b => tr_score b <= tr_score a) rankings /\
     Forall (fun r => 0 < tr_score r) rankings).
Proof.
  split; [reflexivity|]. split; [reflexivity|].
  intros tokens rankings.
  assert (Hp : Permutation rankings
                 (flat_map (fun td => let s := match_score (findTokenScore up td m) in
                                      if s <=? 0 then [] else [ranking_of td s]) tokens) /\
               Sorted (fun a b => tr_score b <= tr_score a) rankings).
  { unfold rankings, buildTokenRankings. destruct tokens as [|t ts]; [split; constructor|].
    pose proof (rankings_loop up m (t :: ts) []) as E. rewrite app_nil_l in E.
    cbv zeta in E |- *. rewrite E. split.
    - apply sort_by_score_perm.
    - apply sort_by_score_sorted. }
  destruct Hp as [Hp Hs]. split; [exact Hp|]. split; [exact Hs|].
  apply Forall_forall. intros r Hr. apply (Permutation_in _ Hp) in Hr.
  apply in_flat_map in Hr. destruct Hr as (td & _ & Hr).
  cbv beta zeta in Hr.
  destruct (match_score (findTokenScore up td m) <=? 0) eqn:E; [destruct Hr|].
  destruct Hr as [<-|[]]. simpl. apply Z.leb_gt in E. exact E.
Qed.

Lemma buildTokenRankings_sorted_pos (up : string -> string) gql (m : JsMap.t) :
  Sorted (fun a b => tr_score b <= tr_score a) (buildTokenRankings up gql m) /\
  Forall (fun r => 0 < tr_score r) (buildTokenRankings up gql m).
Proof.
  unfold buildTokenRankings.
  destruct gql as [[|t ts]|msg]; [split; constructor| |split; constructor].
  pose proof (rankings_loop up m (t :: ts) []) as E. rewrite app_nil_l in E.
  cbv zeta in E |- *. rewrite E. split; [apply sort_by_score_sorted|].
  apply Forall_forall. intros r Hr. apply (Permutation_in _ (sort_by_score_perm _)) in Hr.
  apply in_flat_map in Hr. destruct Hr as (td & _ & Hr).
  destruct (match_score (findTokenScore up td m) <=? 0) eqn:Es; [destruct Hr|].
  destruct Hr as [<-|[]]. simpl. apply Z.leb_gt in Es. exact Es.
Qed.

Lemma nth_error_firstn_lt {A} (l : list A) n i :
  (i < n)%nat -> nth_error (firstn n l) i = nth_error l i.
Proof.
  revert n i. induction l as [|a l IH]; intros n i Hi; destruct n as [|n]; try lia;
    simpl; [destruct i; reflexivity|].
  destruct i as [|i]; [reflexivity|]. simpl. apply IH. lia.
Qed.

Lemma In_rank_pairs p r rank k :
  In p (rank_pairs r rank k) ->
  vp_rank p = rank /\ vp_tokenX p = tr_tokenAddress r /\
  vp_tokenY p = tr_quoteTokenAddress r /\ In (vp_binStep p) (firstn k (tr_binSteps r)).
Proof.
  unfold rank_pairs. intros Hp. apply in_map_iff in Hp. destruct Hp as (b & <- & Hb).
  simpl. auto.
Qed.

Lemma In_viral_pairs_spec p rs :
  In p (viral_pairs_spec rs) ->
  exists i r, (i < 3)%nat /\ nth_error rs i = Some r /\ vp_rank p = Z.of_nat (S i) /\
    vp_tokenX p = tr_tokenAddress r /\ vp_tokenY p = tr_quoteTokenAddress r /\
    In (vp_binStep p) (firstn (3 - i) (tr_binSteps r)).
Proof.
  destruct rs as [|r1 [|r2 [|r3 rest]]]; simpl viral_pairs_spec; [intros []| | |];
    intros Hp; repeat rewrite in_app_iff in Hp.
  - exists 0%nat, r1. apply In_rank_pairs in Hp. intuition lia.
  - destruct Hp as [Hp|Hp]; apply In_rank_pairs in Hp;
      [exists 0%nat, r1|exists 1%nat, r2]; intuition lia.
  - destruct Hp as [Hp|[Hp|Hp]]; apply In_rank_pairs in Hp;
      [exists 0%nat, r1|exists 1%nat, r2|exists 2%nat, r3]; intuition lia.
Qed.

Lemma StronglySorted_nth {A} (R : A -> A -> Prop) l i j a b :
  StronglySorted R l -> (i < j)%nat -> nth_error l i = Some a -> nth_error l j = Some b -> R a b.
Proof.
  intros Hs. revert i j. induction Hs as [|x l Hs IH Hx]; intros i j Hij Hi Hj;
    [destruct i; discriminate|].
  destruct i as [|i]; destruct j as [|j]; try lia; simpl in *.
  - injection Hi as <-. rewrite Forall_forall in Hx. apply Hx.
    eapply nth_error_In. exact Hj.
  - apply (IH i j); [lia|assumption|assumption].
Qed.

(** The epoch submission steps 5 to 7 (buildTokenRankings, then
    buildViralPairs on the first three rankings): every submitted pair
    of rank [i + 1] comes from the ranking at position [i < 3], made of
    its token and quote token and one of its first [3 - i] binSteps; that
    ranking has a positive score, no lower than the score of any ranking
    after it and no higher than any before it, so the pairs are those of
    the three best-scored matched tokens, in score order. *)
Theorem viral_pairs_from_top_rankings (up : string -> string) gql (m : JsMap.t) :
  let rankings := buildTokenRankings up gql m in
  forall p, In p (buildViralPairs (firstn 3 rankings)) ->
  exists i r, (i < 3)%nat /\ nth_error rankings i = Some r /\
    vp_rank p = Z.of_nat (S i) /\
    vp_tokenX p = tr_tokenAddress r /\ vp_tokenY p = tr_quoteTokenAddress r /\
    In (vp_binStep p) (firstn (3 - i) (tr_binSteps r)) /\
    0 < tr_score r /\
    (forall j r', (j < i)%nat -> nth_error rankings j = Some r' -> tr_score r <= tr_score r') /\
    (forall j r', (i < j)%nat -> nth_error rankings j = Some r' -> tr_score r' <= tr_score r).
Proof.
  intros rankings p Hp. rewrite buildViralPairs_eq in Hp.
  apply In_viral_pairs_spec in Hp.
  destruct Hp as (i & r & Hi & Hnth & Hrank & Hx & Hy & Hb).
  rewrite nth_error_firstn_lt in Hnth by exact Hi.
  destruct (buildTokenRankings_sorted_pos up gql m) as [Hs Hpos].
  fold rankings in Hs, Hpos.
  apply Sorted_StronglySorted in Hs; [|intros a b c Hab Hbc; lia].
  exists i, r. repeat split; try assumption.
  - rewrite Forall_forall in Hpos. apply Hpos. eapply nth_error_In. exact Hnth.
  - intros j r' Hj Hr'. exact (StronglySorted_nth _ _ j i r' r Hs Hj Hr' Hnth).
  - intros j r' Hj Hr'. exact (StronglySorted_nth _ _ i j r r' Hs Hj Hnth Hr').
Qed.
End EpochPairsFacts.

Module EpochPairsWitnesses.

Import EpochPairs.
Open Scope Z_scope.
Open Scope string_scope.

(** [toUpperCase] on ASCII strings. *)
Definition upper_ascii (c : Ascii.ascii) : Ascii.ascii :=
  let n := Ascii.nat_of_ascii c in
  if (97 <=? n)%nat && (n <=? 122)%nat then Ascii.ascii_of_nat (n - 32) else c.

Fixpoint ascii_upper (s : string) : string :=
  match s with
  | EmptyString => EmptyString
  | String c s' => String (upper_ascii c) (ascii_upper s')
  end.

Definition scores3 : JsMap.t := [("PEPE", 7000); ("DOGE", 3000); ("WIF", 5000)].

Definition mk_token (addr sym name : string) (pools : list Z) : MemeTokenWithPools :=
  {| mt_tokenAddress := addr; mt_quoteTokenAddress := "0xM"; mt_tokenSymbol := sym;
     mt_tokenName := name; mt_pools := pools |}.

(** A token with an empty name, and one without pools, among the pool
    tokens. *)
Definition tokens4 : list MemeTokenWithPools :=
  [mk_token "0xPEPE" "pepe" "Pepe" [25; 50; 100; 10];
   mk_token "0xWIF" "wif" "dogwifhat" [20; 40];
   mk_token "0xDOGE" "doge" "Doge" [80];
   mk_token "0xXYZ" "xyz" "" [15; 30]].

Lemma buildViralPairs_spec_witness :
  (length (buildViralPairs (buildTokenRankings ascii_upper (MerkleBuilder.Ok tokens4) scores3))
     <= 6)%nat /\
  buildViralPairs [] = [].
Proof.
  destruct (EpochPairsFacts.buildViralPairs_spec
              (buildTokenRankings ascii_upper (MerkleBuilder.Ok tokens4) scores3)) as (_ & Hl & _).
  destruct (EpochPairsFacts.buildViralPairs_spec []) as (_ & _ & He).
  split; [exact Hl|]. apply He. constructor.
Defined.

Lemma findTokenScore_spec_witness :
  match_score (findTokenScore ascii_upper (mk_token "0xXYZ" "xyz" "" [15; 30]) scores3) = 7000.
Proof.
  destruct (EpochPairsFacts.findTokenScore_spec ascii_upper (mk_token "0xXYZ" "xyz" "" [15; 30])
              scores3) as (_ & _ & _ & H).
  apply (H eq_refl eq_refl eq_refl [] "PEPE" 7000 [("DOGE", 3000); ("WIF", 5000)]);
    [reflexivity|constructor|lia].
Defined.

Lemma buildTokenRankings_spec_witness :
  Forall (fun r => 0 < tr_score r) (buildTokenRankings ascii_upper (MerkleBuilder.Ok tokens4) scores3).
Proof.
  destruct (EpochPairsFacts.buildTokenRankings_spec ascii_upper scores3) as (_ & _ & H).
  destruct (H tokens4) as (_ & _ & Hpos). exact Hpos.
Defined.

Lemma viral_pairs_from_top_rankings_witness :
  let rankings := buildTokenRankings ascii_upper (MerkleBuilder.Ok tokens4) scores3 in
  let p := {| vp_tokenX := "0xPEPE"; vp_tokenY := "0xM"; vp_binStep := 25; vp_rank := 1 |} in
  In p (buildViralPairs (firstn 3 rankings)) /\
  exists i r, nth_error rankings i = Some r /\ vp_rank p = Z.of_nat (S i) /\ 0 < tr_score r.
Proof.
  intros rankings p.
  assert (Hin : In p (buildViralPairs (firstn 3 rankings))) by (vm_compute; left; reflexivity).
  split; [exact Hin|].
  destruct (EpochPairsFacts.viral_pairs_from_top_rankings ascii_upper (MerkleBuilder.Ok tokens4)
              scores3 p Hin) as (i & r & _ & Hn & Hr & _ & _ & _ & Hs & _).
  exists i, r. auto.
Defined.

End EpochPairsWitnesses.

(* ------------------------------------------------------------------------- *)
(** ** Pair pool ids *)

Module PairPoolIdFacts.

Import PairPoolId.

Lemma list_byte_of_string_app (a b : string) :
  String.list_byte_of_string (a ++ b) = String.list_byte_of_string a ++ String.list_byte_of_string b.
Proof.
  unfold String.list_byte_of_string. rewrite <- map_app. f_equal.
  induction a as [|c a IH]; simpl; [reflexivity|]. rewrite IH. reflexivity.
Qed.

Section Order.

Variable Hex : Type.
Variable keccak256 : list Byte.byte -> Hex.
Variable toUpperCase : string -> string.
Variable js_lt : string -> string -> bool.
(** [<] on strings is a strict total order. *)
Hypothesis js_lt_asym : forall a b, js_lt a b = true -> js_lt b a = false.
Hypothesis js_lt_total : forall a b, a <> b -> js_lt a b = false -> js_lt b a = true.

(** generatePairPoolId: the pool id does not depend on the order of the
    two tokens; and since [encodePacked] concatenates the two strings
    with nothing between them, two token pairs get the same pool id,
    whatever the hash, as soon as their upper-cased symbols, once
    sorted, concatenate to the same string (for instance AB/C and
    A/BC). *)
Theorem generatePairPoolId_props :
  (forall x y, generatePairPoolId Hex keccak256 toUpperCase js_lt x y =
               generatePairPoolId Hex keccak256 toUpperCase js_lt y x) /\
  (forall x1 y1 x2 y2 a1 b1 a2 b2,
     sort2 js_lt (toUpperCase x1) (toUpperCase y1) = (a1, b1) ->
     sort2 js_lt (toUpperCase x2) (toUpperCase y2) = (a2, b2) ->
     (a1 ++ b1 = a2 ++ b2)%string ->
     generatePairPoolId Hex keccak256 toUpperCase js_lt x1 y1 =
     generatePairPoolId Hex keccak256 toUpperCase js_lt x2 y2).
Proof.
  split.
  - intros x y. unfold generatePairPoolId, sort2.
    destruct (string_dec (toUpperCase x) (toUpperCase y)) as [Heq|Hne];
      [rewrite Heq; reflexivity|].
    destruct (js_lt (toUpperCase y) (toUpperCase x)) eqn:E1.
    + rewrite (js_lt_asym _ _ E1). reflexivity.
    + rewrite (js_lt_total _ _ (not_eq_sym Hne) E1). reflexivity.
  - intros x1 y1 x2 y2 a1 b1 a2 b2 H1 H2 Hc. unfold generatePairPoolId.
    rewrite H1, H2. unfold encodePacked_string_string.
    rewrite <- !list_byte_of_string_app, Hc. reflexivity.
Qed.

End Order.

End PairPoolIdFacts.

Module PairPoolIdWitnesses.

Import PairPoolId.
Open Scope string_scope.

Lemma string_ltb_asym a b : String.ltb a b = true -> String.ltb b a = false.
Proof.
  unfold String.ltb. rewrite (String.compare_antisym b a).
  destruct (a ?= b)%string; simpl; congruence.
Qed.

Lemma string_ltb_total a b : a <> b -> String.ltb a b = false -> String.ltb b a = true.
Proof.
  unfold String.ltb. rewrite (String.compare_antisym b a). intros Hne.
  destruct (a ?= b)%string eqn:E; simpl; try congruence.
  apply String.compare_eq_iff in E. contradiction.
Qed.

Lemma generatePairPoolId_props_witness :
  let up := EpochPairsWitnesses.ascii_upper in
  let h := fun l : list Byte.byte => l in
  generatePairPoolId _ h up String.ltb "ab" "c" = generatePairPoolId _ h up String.ltb "a" "bc" /\
  generatePairPoolId _ h up String.ltb "eth" "usdc" = generatePairPoolId _ h up String.ltb "usdc" "eth".
Proof.
  intros up h.
  destruct (PairPoolIdFacts.generatePairPoolId_props (list Byte.byte) h up String.ltb
              string_ltb_asym string_ltb_total) as [Hsym Hpack].
  split; [|apply Hsym].
  apply (Hpack _ _ _ _ "AB" "C" "A" "BC"); reflexivity.
Defined.

End PairPoolIdWitnesses.

(* ------------------------------------------------------------------------- *)
(** ** Pair scores *)

Module ScorePairsFacts.

Import ScoreCalculator ScorePairs JsMapVFacts.
Open Scope R_scope.

Lemma calculatePairScore_comm (x y : R) :
  calculatePairScore x y = calculatePairScore y x.
Proof. unfold calculatePairScore. rewrite Rplus_comm. reflexivity. Qed.

Lemma fold_nested {A} (f : A -> nat -> nat -> A) (g : nat -> list nat) l acc :
  fold_left (fun a i => fold_left (fun a j => f a i j) (g i) a) l acc =
  fold_left (fun a ij => f a (fst ij) (snd ij))
    (flat_map (fun i => map (fun j => (i, j)) (g i)) l) acc.
Proof.
  revert acc. induction l as [|i l IH]; intros acc; simpl; [reflexivity|].
  rewrite fold_left_app, <- IH. f_equal.
  clear IH. revert acc. induction (g i) as [|j js IHj]; intros acc; simpl; auto.
Qed.

Lemma fold_set_map {V} (h : nat * nat -> string * V) l (acc : JsMapV.t V) :
  fold_left (fun a ij => JsMapV.set a (fst (h ij)) (snd (h ij))) l acc =
  JsMapV.set_all acc (map h l).
Proof.
  unfold JsMapV.set_all. revert acc.
  induction l as [|ij l IH]; intros acc; simpl; auto.
Qed.

Lemma calculateAllPairScores_eq js_lt (m : JsMapV.t R) :
  calculateAllPairScores js_lt m =
  JsMapV.set_all [] (map (fun ij => pairEntry js_lt (map fst m) m (fst ij) (snd ij))
                         (index_pairs (length (map fst m)))).
Proof.
  unfold calculateAllPairScores, index_pairs. cbv zeta.
  rewrite (fold_nested
    (fun a i j => JsMapV.set a (fst (pairEntry js_lt (map fst m) m i j))
                               (snd (pairEntry js_lt (map fst m) m i j)))
    (fun i => seq (S i) (length (map fst m) - S i))).
  apply (fold_set_map (fun ij => pairEntry js_lt (map fst m) m (fst ij) (snd ij))).
Qed.

Lemma In_index_pairs n i j : In (i, j) (index_pairs n) <-> (i < j < n)%nat.
Proof.
  unfold index_pairs. rewrite in_flat_map. split.
  - intros (i' & Hi' & Hm). apply in_map_iff in Hm. destruct Hm as (j' & [= <- <-] & Hj).
    apply in_seq in Hi', Hj. lia.
  - intros H. exists i. split; [apply in_seq; lia|].
    apply in_map_iff. exists j. split; [reflexivity|]. apply in_seq. lia.
Qed.

Lemma NoDup_index_pairs n : NoDup (index_pairs n).
Proof.
  unfold index_pairs. generalize (seq_NoDup n 0).
  induction (seq 0 n) as [|i l IH]; intros Hnd; simpl; [constructor|].
  apply NoDup_cons_iff in Hnd. destruct Hnd as [Hi Hnd].
  apply NoDup_app; [| apply IH, Hnd |].
  - apply NoDup_map_NoDup_ForallPairs; [|apply seq_NoDup].
    intros a b _ _ [= ->]. reflexivity.
  - intros [x y] Hx Hy. apply in_map_iff in Hx. destruct Hx as (j & [= -> ->] & _).
    apply in_flat_map in Hy. destruct Hy as (i' & Hi' & Hy).
    apply in_map_iff in Hy. destruct Hy as (j' & [= -> ->] & _). contradiction.
Qed.

Lemma length_index_pairs n : (2 * length (index_pairs n) = n * (n - 1))%nat.
Proof.
  unfold index_pairs.
  assert (H : forall c s, (s + c = n)%nat ->
            (2 * length (flat_map (fun i => map (fun j => (i, j)) (seq (S i) (n - S i)))
                                  (seq s c)) = c * (c - 1))%nat).
  { induction c as [|c IH]; intros s Hs; simpl; [reflexivity|].
    rewrite length_app, length_map, length_seq.
    specialize (IH (S s) ltac:(lia)).
    replace (n - S s)%nat with c by lia. destruct c; simpl in *; nia. }
  apply H. lia.
Qed.

Lemma set_fresh {V} (m : JsMapV.t V) k v :
  ~ In k (map fst m) -> JsMapV.set m k v = m ++ [(k, v)].
Proof.
  induction m as [|[k0 v0] rest IH]; simpl; intros Hn; [reflexivity|].
  destruct (String.eqb_spec k0 k); [exfalso; auto|].
  rewrite IH by tauto. reflexivity.
Qed.

Lemma set_all_fresh {V} (l m : JsMapV.t V) :
  NoDup (map fst (m ++ l)) -> JsMapV.set_all m l = m ++ l.
Proof.
  unfold JsMapV.set_all. revert m.
  induction l as [|[k v] l IH]; intros m Hnd; simpl; [rewrite app_nil_r; reflexivity|].
  rewrite set_fresh.
  - rewrite IH; [rewrite <- app_assoc; reflexivity|]. rewrite <- app_assoc. exact Hnd.
  - rewrite map_app in Hnd. simpl in Hnd. apply NoDup_remove_2 in Hnd.
    intros Hk. apply Hnd, in_or_app. auto.
Qed.

Lemma set_In_inv {V} (m : JsMapV.t V) k v k' v' :
  In (k', v') (JsMapV.set m k v) -> (k', v') = (k, v) \/ In (k', v') m.
Proof.
  induction m as [|[k0 v0] rest IH]; simpl; [intuition|].
  destruct (String.eqb_spec k0 k); simpl.
  - subst. intros [[= <- <-]|H]; auto.
  - intros [H|H]; auto. apply IH in H. tauto.
Qed.

Lemma set_all_In_inv {V} (l m : JsMapV.t V) k v :
  In (k, v) (JsMapV.set_all m l) -> In (k, v) m \/ In (k, v) l.
Proof.
  unfold JsMapV.set_all. revert m.
  induction l as [|[k0 v0] l IH]; intros m H; simpl in *; [auto|].
  apply IH in H. destruct H as [H|H]; [|auto].
  apply set_In_inv in H. destruct H as [[= -> ->]|H]; auto.
Qed.

Lemma get_key {V} (m : JsMapV.t V) x :
  In x (map fst m) -> exists v, JsMapV.get m x = Some v.
Proof.
  induction m as [|[k0 v0] rest IH]; simpl; [intros []|].
  destruct (String.eqb_spec k0 x); [eauto|]. intros [->|H]; [congruence|auto].
Qed.

Lemma nth_key_neq (m : JsMapV.t R) i j :
  NoDup (map fst m) -> (i < j < length m)%nat ->
  nth i (map fst m) ""%string <> nth j (map fst m) ""%string.
Proof.
  intros Hnd Hij Heq. apply (proj1 (NoDup_nth _ ""%string) Hnd) in Heq;
    rewrite ?length_map; lia.
Qed.

Lemma nth_key_In (m : JsMapV.t R) i :
  (i < length m)%nat -> In (nth i (map fst m) ""%string) (map fst m).
Proof. intros H. apply nth_In. rewrite length_map. exact H. Qed.

Lemma pairEntry_props js_lt (m : JsMapV.t R) i j k e :
  NoDup (map fst m) -> (i < j < length m)%nat ->
  pairEntry js_lt (map fst m) m i j = (k, e) ->
  (pe_tokenX e, pe_tokenY e) =
    PairPoolId.sort2 js_lt (nth i (map fst m) ""%string) (nth j (map fst m) ""%string) /\
  k = (pe_tokenX e ++ "/" ++ pe_tokenY e)%string /\
  JsMapV.get m (pe_tokenX e) = Some (pe_tokenXScore e) /\
  JsMapV.get m (pe_tokenY e) = Some (pe_tokenYScore e) /\
  pe_pairScore e = calculatePairScore (pe_tokenXScore e) (pe_tokenYScore e).
Proof.
  intros Hnd Hij Hpe.
  pose proof (nth_key_neq m i j Hnd Hij) as Hne.
  destruct (get_key m (nth i (map fst m) ""%string)) as [vx Hx]; [apply nth_key_In; lia|].
  destruct (get_key m (nth j (map fst m) ""%string)) as [vy Hy]; [apply nth_key_In; lia|].
  unfold pairEntry, PairPoolId.sort2, score_or_0 in *.
  revert Hpe Hne Hx Hy.
  generalize (nth i (map fst m) ""%string) (nth j (map fst m) ""%string).
  intros x y Hpe Hne Hx Hy. rewrite Hx, Hy in Hpe.
  destruct (js_lt y x); injection Hpe as <- <-; cbn.
  - rewrite (proj2 (String.eqb_neq y x)) by congruence.
    rewrite (proj2 (String.eqb_neq x y)) by congruence.
    repeat split; auto. apply calculatePairScore_comm.
  - rewrite !String.eqb_refl. repeat split; auto.
Qed.

Lemma slash_inj a a' b b' :
  no_slash a -> no_slash a' ->
  (a ++ "/" ++ b = a' ++ "/" ++ b')%string -> a = a' /\ b = b'.
Proof.
  unfold no_slash. revert a'.
  induction a as [|c a IH]; intros [|c' a'] Ha Ha' H; simpl in *.
  - injection H as ->. auto.
  - injection H as Hc _. exfalso. apply Ha'. left. congruence.
  - injection H as Hc _. exfalso. apply Ha. left. congruence.
  - injection H as -> H. destruct (IH a') as [-> ->]; auto.
Qed.

Lemma sort2_cases js_lt x y :
  PairPoolId.sort2 js_lt x y = (x, y) \/ PairPoolId.sort2 js_lt x y = (y, x).
Proof. unfold PairPoolId.sort2. destruct (js_lt y x); auto. Qed.

End ScorePairsFacts.

Module ScorePairsProps.

Import ScoreCalculator ScorePairs JsMapVFacts ScorePairsFacts.
Open Scope R_scope.

Lemma key_idx (m : JsMapV.t R) a b :
  NoDup (map fst m) -> (a < length m)%nat -> (b < length m)%nat ->
  nth a (map fst m) ""%string = nth b (map fst m) ""%string -> a = b.
Proof.
  intros Hnd Ha Hb H. apply (proj1 (NoDup_nth _ ""%string) Hnd) in H;
    rewrite ?length_map; lia.
Qed.

(** calculateAllPairScores: every entry comes from two keys [tokens[i]],
    [tokens[j]] with [i < j] of the score map: its tokens are the two keys
    in sorted order, its key is ["tokenX/tokenY"], its [tokenXScore] and
    [tokenYScore] are the map's scores of its [tokenX] and [tokenY], and
    its [pairScore] is [calculatePairScore] of the two. *)
Theorem calculateAllPairScores_entries js_lt (m : JsMapV.t R) :
  NoDup (map fst m) ->
  forall k e, In (k, e) (calculateAllPairScores js_lt m) ->
  exists i j, (i < j < length m)%nat /\
    (pe_tokenX e, pe_tokenY e) =
      PairPoolId.sort2 js_lt (nth i (map fst m) ""%string) (nth j (map fst m) ""%string) /\
    k = (pe_tokenX e ++ "/" ++ pe_tokenY e)%string /\
    JsMapV.get m (pe_tokenX e) = Some (pe_tokenXScore e) /\
    JsMapV.get m (pe_tokenY e) = Some (pe_tokenYScore e) /\
    pe_pairScore e = calculatePairScore (pe_tokenXScore e) (pe_tokenYScore e).
Proof.
  intros Hnd k e H. rewrite calculateAllPairScores_eq in H.
  apply set_all_In_inv in H. destruct H as [[]|H].
  apply in_map_iff in H. destruct H as ([i j] & Hpe & Hin).
  apply In_index_pairs in Hin. rewrite length_map in Hin. simpl in Hpe.
  exists i, j. split; [lia|]. apply pairEntry_props; auto.
Qed.

(** calculateAllPairScores: when no symbol contains ["/"], the result has
    one entry per unordered pair of symbols, [n (n - 1) / 2] for [n]
    symbols, each under the key ["sortedX/sortedY"] of its pair. *)
Theorem calculateAllPairScores_complete js_lt (m : JsMapV.t R) :
  NoDup (map fst m) -> Forall no_slash (map fst m) ->
  (2 * length (calculateAllPairScores js_lt m) = length m * (length m - 1))%nat /\
  (forall i j, (i < j < length m)%nat ->
   let '(sortedX, sortedY) :=
     PairPoolId.sort2 js_lt (nth i (map fst m) ""%string) (nth j (map fst m) ""%string) in
   exists e, JsMapV.get (calculateAllPairScores js_lt m) (sortedX ++ "/" ++ sortedY)%string
               = Some e /\ pe_tokenX e = sortedX /\ pe_tokenY e = sortedY).
Proof.
  intros Hnd Hns.
  assert (Hsl : forall a, (a < length m)%nat -> no_slash (nth a (map fst m) ""%string)).
  { intros a Ha. apply (proj1 (Forall_forall _ _) Hns). apply nth_key_In. exact Ha. }
  rewrite calculateAllPairScores_eq. set (L := map _ _).
  assert (HndL : NoDup (map fst L)).
  { unfold L. rewrite map_map. apply NoDup_map_NoDup_ForallPairs; [|apply NoDup_index_pairs].
    intros [i j] [i' j'] Hin Hin' Heq.
    apply In_index_pairs in Hin, Hin'. rewrite length_map in Hin, Hin'. simpl in Heq.
    destruct (pairEntry js_lt (map fst m) m i j) as [k e] eqn:E1.
    destruct (pairEntry js_lt (map fst m) m i' j') as [k' e'] eqn:E2. simpl in Heq.
    apply pairEntry_props in E1 as (Hs1 & Hk1 & _); [|exact Hnd|lia].
    apply pairEntry_props in E2 as (Hs2 & Hk2 & _); [|exact Hnd|lia].
    subst k k'.
    destruct (sort2_cases js_lt (nth i (map fst m) ""%string) (nth j (map fst m) ""%string))
      as [C1|C1];
    destruct (sort2_cases js_lt (nth i' (map fst m) ""%string) (nth j' (map fst m) ""%string))
      as [C2|C2];
    rewrite C1 in Hs1; rewrite C2 in Hs2;
    injection Hs1 as Ea Eb; injection Hs2 as Ea' Eb';
    rewrite Ea, Eb, Ea', Eb' in Heq;
    (apply slash_inj in Heq; [|apply Hsl; lia|apply Hsl; lia]);
    destruct Heq as [H1 H2];
    (eapply key_idx in H1; [|exact Hnd|lia|lia]);
    (eapply key_idx in H2; [|exact Hnd|lia|lia]);
    subst; first [reflexivity | lia]. }
  assert (HL : JsMapV.set_all [] L = L) by (apply set_all_fresh; exact HndL).
  split.
  - rewrite HL. unfold L. rewrite length_map, length_index_pairs, length_map. reflexivity.
  - intros i j Hij.
    destruct (pairEntry js_lt (map fst m) m i j) as [k e] eqn:E.
    pose proof (pairEntry_props js_lt m i j k e Hnd Hij E) as (Hs & Hk & _).
    rewrite <- Hs. exists e. split; [|auto].
    rewrite <- Hk. apply set_all_In; [exact HndL|].
    unfold L. apply in_map_iff. exists (i, j). split; [exact E|].
    apply In_index_pairs. rewrite length_map. lia.
Qed.

(** getPairScore: the result is [null] exactly when one of the two
    upper-cased symbols has no score; otherwise it holds the two scores of
    the map and their [calculatePairScore], and swapping the tokens swaps
    the two token scores and keeps the pair score. *)
Theorem getPairScore_props (m : JsMapV.t R) up x y :
  (getPairScore m up x y = None <->
     JsMapV.get m (up x) = None \/ JsMapV.get m (up y) = None) /\
  (forall p a b, getPairScore m up x y = Some (p, a, b) ->
     JsMapV.get m (up x) = Some a /\ JsMapV.get m (up y) = Some b /\
     p = calculatePairScore a b /\ getPairScore m up y x = Some (p, b, a)).
Proof.
  unfold getPairScore.
  destruct (JsMapV.get m (up x)) as [a|]; destruct (JsMapV.get m (up y)) as [b|];
    (split; [split; [intros H; (discriminate || auto) | intros [H|H]; (discriminate || reflexivity)] |
             intros p a' b' H; try discriminate]).
  injection H as <- <- <-. rewrite calculatePairScore_comm. auto.
Qed.

End ScorePairsProps.

Module ScorePairsWitnesses.

Import ScoreCalculator ScorePairs.
Open Scope R_scope.

Definition scoresR : JsMapV.t R := [("PEPE"%string, 7000); ("DOGE"%string, 3000); ("WIF"%string, 5000)].

Lemma scoresR_NoDup : NoDup (map fst scoresR).
Proof.
  unfold scoresR. simpl.
  repeat apply NoDup_cons; try apply NoDup_nil; simpl; intros H;
    intuition discriminate.
Qed.

Lemma scoresR_no_slash : Forall no_slash (map fst scoresR).
Proof.
  unfold scoresR. simpl.
  repeat apply Forall_cons; try apply Forall_nil; unfold no_slash; simpl; intros H;
    intuition discriminate.
Qed.

Lemma calculateAllPairScores_entries_witness :
  NoDup (map fst scoresR) /\
  In ("DOGE/PEPE"%string,
      {| pe_tokenX := "DOGE"; pe_tokenY := "PEPE"; pe_pairScore := calculatePairScore 7000 3000;
         pe_tokenXScore := 3000; pe_tokenYScore := 7000 |})
     (calculateAllPairScores String.ltb scoresR) /\
  exists i j, (i < j < length scoresR)%nat /\
    ("DOGE"%string, "PEPE"%string) =
      PairPoolId.sort2 String.ltb (nth i (map fst scoresR) ""%string)
                                  (nth j (map fst scoresR) ""%string) /\
    pe_pairScore {| pe_tokenX := "DOGE"; pe_tokenY := "PEPE";
                    pe_pairScore := calculatePairScore 7000 3000;
                    pe_tokenXScore := 3000; pe_tokenYScore := 7000 |}
    = calculatePairScore 3000 7000.
Proof.
  assert (Hin : In ("DOGE/PEPE"%string,
      {| pe_tokenX := "DOGE"; pe_tokenY := "PEPE"; pe_pairScore := calculatePairScore 7000 3000;
         pe_tokenXScore := 3000; pe_tokenYScore := 7000 |})
     (calculateAllPairScores String.ltb scoresR)).
  { unfold calculateAllPairScores, pairEntry, score_or_0. cbn -[calculatePairScore IZR].
    left. reflexivity. }
  split; [exact scoresR_NoDup|]. split; [exact Hin|].
  destruct (ScorePairsProps.calculateAllPairScores_entries String.ltb scoresR scoresR_NoDup _ _ Hin)
    as (i & j & Hij & Hs & _ & _ & _ & Hp).
  exists i, j. split; [exact Hij|]. split; [exact Hs|exact Hp].
Defined.

Lemma calculateAllPairScores_complete_witness :
  NoDup (map fst scoresR) /\ Forall no_slash (map fst scoresR) /\
  (2 * length (calculateAllPairScores String.ltb scoresR) = 3 * 2)%nat.
Proof.
  split; [exact scoresR_NoDup|]. split; [exact scoresR_no_slash|].
  exact (proj1 (ScorePairsProps.calculateAllPairScores_complete String.ltb scoresR
                  scoresR_NoDup scoresR_no_slash)).
Defined.

Lemma getPairScore_props_witness :
  getPairScore scoresR EpochPairsWitnesses.ascii_upper "pepe" "doge"
    = Some (calculatePairScore 7000 3000, 7000, 3000) /\
  getPairScore scoresR EpochPairsWitnesses.ascii_upper "doge" "pepe"
    = Some (calculatePairScore 7000 3000, 3000, 7000).
Proof.
  assert (H : getPairScore scoresR EpochPairsWitnesses.ascii_upper "pepe" "doge"
                = Some (calculatePairScore 7000 3000, 7000, 3000)) by reflexivity.
  split; [exact H|].
  exact (proj2 (proj2 (proj2 (proj2 (ScorePairsProps.getPairScore_props scoresR
           EpochPairsWitnesses.ascii_upper "pepe" "doge") _ _ _ H)))).
Defined.

End ScorePairsWitnesses.

(* ------------------------------------------------------------------------- *)
(** ** The backfill guard *)

Module BackfillFacts.

Import SignerConfig Backfill.

Definition guard_inv (cfg : Config) : Prop :=
  (cfg_pending cfg = [] /\ backfillInProgress (cfg_flags cfg) = false) \/
  (cfg_pending cfg = [AwaitBackfill] /\ backfillInProgress (cfg_flags cfg) = true) \/
  (cfg_pending cfg = [AwaitCollection] /\ backfillInProgress (cfg_flags cfg) = true).

Lemma guard_inv_start : guard_inv start.
Proof. left. split; reflexivity. Qed.

Lemma guard_inv_step cfg a : guard_inv cfg -> guard_inv (step cfg a).
Proof.
  destruct cfg as [[f pending] results].
  unfold guard_inv, cfg_pending, cfg_flags. simpl.
  intros Hinv. destruct a as [|i ok]; simpl.
  - unfold triggerBackfill, performInitialBackfill_start.
    destruct (backfillCompleted f) eqn:Ec; simpl; [rewrite app_nil_r; exact Hinv|].
    destruct (backfillInProgress f) eqn:Ei; simpl; [rewrite app_nil_r, Ei; exact Hinv|].
    destruct Hinv as [[-> _]|[[-> H]|[-> H]]]; try congruence.
    right. left. split; reflexivity.
  - destruct Hinv as [[-> Hi]|[[-> Hi]|[-> Hi]]].
    + rewrite nth_error_nil. simpl. left. auto.
    + destruct i as [|i]; simpl.
      * destruct ok; simpl; [right; right|left]; auto.
      * rewrite nth_error_nil. simpl. right. left. auto.
    + destruct i as [|i]; simpl.
      * left. auto.
      * rewrite nth_error_nil. simpl. right. right. auto.
Qed.

Lemma guard_inv_run schedule cfg : guard_inv cfg -> guard_inv (run schedule cfg).
Proof.
  unfold run. revert cfg.
  induction schedule as [|a rest IH]; intros cfg H; simpl; auto using guard_inv_step.
Qed.

Lemma run_app s1 s2 cfg : run (s1 ++ s2) cfg = run s2 (run s1 cfg).
Proof. unfold run. apply fold_left_app. Qed.

Definition skipped (r : TriggerResult) : Prop := trigger_status r = "skipped"%string.

Lemma step_after_completed cfg a :
  backfillCompleted (cfg_flags cfg) = true ->
  backfillCompleted (cfg_flags (step cfg a)) = true /\
  exists rest, cfg_results (step cfg a) = (cfg_results cfg ++ rest)%list /\ Forall skipped rest.
Proof.
  destruct cfg as [[f pending] results]. unfold cfg_flags, cfg_results. simpl.
  intros Hc. destruct a as [|i ok]; simpl.
  - unfold triggerBackfill. rewrite Hc. simpl. split; [exact Hc|].
    exists [{| trigger_status := "skipped"%string;
              trigger_message := "Backfill already completed"%string |}].
    split; [reflexivity|]. constructor; [reflexivity|constructor].
  - destruct (nth_error pending i) as [p|]; simpl.
    + destruct p; [destruct ok|]; simpl; (split; [auto|exists []; rewrite app_nil_r; auto]).
    + split; [exact Hc|]. exists []. rewrite app_nil_r. auto.
Qed.

Lemma run_after_completed schedule cfg :
  backfillCompleted (cfg_flags cfg) = true ->
  backfillCompleted (cfg_flags (run schedule cfg)) = true /\
  exists rest, cfg_results (run schedule cfg) = (cfg_results cfg ++ rest)%list /\ Forall skipped rest.
Proof.
  unfold run. revert cfg.
  induction schedule as [|a s IH]; intros cfg Hc; simpl.
  - split; [exact Hc|]. exists []. rewrite app_nil_r. auto.
  - destruct (step_after_completed cfg a Hc) as [Hc' (r1 & E1 & F1)].
    destruct (IH (step cfg a) Hc') as [Hc'' (r2 & E2 & F2)].
    split; [exact Hc''|]. exists (r1 ++ r2)%list. split.
    + rewrite E2, E1, app_assoc. reflexivity.
    + apply Forall_app. auto.
Qed.

End BackfillFacts.

Module BackfillProps.

Import SignerConfig Backfill BackfillFacts.

(** triggerBackfill / performInitialBackfill: whatever the order in which
    calls to [triggerBackfill] and the resumptions of the suspended
    backfills happen, starting from the module's initial flags at most one
    [performInitialBackfill] is in flight at any time, and
    [backfillInProgress] is true exactly while one is. *)
Theorem backfill_at_most_one_in_flight (schedule : list Action) :
  (length (cfg_pending (run schedule start)) <= 1)%nat /\
  (backfillInProgress (cfg_flags (run schedule start)) = true <->
   cfg_pending (run schedule start) <> []).
Proof.
  destruct (guard_inv_run schedule start guard_inv_start) as [[E H]|[[E H]|[E H]]];
    rewrite E, H; simpl; (split; [lia|split; [congruence|]]); intros Hn;
    [exfalso; apply Hn; reflexivity|reflexivity|reflexivity].
Qed.

(** triggerBackfill: once a backfill has completed, [backfillCompleted]
    stays true and every later call to [triggerBackfill] returns
    [status: 'skipped'], so no second backfill is ever started. *)
Theorem backfill_never_restarts (s1 s2 : list Action) :
  backfillCompleted (cfg_flags (run s1 start)) = true ->
  backfillCompleted (cfg_flags (run (s1 ++ s2) start)) = true /\
  exists rest, cfg_results (run (s1 ++ s2) start) = (cfg_results (run s1 start) ++ rest)%list /\
    Forall (fun r => trigger_status r = "skipped"%string) rest.
Proof.
  intros Hc. rewrite run_app. exact (run_after_completed s2 (run s1 start) Hc).
Qed.

End BackfillProps.

Module BackfillWitnesses.

Import SignerConfig Backfill.

Lemma backfill_never_restarts_witness :
  backfillCompleted (cfg_flags (run [Trigger; Resume 0 true] start)) = true /\
  exists rest,
    cfg_results (run ([Trigger; Resume 0 true] ++ [Trigger; Resume 0 true; Trigger]) start)
      = (cfg_results (run [Trigger; Resume 0 true] start) ++ rest)%list /\
    Forall (fun r => trigger_status r = "skipped"%string) rest.
Proof.
  assert (H : backfillCompleted (cfg_flags (run [Trigger; Resume 0 true] start)) = true)
    by reflexivity.
  split; [exact H|].
  exact (proj2 (BackfillProps.backfill_never_restarts _ [Trigger; Resume 0 true; Trigger] H)).
Defined.

End BackfillWitnesses.


(* ------------------------------------------------------------------------- *)
(** ** Proof queries on checkpoints *)

Module MerkleQueryFacts.

Import MerkleBuilder.

Section Queries.

Context {digest : Type} `{MerkleHash digest}.

Lemma latestCheckpoint_In (st : Store digest) cp :
  latestCheckpoint st = Some cp -> In cp st.
Proof.
  induction st as [|c rest IH]; simpl; [discriminate|].
  destruct (latestCheckpoint rest) as [c'|].
  - destruct (Z.ltb (cp_epoch c) (cp_epoch c')); intros [= <-]; auto.
  - intros [= <-]. auto.
Qed.

Lemma latestCheckpoint_nil : latestCheckpoint (@nil (Checkpoint digest)) = None.
Proof. reflexivity. Qed.

(** getProofFromCheckpoint: with no checkpoint stored every query returns
    [null]; an [epoch] of 0 is falsy and selects the latest checkpoint, as
    no [epoch] does; an epoch no checkpoint has gives [null]; and a proof
    returned is for the requested pool, carries the epoch of a stored
    checkpoint (the requested one when an epoch other than 0 is given) and
    the score of a leaf of that pool in it. *)
Theorem getProofFromCheckpoint_queries (store : Store digest) (poolId : Z) :
  (store = [] -> forall q, getProofFromCheckpoint store poolId q = None) /\
  getProofFromCheckpoint store poolId (Some 0%Z) = getProofFromCheckpoint store poolId None /\
  (forall e, e <> 0%Z -> (forall cp, In cp store -> cp_epoch cp <> e) ->
     getProofFromCheckpoint store poolId (Some e) = None) /\
  (forall q prf, getProofFromCheckpoint store poolId q = Some prf ->
     mp_poolId prf = poolId /\
     exists cp, In cp store /\ mp_epoch prf = cp_epoch cp /\
       (exists e, In (poolId, mp_score prf, e) (cp_leaves cp)) /\
       (forall e, q = Some e -> e <> 0%Z -> cp_epoch cp = e)).
Proof.
  split; [|split; [|split]].
  - intros -> q. unfold getProofFromCheckpoint.
    destruct q as [e|]; [destruct (Z.eqb e 0)|]; reflexivity.
  - reflexivity.
  - intros e He Hn. unfold getProofFromCheckpoint.
    rewrite (proj2 (Z.eqb_neq e 0) He).
    destruct (find (fun cp => Z.eqb (cp_epoch cp) e) store) as [cp|] eqn:Hf; [|reflexivity].
    apply find_some in Hf. destruct Hf as [Hin Heq]. apply Z.eqb_eq in Heq.
    exfalso. exact (Hn cp Hin Heq).
  - intros q prf. unfold getProofFromCheckpoint.
    set (sel := match q with
                | Some e => if Z.eqb e 0 then latestCheckpoint store
                            else find (fun cp => Z.eqb (cp_epoch cp) e) store
                | None => latestCheckpoint store
                end).
    assert (Hsel : forall cp, sel = Some cp ->
              In cp store /\ (forall e, q = Some e -> e <> 0%Z -> cp_epoch cp = e)).
    { intros cp Hcp. unfold sel in Hcp. destruct q as [e|].
      - destruct (Z.eqb_spec e 0) as [He|He].
        + split; [apply latestCheckpoint_In; exact Hcp|]. intros e' [= <-]. contradiction.
        + apply find_some in Hcp. destruct Hcp as [Hin Heq]. apply Z.eqb_eq in Heq.
          split; [exact Hin|]. intros e' [= <-] _. exact Heq.
      - split; [apply latestCheckpoint_In; exact Hcp|]. discriminate. }
    destruct sel as [cp|]; [|discriminate].
    destruct (Hsel cp eq_refl) as [Hin Hq].
    destruct (StandardMerkleTree_of (cp_leaves cp)) as [tree|] eqn:Ht; [|discriminate].
    destruct (find_leaf poolId 0 (map fst (smt_values tree))) as [[index leaf]|] eqn:Hl;
      [|discriminate].
    destruct (smt_getProof tree index) as [proof|]; [|discriminate].
    destruct leaf as [[p score] e'] eqn:Hleaf. intros [= <-]. simpl.
    apply MerkleTreeFacts.find_leaf_spec in Hl. destruct Hl as (_ & Hnth & Hp).
    simpl in Hp. subst p.
    rewrite (MerkleTreeFacts.StandardMerkleTree_of_values _ _ Ht) in Hnth.
    split; [reflexivity|]. exists cp. split; [exact Hin|]. split; [reflexivity|].
    split; [exists e'; apply nth_error_In in Hnth; exact Hnth|exact Hq].
Qed.

End Queries.

End MerkleQueryFacts.

Module MerkleQueryWitnesses.

Import MerkleBuilder MerkleSymbolic.

Lemma getProofFromCheckpoint_queries_witness :
  exists (st' : Store sdigest) r,
    buildTree [] ws1 = Ok (st', r) /\
    getProofFromCheckpoint st' 11%Z (Some 5%Z) = None /\
    (forall prf, getProofFromCheckpoint st' 22%Z None = Some prf ->
       mp_poolId prf = 22%Z /\
       exists cp, In cp st' /\ mp_epoch prf = cp_epoch cp /\
         (exists e, In (22%Z, mp_score prf, e) (cp_leaves cp)) /\
         (forall e, None = Some e -> e <> 0%Z -> cp_epoch cp = e)).
Proof.
  destruct (buildTree [] ws1) as [[st' r]|msg] eqn:Hb; [|vm_compute in Hb; discriminate].
  destruct (MerkleQueryFacts.getProofFromCheckpoint_queries st' 11%Z) as (_ & _ & H3 & _).
  destruct (MerkleQueryFacts.getProofFromCheckpoint_queries st' 22%Z) as (_ & _ & _ & H4).
  exists st', r. split; [reflexivity|]. split.
  - apply H3; [discriminate|]. intros cp Hcp.
    vm_compute in Hb. injection Hb as <- _. destruct Hcp as [<-|[]]. discriminate.
  - intros prf Hp. exact (H4 None prf Hp).
Defined.

End MerkleQueryWitnesses.

(* ------------------------------------------------------------------------- *)
(** ** The signed message hash *)

Module MessageHashFacts.

Import MessageHash.
Open Scope Z_scope.

Lemma length_be_bytes n x : length (be_bytes n x) = n.
Proof.
  revert x. induction n as [|n IH]; intros x; simpl; [reflexivity|].
  rewrite length_app, IH. simpl. lia.
Qed.

Lemma be_bytes_range n x : Forall (fun b => 0 <= b < 256) (be_bytes n x).
Proof.
  revert x. induction n as [|n IH]; intros x; simpl; [constructor|].
  apply Forall_app. split; [apply IH|]. constructor; [|constructor].
  apply Z.mod_pos_bound. lia.
Qed.

Lemma from_be_snoc l b : from_be (l ++ [b]) = from_be l * 256 + b.
Proof. unfold from_be. rewrite fold_left_app. reflexivity. Qed.

Lemma from_be_bytes n x : 0 <= x < 256 ^ Z.of_nat n -> from_be (be_bytes n x) = x.
Proof.
  revert x. induction n as [|n IH]; intros x Hx; simpl.
  - simpl in Hx. unfold from_be. simpl. lia.
  - rewrite from_be_snoc, IH.
    + pose proof (Z.div_mod x 256 ltac:(lia)). lia.
    + rewrite Nat2Z.inj_succ, Z.pow_succ_r in Hx by lia.
      split; [apply Z.div_pos; lia|]. apply Z.div_lt_upper_bound; lia.
Qed.

Lemma pow_256_32 : 2 ^ 256 = 256 ^ Z.of_nat 32.
Proof. reflexivity. Qed.

Lemma fits256_spec x : fits256 x = true <-> 0 <= x < 2 ^ 256.
Proof.
  unfold fits256. rewrite andb_true_iff, Z.leb_le, Z.ltb_lt. reflexivity.
Qed.

Lemma from_be_32 x : fits256 x = true -> from_be (be_bytes 32 x) = x.
Proof. intros H. apply fits256_spec in H. apply from_be_bytes. rewrite <- pow_256_32. exact H. Qed.

Lemma firstn_app_32 (a b : list Z) : length a = 32%nat -> firstn 32 (a ++ b) = a.
Proof. intros H. rewrite <- H. rewrite firstn_app, Nat.sub_diag, firstn_all. simpl. apply app_nil_r. Qed.

Lemma skipn_app_32 (a b : list Z) : length a = 32%nat -> skipn 32 (a ++ b) = b.
Proof. intros H. rewrite <- H. rewrite skipn_app, Nat.sub_diag, skipn_all. reflexivity. Qed.

End MessageHashFacts.

Module MessageHashProps.

Import MessageHash MessageHashFacts.
Open Scope Z_scope.

(** Packing of the signed message in [ScoreSigner.createMessageHash]: when
    poolId, score, timestamp and nonce all lie in [0, 2^256), the hashed
    bytes are 128 bytes, four 32-byte big-endian fields from which each of
    the four values is read back, so two different tuples never give the
    same bytes; when one of them lies outside that range, encoding throws. *)
Theorem createMessageHash_packing {Hex : Type} (keccak256 : list Z -> Hex)
    (poolId score timestamp nonce : Z) :
  (fits256 poolId && fits256 score && fits256 timestamp && fits256 nonce = true ->
   exists bytes,
     encodePacked_message poolId score timestamp nonce = Some bytes /\
     createMessageHash keccak256 poolId score timestamp nonce = Some (keccak256 bytes) /\
     length bytes = 128%nat /\ Forall (fun b => 0 <= b < 256) bytes /\
     from_be (firstn 32 bytes) = poolId /\
     from_be (firstn 32 (skipn 32 bytes)) = score /\
     from_be (firstn 32 (skipn 64 bytes)) = timestamp /\
     from_be (skipn 96 bytes) = nonce) /\
  (fits256 poolId && fits256 score && fits256 timestamp && fits256 nonce = false ->
   createMessageHash keccak256 poolId score timestamp nonce = None) /\
  (forall poolId' score' timestamp' nonce' bytes,
   encodePacked_message poolId score timestamp nonce = Some bytes ->
   encodePacked_message poolId' score' timestamp' nonce' = Some bytes ->
   poolId' = poolId /\ score' = score /\ timestamp' = timestamp /\ nonce' = nonce).
Proof.
  assert (Hread : forall p s t n,
    fits256 p && fits256 s && fits256 t && fits256 n = true ->
    let bytes := be_bytes 32 p ++ be_bytes 32 s ++ be_bytes 32 t ++ be_bytes 32 n in
    from_be (firstn 32 bytes) = p /\
    from_be (firstn 32 (skipn 32 bytes)) = s /\
    from_be (firstn 32 (skipn 64 bytes)) = t /\
    from_be (skipn 96 bytes) = n).
  { intros p s t n H bytes. subst bytes.
    apply andb_true_iff in H as [H Hn]. apply andb_true_iff in H as [H Ht].
    apply andb_true_iff in H as [Hp Hs].
    pose proof (length_be_bytes 32 p) as Lp. pose proof (length_be_bytes 32 s) as Ls.
    pose proof (length_be_bytes 32 t) as Lt.
    rewrite firstn_app_32 by exact Lp.
    replace 64%nat with (32 + 32)%nat by reflexivity.
    replace 96%nat with (32 + 32 + 32)%nat by reflexivity.
    rewrite <- !skipn_skipn.
    rewrite !skipn_app_32 by assumption.
    rewrite !firstn_app_32 by assumption.
    repeat split; apply from_be_32; assumption. }
  split; [|split].
  - intros H. eexists. unfold createMessageHash, encodePacked_message. rewrite H.
    split; [reflexivity|]. split; [reflexivity|]. split.
    + rewrite !length_app, !length_be_bytes. reflexivity.
    + split; [repeat (apply Forall_app; split; [apply be_bytes_range|]); apply be_bytes_range|].
      apply (Hread _ _ _ _ H).
  - intros H. unfold createMessageHash, encodePacked_message. rewrite H. reflexivity.
  - intros p' s' t' n' bytes E E'.
    unfold encodePacked_message in E, E'.
    destruct (fits256 poolId && fits256 score && fits256 timestamp && fits256 nonce) eqn:H;
      [|discriminate].
    destruct (fits256 p' && fits256 s' && fits256 t' && fits256 n') eqn:H'; [|discriminate].
    pose proof (Hread _ _ _ _ H) as R. pose proof (Hread _ _ _ _ H') as R'.
    cbv zeta in R, R'.
    assert (Eb : be_bytes 32 p' ++ be_bytes 32 s' ++ be_bytes 32 t' ++ be_bytes 32 n' =
                 be_bytes 32 poolId ++ be_bytes 32 score ++ be_bytes 32 timestamp ++
                 be_bytes 32 nonce) by congruence.
    rewrite Eb in R'.
    destruct R as (R1 & R2 & R3 & R4). destruct R' as (R1' & R2' & R3' & R4').
    repeat split; congruence.
Qed.

End MessageHashProps.

Module MessageHashWitnesses.

Import MessageHash.
Open Scope Z_scope.

Lemma createMessageHash_packing_witness :
  (exists bytes, encodePacked_message 7 5000 1700000000 1 = Some bytes /\
     from_be (skipn 96 bytes) = 1) /\
  createMessageHash (fun b => b) (-1) 5000 1700000000 1 = None /\
  (encodePacked_message 7 5000 1700000000 1 <> encodePacked_message 7 5000 1700000000 2).
Proof.
  destruct (MessageHashProps.createMessageHash_packing (fun b : list Z => b) 7 5000 1700000000 1)
    as (Hin & _ & Hinj).
  destruct (Hin ltac:(reflexivity)) as (bytes & E & _ & _ & _ & _ & _ & _ & Hn).
  split; [exists bytes; split; assumption|]. split.
  - apply (MessageHashProps.createMessageHash_packing (fun b : list Z => b) (-1) 5000 1700000000 1).
    reflexivity.
  - rewrite E. intros E2.
    destruct (Hinj 7 5000 1700000000 2 bytes E (eq_sym E2)) as (_ & _ & _ & Hc).
    discriminate.
Defined.

End MessageHashWitnesses.

(* ------------------------------------------------------------------------- *)
(** ** Token listing endpoints *)

Module ScoreRoutesFacts.

Import ScoreCalculator ScoreRoutes.
Open Scope R_scope.

Section Sort.

Context {A : Type} (key : A -> R).

Definition desc (a b : A) : Prop := key b <= key a.

Lemma insert_key_desc_perm x l : Permutation (insert_key_desc key x l) (x :: l).
Proof.
  induction l as [|y l IH]; simpl; [reflexivity|].
  destruct (Rlt_dec (key y) (key x)); [reflexivity|].
  rewrite IH. apply perm_swap.
Qed.

Lemma sort_key_desc_perm_aux l acc :
  Permutation (fold_left (fun acc x => insert_key_desc key x acc) l acc) (l ++ acc).
Proof.
  revert acc. induction l as [|x l IH]; intros acc; simpl; [reflexivity|].
  rewrite IH, insert_key_desc_perm. symmetry. apply Permutation_middle.
Qed.

Lemma sort_key_desc_perm l : Permutation (sort_key_desc key l) l.
Proof. unfold sort_key_desc. rewrite sort_key_desc_perm_aux, app_nil_r. reflexivity. Qed.

Lemma insert_key_desc_hd y x l :
  desc y x -> HdRel desc y l -> HdRel desc y (insert_key_desc key x l).
Proof.
  intros Hyx Hl. destruct l as [|z l]; simpl.
  - constructor. exact Hyx.
  - destruct (Rlt_dec (key z) (key x)); constructor; [exact Hyx|].
    inversion Hl; assumption.
Qed.

Lemma insert_key_desc_sorted x l : Sorted desc l -> Sorted desc (insert_key_desc key x l).
Proof.
  induction l as [|y l IH]; intros Hs; simpl.
  - repeat constructor.
  - destruct (Rlt_dec (key y) (key x)) as [Hlt|Hge].
    + constructor; [exact Hs|]. constructor. unfold desc. lra.
    + inversion Hs as [|? ? Hs' Hhd]; subst.
      constructor; [apply IH, Hs'|].
      apply insert_key_desc_hd; [unfold desc; lra|exact Hhd].
Qed.

Lemma sort_key_desc_sorted l : Sorted desc (sort_key_desc key l).
Proof.
  unfold sort_key_desc.
  assert (G : forall acc, Sorted desc acc ->
            Sorted desc (fold_left (fun acc x => insert_key_desc key x acc) l acc)).
  { induction l as [|x l IH]; intros acc Hs; simpl; [exact Hs|].
    apply IH, insert_key_desc_sorted, Hs. }
  apply G. constructor.
Qed.

Lemma desc_trans : RelationClasses.Transitive desc.
Proof. intros a b c H1 H2. unfold desc in *. lra. Qed.

Lemma strongly_sorted_app (a b : list A) :
  StronglySorted desc (a ++ b) -> forall x y, In x a -> In y b -> desc x y.
Proof.
  induction a as [|z a IH]; simpl; intros Hs x y Hx Hy; [contradiction|].
  inversion Hs as [|? ? Hs' Hall]; subst.
  destruct Hx as [<-|Hx].
  - rewrite Forall_forall in Hall. apply Hall, in_or_app. right. exact Hy.
  - apply IH; assumption.
Qed.

Lemma sorted_firstn_skipn k (l : list A) :
  Sorted desc l -> forall x y, In x (skipn k l) -> In y (firstn k l) -> key x <= key y.
Proof.
  intros Hs x y Hx Hy.
  apply Sorted_StronglySorted in Hs; [|exact desc_trans].
  rewrite <- (firstn_skipn k l) in Hs.
  exact (strongly_sorted_app _ _ Hs y x Hy Hx).
Qed.

End Sort.

Lemma with_rank_fst_aux {A} (l : list A) s :
  map fst (combine (seq s (length l)) l) = seq s (length l).
Proof. revert s. induction l as [|x l IH]; intros s; simpl; [reflexivity|]. rewrite IH. reflexivity. Qed.

Lemma with_rank_snd_aux {A} (l : list A) s : map snd (combine (seq s (length l)) l) = l.
Proof. revert s. induction l as [|x l IH]; intros s; simpl; [reflexivity|]. rewrite IH. reflexivity. Qed.

Lemma with_rank_fst {A} (l : list A) : map fst (with_rank l) = seq 1 (length l).
Proof. apply with_rank_fst_aux. Qed.

Lemma with_rank_snd {A} (l : list A) : map snd (with_rank l) = l.
Proof. apply with_rank_snd_aux. Qed.

Lemma with_rank_length {A} (l : list A) : length (with_rank l) = length l.
Proof. rewrite <- (with_rank_snd l) at 2. rewrite length_map. reflexivity. Qed.

Lemma slice_end_le len e : (slice_end len e <= len)%nat.
Proof.
  destruct e as [e|]; simpl; [|lia].
  destruct (Z.ltb_spec e 0); lia.
Qed.

Lemma length_firstn_slice {A} (l : list A) e :
  length (firstn (slice_end (length l) e) l) = slice_end (length l) e.
Proof. rewrite length_firstn. pose proof (slice_end_le (length l) e). lia. Qed.

End ScoreRoutesFacts.

Module ScoreRoutesProps.

Import ScoreCalculator ScoreRoutes ScoreRoutesFacts.
Open Scope R_scope.

(** GET /api/score/tokens/leaderboard: the ranks are 1, 2, ... in order and
    the pulse scores never increase down the list; every row is a
    non-blacklisted token of [tokenScores] with its own info and pulse score
    [Math.round(score / 100)]; the rows are the first ones of a full
    ordering of the non-blacklisted tokens, every token left out having a
    pulse score no higher than any listed one.  With [n] non-blacklisted
    tokens, a [NaN] limit gives no row, a limit [l >= 0] gives
    [min(l, 100, n)] rows, and a negative limit [l] gives [n - |l|] rows
    (none when that is negative). *)
Theorem leaderboard_props (isBlacklisted : string -> bool) {Info : Type}
    (info : string -> Info) (tokenScores : JsMapV.t R) (limit : option Z) :
  let out := leaderboard isBlacklisted Info info tokenScores limit in
  let n := length (filter (not_blacklisted isBlacklisted) tokenScores) in
  map fst out = seq 1 (length out) /\
  Sorted (fun a b => pulse Info b <= pulse Info a) (map snd out) /\
  (forall r sym i p, In (r, (sym, i, p)) out ->
     isBlacklisted sym = false /\ i = info sym /\
     exists score, In (sym, score) tokenScores /\ p = js_round (score / 100)) /\
  (exists rest,
     Permutation (map snd out ++ rest)
       (map (leaderboard_item Info info) (filter (not_blacklisted isBlacklisted) tokenScores)) /\
     forall x y, In x rest -> In y (map snd out) -> pulse Info x <= pulse Info y) /\
  (limit = None -> out = []) /\
  (forall l, limit = Some l -> (0 <= l)%Z ->
     length out = Nat.min (Z.to_nat (Z.min l 100)) n) /\
  (forall l, limit = Some l -> (l < 0)%Z -> length out = (n - Z.to_nat (- l))%nat).
Proof.
  intros out n.
  set (items := map (leaderboard_item Info info) (filter (not_blacklisted isBlacklisted) tokenScores)).
  set (sorted := sort_key_desc (pulse Info) items).
  set (k := slice_end (length sorted) (option_map (fun l => Z.min l 100) limit)).
  assert (Eout : out = with_rank (firstn k sorted)) by reflexivity.
  assert (Hsnd : map snd out = firstn k sorted) by (rewrite Eout; apply with_rank_snd).
  assert (Hlen : length out = k).
  { rewrite Eout, with_rank_length. apply length_firstn_slice. }
  assert (Hn : length sorted = n).
  { unfold sorted. rewrite (Permutation_length (sort_key_desc_perm _ items)).
    unfold items. rewrite length_map. reflexivity. }
  assert (Hperm : Permutation sorted items) by apply sort_key_desc_perm.
  assert (Hsorted : Sorted (desc (pulse Info)) sorted) by apply sort_key_desc_sorted.
  split; [|split; [|split; [|split; [|split; [|split]]]]].
  - rewrite Eout, with_rank_fst, with_rank_length. reflexivity.
  - rewrite Hsnd. unfold sorted.
    rewrite <- (firstn_skipn k sorted) in Hsorted.
    apply Sorted_StronglySorted in Hsorted; [|apply desc_trans].
    apply StronglySorted_Sorted.
    assert (G : forall a b : list (string * Info * R),
               StronglySorted (desc (pulse Info)) (a ++ b) ->
               StronglySorted (desc (pulse Info)) a).
    { induction a as [|x a IH]; simpl; intros b H; [constructor|].
      inversion H as [|? ? Hs Hall]; subst. constructor; [exact (IH b Hs)|].
      apply Forall_forall. intros y Hy. rewrite Forall_forall in Hall.
      apply Hall, in_or_app. left. exact Hy. }
    exact (G _ _ Hsorted).
  - intros r sym i p Hin.
    assert (Hs : In (sym, i, p) (map snd out)) by (apply in_map_iff; exists (r, (sym, i, p)); auto).
    rewrite Hsnd in Hs.
    assert (Hs2 : In (sym, i, p) sorted)
      by (rewrite <- (firstn_skipn k sorted); apply in_or_app; left; exact Hs).
    clear Hs. rename Hs2 into Hs.
    apply (Permutation_in _ Hperm) in Hs. unfold items in Hs.
    apply in_map_iff in Hs as [[sym' score] [Heq Hf]].
    apply filter_In in Hf as [Hin' Hnb].
    unfold leaderboard_item in Heq. simpl in Heq. injection Heq as <- <- <-.
    unfold not_blacklisted in Hnb. simpl in Hnb. apply negb_true_iff in Hnb.
    split; [exact Hnb|]. split; [reflexivity|]. exists score. split; [exact Hin'|reflexivity].
  - exists (skipn k sorted). split.
    + rewrite Hsnd, firstn_skipn. exact Hperm.
    + intros x y Hx Hy. rewrite Hsnd in Hy.
      exact (sorted_firstn_skipn (pulse Info) k sorted Hsorted x y Hx Hy).
  - intros ->. rewrite Eout. unfold k. simpl. reflexivity.
  - intros l -> Hl. rewrite Hlen. unfold k. rewrite Hn. simpl.
    destruct (Z.ltb_spec (Z.min l 100) 0); [lia|]. lia.
  - intros l -> Hl. rewrite Hlen. unfold k. rewrite Hn. simpl.
    destruct (Z.ltb_spec (Z.min l 100) 0); [|lia]. lia.
Qed.

(** GET /api/score/tokens: the rows are exactly the non-blacklisted tokens
    of [tokenScores], each once, with its own score and the tier
    [getScoreTier] gives that score, ordered by decreasing score. *)
Theorem tokens_props (isBlacklisted : string -> bool) (tokenScores : JsMapV.t R) :
  Permutation (tokens isBlacklisted tokenScores)
    (map (fun kv => (fst kv, snd kv, getScoreTier (snd kv)))
       (filter (not_blacklisted isBlacklisted) tokenScores)) /\
  Sorted (fun a b => snd (fst b) <= snd (fst a)) (tokens isBlacklisted tokenScores) /\
  length (tokens isBlacklisted tokenScores) =
    length (filter (fun kv => negb (isBlacklisted (fst kv))) tokenScores) /\
  (forall sym score tier, In (sym, score, tier) (tokens isBlacklisted tokenScores) ->
     isBlacklisted sym = false /\ In (sym, score) tokenScores /\ tier = getScoreTier score).
Proof.
  assert (Hp := sort_key_desc_perm (fun it : string * R * string => snd (fst it))
                  (map (fun kv => (fst kv, snd kv, getScoreTier (snd kv)))
                     (filter (not_blacklisted isBlacklisted) tokenScores))).
  split; [exact Hp|]. split; [apply sort_key_desc_sorted|]. split.
  - unfold tokens. rewrite (Permutation_length Hp), length_map. reflexivity.
  - intros sym score tier Hin. apply (Permutation_in _ Hp) in Hin.
    apply in_map_iff in Hin as [[sym' score'] [Heq Hf]].
    apply filter_In in Hf as [Hin' Hnb]. simpl in Heq. injection Heq as <- <- <-.
    unfold not_blacklisted in Hnb. simpl in Hnb. apply negb_true_iff in Hnb. auto.
Qed.

End ScoreRoutesProps.

Module ScoreRoutesWitnesses.

Import ScoreRoutes.
Open Scope R_scope.

Definition board_scores : JsMapV.t R :=
  [("PEPE"%string, 7000); ("DOGE"%string, 3000); ("WIF"%string, 5000)].

(** With [limit=-1] the leaderboard drops the last of its three rows. *)
Lemma leaderboard_props_witness :
  length (leaderboard (fun _ => false) unit (fun _ => tt) board_scores (Some (-1)%Z)) = 2%nat.
Proof.
  destruct (ScoreRoutesProps.leaderboard_props (fun _ => false) (fun _ => tt) board_scores (Some (-1)%Z))
    as (_ & _ & _ & _ & _ & _ & Hneg).
  rewrite (Hneg (-1)%Z eq_refl ltac:(lia)). reflexivity.
Defined.

End ScoreRoutesWitnesses.

(* ------------------------------------------------------------------------- *)
(** ** Metrics aggregation from stored posts *)

Module MemexAggregateFacts.

Import ScoreCalculator MemexAggregate JsMapVFacts.
Open Scope R_scope.

Section JsSet.

Context {A : Type} (eqb : A -> A -> bool) (eqb_spec : forall x y, reflect (x = y) (eqb x y)).

Definition set_add_gen (s : list A) (x : A) : list A :=
  if existsb (eqb x) s then s else s ++ [x].

Lemma existsb_eqb_In x s : existsb (eqb x) s = true <-> In x s.
Proof.
  rewrite existsb_exists. split.
  - intros [y [Hy E]]. destruct (eqb_spec x y); [subst; exact Hy|discriminate].
  - intros H. exists x. split; [exact H|]. destruct (eqb_spec x x); [reflexivity|congruence].
Qed.

Lemma set_add_gen_fold l s :
  NoDup s ->
  NoDup (fold_left set_add_gen l s) /\
  (forall x, In x (fold_left set_add_gen l s) <-> In x s \/ In x l).
Proof.
  revert s. induction l as [|y l IH]; intros s Hs; simpl.
  - split; [exact Hs|]. intros x. tauto.
  - assert (Hs' : NoDup (set_add_gen s y) /\
                  forall x, In x (set_add_gen s y) <-> In x s \/ x = y).
    { unfold set_add_gen. destruct (existsb (eqb y) s) eqn:E.
      - apply existsb_eqb_In in E. split; [exact Hs|].
        intros x. split; [tauto|]. intros [H| ->]; assumption.
      - split.
        + apply NoDup_app; [exact Hs|repeat constructor; auto|].
          intros x Hx [Hxe|[]]. subst x. apply (proj2 (existsb_eqb_In y s)) in Hx. congruence.
        + intros x. rewrite in_app_iff. simpl. intuition. }
    destruct Hs' as [Hnd Hin]. destruct (IH _ Hnd) as [Hnd' Hin'].
    split; [exact Hnd'|]. intros x. rewrite Hin', Hin. intuition.
Qed.

End JsSet.

Lemma js_set_spec l : NoDup (js_set l) /\ forall x, In x (js_set l) <-> In x l.
Proof.
  destruct (set_add_gen_fold String.eqb String.eqb_spec l [] (NoDup_nil _)) as [H1 H2].
  split; [exact H1|]. intros x. unfold js_set.
  change (In x (fold_left (set_add_gen String.eqb) l []) <-> In x l).
  rewrite H2. simpl. tauto.
Qed.

Lemma set_add_num_fold (l s : list Z) :
  NoDup s ->
  NoDup (fold_left set_add_num l s) /\
  (forall x, In x (fold_left set_add_num l s) <-> In x s \/ In x l).
Proof. exact (set_add_gen_fold Z.eqb Z.eqb_spec l s). Qed.

Lemma post_tokens_spec up p :
  NoDup (post_tokens up p) /\
  forall t, In t (post_tokens up p) <->
    In t (parsed up (mentionedTokens p) ++ parsed up (extractedTickers p) ++
          parsed up (extractedHashtags p)).
Proof. apply js_set_spec. Qed.

End MemexAggregateFacts.

Module MemexAggregateFolds.

Import ScoreCalculator MemexAggregate JsMapVFacts MemexAggregateFacts.
Open Scope R_scope.

Definition dflt (t : string) (o : option TokenMetrics) : TokenMetrics :=
  match o with Some e => e | None => empty_metrics t end.

Definition dflt_users (o : option (list Z)) : list Z := match o with Some s => s | None => [] end.

(** The posts of [dbPosts] that mention [t]. *)
Definition mine (up : string -> string) (t : string) (ps : list DbPost) : list DbPost :=
  filter (fun p => existsb (String.eqb t) (post_tokens up p)) ps.

Lemma existsb_str_In t l : existsb (String.eqb t) l = true <-> In t l.
Proof. exact (existsb_eqb_In String.eqb String.eqb_spec t l). Qed.

Lemma add_tokens_get p l (acc : AggState) t :
  NoDup l ->
  JsMapV.get (fst (fold_left (add_token p) l acc)) t =
    (if existsb (String.eqb t) l then Some (add_post p (dflt t (JsMapV.get (fst acc) t)))
     else JsMapV.get (fst acc) t) /\
  JsMapV.get (snd (fold_left (add_token p) l acc)) t =
    (if existsb (String.eqb t) l
     then Some (set_add_num (dflt_users (JsMapV.get (snd acc) t)) (userId p))
     else JsMapV.get (snd acc) t).
Proof.
  revert acc. induction l as [|k l IH]; intros [metrics users] Hnd; [simpl; auto|].
  inversion Hnd as [|? ? Hk Hnd']; subst.
  destruct (IH (add_token p (metrics, users) k) Hnd') as [E1 E2].
  cbn [fold_left existsb]. rewrite E1, E2. unfold add_token. cbn [fst snd].
  destruct (String.eqb_spec t k) as [->|Hne].
  - assert (Hk' : existsb (String.eqb k) l = false).
    { destruct (existsb (String.eqb k) l) eqn:E; [|reflexivity].
      apply existsb_str_In in E. contradiction. }
    rewrite Hk', !getV_set_same. simpl. split; reflexivity.
  - rewrite !get_set_other by congruence. split; reflexivity.
Qed.

Lemma add_db_post_get up (acc : AggState) p t :
  JsMapV.get (fst (add_db_post up acc p)) t =
    (if existsb (String.eqb t) (post_tokens up p)
     then Some (add_post p (dflt t (JsMapV.get (fst acc) t))) else JsMapV.get (fst acc) t) /\
  JsMapV.get (snd (add_db_post up acc p)) t =
    (if existsb (String.eqb t) (post_tokens up p)
     then Some (set_add_num (dflt_users (JsMapV.get (snd acc) t)) (userId p))
     else JsMapV.get (snd acc) t).
Proof. apply add_tokens_get, post_tokens_spec. Qed.

Lemma fold_posts_get up ps (acc : AggState) t :
  JsMapV.get (fst (fold_left (add_db_post up) ps acc)) t =
    match mine up t ps with
    | [] => JsMapV.get (fst acc) t
    | l => Some (fold_left (fun m p => add_post p m) l (dflt t (JsMapV.get (fst acc) t)))
    end /\
  JsMapV.get (snd (fold_left (add_db_post up) ps acc)) t =
    match mine up t ps with
    | [] => JsMapV.get (snd acc) t
    | l => Some (fold_left set_add_num (map userId l) (dflt_users (JsMapV.get (snd acc) t)))
    end.
Proof.
  revert acc. induction ps as [|p ps IH]; intros acc; simpl; [auto|].
  destruct (IH (add_db_post up acc p)) as [E1 E2].
  destruct (add_db_post_get up acc p t) as [F1 F2].
  rewrite E1, E2, F1, F2. unfold mine at 1 3. simpl. fold (mine up t ps).
  destruct (existsb (String.eqb t) (post_tokens up p)); simpl.
  - destruct (mine up t ps); split; reflexivity.
  - split; reflexivity.
Qed.

Lemma fold_posts_keys up ps (acc : AggState) :
  NoDup (map fst (fst acc)) -> NoDup (map fst (fst (fold_left (add_db_post up) ps acc))).
Proof.
  revert acc. induction ps as [|p ps IH]; intros acc Hnd; simpl; [exact Hnd|].
  apply IH. unfold add_db_post.
  generalize (post_tokens up p). intros l. revert acc Hnd.
  induction l as [|k l IHl]; intros [metrics users] Hnd; simpl; [exact Hnd|].
  apply IHl. simpl. apply NoDup_keys_set, Hnd.
Qed.

Lemma mine_nil_iff up t ps : mine up t ps = [] <-> ~ exists p, In p ps /\ In t (post_tokens up p).
Proof.
  unfold mine. split.
  - intros H [p [Hp Ht]].
    assert (Hin : In p (filter (fun p => existsb (String.eqb t) (post_tokens up p)) ps))
      by (apply filter_In; split; [exact Hp|apply existsb_str_In, Ht]).
    rewrite H in Hin. exact Hin.
  - intros H. destruct (filter _ ps) as [|q l] eqn:E; [reflexivity|].
    exfalso. apply H. assert (Hq : In q (q :: l)) by (left; reflexivity).
    rewrite <- E in Hq. apply filter_In in Hq as [Hq Ht].
    exists q. split; [exact Hq|apply existsb_str_In, Ht].
Qed.

End MemexAggregateFolds.

Module MemexAggregateRows.

Import ScoreCalculator MemexAggregate JsMapVFacts MemexAggregateFacts MemexAggregateFolds.
Open Scope R_scope.

Definition fold_posts (l : list DbPost) (m : TokenMetrics) : TokenMetrics :=
  fold_left (fun m p => add_post p m) l m.

Lemma fold_posts_symbol l m : tm_tokenSymbol (fold_posts l m) = tm_tokenSymbol m.
Proof. unfold fold_posts. revert m. induction l as [|p l IH]; intros m; simpl; [|rewrite IH]; reflexivity. Qed.

Lemma fold_posts_count l m : tm_posts (fold_posts l m) = tm_posts m + INR (length l).
Proof.
  unfold fold_posts. revert m. induction l as [|p l IH]; intros m; cbn [fold_left length].
  - rewrite Rplus_0_r. reflexivity.
  - rewrite IH, S_INR. simpl. lra.
Qed.

Lemma fold_posts_sum (fm : TokenMetrics -> R) (fp : DbPost -> R)
    (H : forall p m, fm (add_post p m) = fm m + fp p) l m :
  fm (fold_posts l m) = fm m + fold_right Rplus 0 (map fp l).
Proof.
  unfold fold_posts. revert m. induction l as [|p l IH]; intros m; cbn [fold_left fold_right map].
  - lra.
  - rewrite IH, H. lra.
Qed.

Lemma fold_posts_counter (fm : TokenMetrics -> R)
    (H : forall p m, fm (add_post p m) = fm m \/ fm (add_post p m) = fm m + 1) l m :
  0 <= fm m <= tm_posts m -> 0 <= fm (fold_posts l m) <= tm_posts (fold_posts l m).
Proof.
  unfold fold_posts. revert m. induction l as [|p l IH]; intros m Hm; cbn [fold_left]; [exact Hm|].
  apply IH. simpl tm_posts. destruct (H p m) as [E|E]; rewrite E; lra.
Qed.

Lemma fold_posts_latest l m :
  tm_latestPostTime (fold_posts l m) = fold_left Z.max (map postCreatedAt l) (tm_latestPostTime m).
Proof.
  unfold fold_posts. revert m. induction l as [|p l IH]; intros m; cbn [fold_left map]; [reflexivity|].
  rewrite IH. f_equal. simpl. destruct (Z.ltb_spec (tm_latestPostTime m) (postCreatedAt p)); lia.
Qed.

Lemma per_post_ratio g n : 0 <= g <= n -> 0 < n -> 0 <= per_post g n <= 1.
Proof.
  intros Hg Hn. unfold per_post. destruct (Rlt_dec 0 n) as [_|C]; [|lra].
  split.
  - apply Rmult_le_pos; [lra|]. apply Rlt_le, Rinv_0_lt_compat, Hn.
  - apply Rmult_le_reg_r with n; [exact Hn|].
    unfold Rdiv. rewrite Rmult_assoc, Rinv_l by lra. lra.
Qed.

Lemma INR_length_pos {A} (l : list A) : l <> [] -> 0 < INR (length l).
Proof. intros H. destruct l as [|x l]; [congruence|]. cbn [length]. rewrite S_INR. pose proof (pos_INR (length l)). lra. Qed.

End MemexAggregateRows.

Module MemexAggregateProps.

Import ScoreCalculator MemexAggregate JsMapVFacts MemexAggregateFacts MemexAggregateFolds
  MemexAggregateRows.
Open Scope R_scope.

(** aggregateFromDB: no stored post gives no metrics; otherwise there is one
    row per token mentioned (as a mention, ticker or hashtag) by some post,
    and the row of token [t], over the posts that mention it: counts each
    of them once, however often it names [t]; sums their views, likes,
    reposts and replies ([?? 0]); counts their distinct users; has the
    latest of their creation times (never before 0); and has its
    graduated, image and pre-ordered ratios in [0, 1]. *)
Theorem aggregateFromDB_rows (up : string -> string) (dbPosts : list DbPost) :
  (dbPosts = [] -> aggregateFromDB up dbPosts = []) /\
  (exists tokens, NoDup tokens /\
     map tokenSymbol (aggregateFromDB up dbPosts) = map up tokens /\
     forall t, In t tokens <-> exists p, In p dbPosts /\ In t (post_tokens up p)) /\
  (forall r, In r (aggregateFromDB up dbPosts) ->
   exists t, tokenSymbol r = up t /\
     let ps := mine up t dbPosts in
     ps <> [] /\
     posts r = INR (length ps) /\
     views r = fold_right Rplus 0 (map (fun p => or0 (viewCount p)) ps) /\
     likes r = fold_right Rplus 0 (map (fun p => or0 (likeCount p)) ps) /\
     reposts r = fold_right Rplus 0 (map (fun p => or0 (repostCount p)) ps) /\
     replies r = fold_right Rplus 0 (map (fun p => or0 (replyCount p)) ps) /\
     (exists users, NoDup users /\
        (forall u, In u users <-> exists p, In p ps /\ userId p = u) /\
        uniqueUserCount r = INR (length users)) /\
     latestPostTime r = fold_left Z.max (map postCreatedAt ps) 0%Z /\
     0 <= graduatedPostRatio r <= 1 /\ 0 <= imagePostRatio r <= 1 /\
     0 <= preOrderedUserRatio r <= 1).
Proof.
  destruct dbPosts as [|p0 ps0] eqn:Eps.
  - split; [reflexivity|]. split.
    + exists []. split; [constructor|]. split; [reflexivity|].
      intros t. split; [intros []|intros [p [[] _]]].
    + intros r [].
  - rewrite <- Eps.
    assert (Hagg : aggregateFromDB up dbPosts =
                   map (to_aggregated up (snd (fold_left (add_db_post up) dbPosts ([], []))))
                       (fst (fold_left (add_db_post up) dbPosts ([], [])))).
    { rewrite Eps. unfold aggregateFromDB.
      destruct (fold_left (add_db_post up) (p0 :: ps0) ([], [])). reflexivity. }
    set (st := fold_left (add_db_post up) dbPosts ([], [])) in Hagg.
    assert (Hnd : NoDup (map fst (fst st))) by (apply fold_posts_keys; constructor).
    assert (Hget : forall t, JsMapV.get (fst st) t =
              match mine up t dbPosts with
              | [] => None | l => Some (fold_posts l (empty_metrics t)) end /\
              JsMapV.get (snd st) t =
              match mine up t dbPosts with
              | [] => None | l => Some (fold_left set_add_num (map userId l) []) end).
    { intros t. destruct (fold_posts_get up dbPosts ([], []) t) as [E1 E2].
      fold st in E1, E2. rewrite E1, E2. simpl.
      destruct (mine up t dbPosts); split; reflexivity. }
    assert (Hentry : forall t m, In (t, m) (fst st) ->
              mine up t dbPosts <> [] /\ m = fold_posts (mine up t dbPosts) (empty_metrics t) /\
              JsMapV.get (snd st) t =
                Some (fold_left set_add_num (map userId (mine up t dbPosts)) [])).
    { intros t m Hin. pose proof (JsMapVFacts.get_of_In _ _ _ Hnd Hin) as G.
      destruct (Hget t) as [G1 G2]. rewrite G in G1. rewrite G2.
      destruct (mine up t dbPosts) as [|q l]; [discriminate|].
      injection G1 as ->. split; [discriminate|]. split; reflexivity. }
    split; [intros E; rewrite Eps in E; discriminate|]. split.
    + exists (map fst (fst st)). split; [exact Hnd|]. split.
      * rewrite Hagg, !map_map. apply map_ext_in. intros [t m] Hin. simpl.
        destruct (Hentry t m Hin) as (_ & -> & _). rewrite fold_posts_symbol. reflexivity.
      * intros t. rewrite JsMapVFacts.In_keys_get. destruct (Hget t) as [G1 _]. rewrite G1.
        pose proof (mine_nil_iff up t dbPosts) as Hm.
        destruct (mine up t dbPosts) as [|q l] eqn:Em; split.
        -- intros [v Hv]. discriminate.
        -- intros H. exfalso. apply (proj1 Hm eq_refl), H.
        -- intros _. assert (Hq : In q (mine up t dbPosts)) by (rewrite Em; left; reflexivity).
           unfold mine in Hq. apply filter_In in Hq as [Hq Ht].
           exists q. split; [exact Hq|apply existsb_str_In, Ht].
        -- intros _. eexists. reflexivity.
    + intros r Hr. rewrite Hagg in Hr. apply in_map_iff in Hr as [[t m] [<- Hin]].
      destruct (Hentry t m Hin) as (Hne & -> & Hu).
      exists t. unfold to_aggregated. cbn [tokenSymbol posts views likes reposts replies
        uniqueUserCount latestPostTime graduatedPostRatio imagePostRatio preOrderedUserRatio].
      rewrite fold_posts_symbol. split; [reflexivity|].
      set (ps := mine up t dbPosts) in *.
      assert (Hcount : tm_posts (fold_posts ps (empty_metrics t)) = INR (length ps))
        by (rewrite fold_posts_count; simpl; lra).
      assert (Hpos : 0 < INR (length ps)) by (apply INR_length_pos, Hne).
      assert (Hcnt : forall fm : TokenMetrics -> R,
                (forall p m, fm (add_post p m) = fm m \/ fm (add_post p m) = fm m + 1) ->
                fm (empty_metrics t) = 0 ->
                0 <= per_post (fm (fold_posts ps (empty_metrics t)))
                              (tm_posts (fold_posts ps (empty_metrics t))) <= 1).
      { intros fm Hf H0. apply per_post_ratio; [|lra].
        apply fold_posts_counter; [exact Hf|]. rewrite H0. simpl. lra. }
      split; [exact Hne|]. split; [exact Hcount|].
      split; [rewrite (fold_posts_sum tm_views (fun p => or0 (viewCount p))) by reflexivity; simpl; lra|].
      split; [rewrite (fold_posts_sum tm_likes (fun p => or0 (likeCount p))) by reflexivity; simpl; lra|].
      split; [rewrite (fold_posts_sum tm_reposts (fun p => or0 (repostCount p))) by reflexivity; simpl; lra|].
      split; [rewrite (fold_posts_sum tm_replies (fun p => or0 (replyCount p))) by reflexivity; simpl; lra|].
      split.
      { rewrite Hu. destruct (set_add_num_fold (map userId ps) [] (NoDup_nil _)) as [U1 U2].
        eexists. split; [exact U1|]. split; [|reflexivity].
        intros u. rewrite U2, in_map_iff. simpl. firstorder. }
      split; [rewrite fold_posts_latest; reflexivity|].
      split; [|split].
      * apply Hcnt; [|reflexivity]. intros p m. simpl.
        destruct (is_100 (bondingCurveProgress p)); [right|left]; lra.
      * apply Hcnt; [|reflexivity]. intros p m. simpl.
        destruct (hasImage p); [right|left]; lra.
      * apply Hcnt; [|reflexivity]. intros p m. simpl.
        destruct (userIsPreOrdered p); [right|left]; lra.
Qed.

End MemexAggregateProps.

(* ------------------------------------------------------------------------- *)
(** ** Per-period token statistics *)

Module TokenStatsFacts.

Import MemexAggregate TokenStats JsMapVFacts.
Open Scope R_scope.

Definition dz (o : option PeriodStats) : PeriodStats :=
  match o with Some s => s | None => zero_stats end.

Definition count_of (t : string) (l : list string) : nat := length (filter (String.eqb t) l).

Lemma count_of_app t l1 l2 : count_of t (l1 ++ l2) = (count_of t l1 + count_of t l2)%nat.
Proof. unfold count_of. rewrite filter_app, length_app. reflexivity. Qed.

Lemma token_stats_count h d v l toks m t :
  posts_7d (dz (JsMapV.get (fold_left (add_token_stats h d v l) toks m) t)) =
    posts_7d (dz (JsMapV.get m t)) + INR (count_of t toks) /\
  (JsMapV.get (fold_left (add_token_stats h d v l) toks m) t = None <->
   JsMapV.get m t = None /\ count_of t toks = 0%nat).
Proof.
  revert m. induction toks as [|k toks IH]; intros m; cbn [fold_left].
  - unfold count_of. simpl. split; [lra|tauto].
  - destruct (IH (add_token_stats h d v l m k)) as [E1 E2]. rewrite E1, E2.
    unfold add_token_stats, count_of. cbn [filter length].
    destruct (String.eqb_spec k t) as [->|Hne]; rewrite ?String.eqb_refl.
    + rewrite getV_set_same. cbn [length]. rewrite S_INR. split.
      * unfold dz. cbn [add_stats posts_7d]. lra.
      * split; [intros [H _]; discriminate|intros [_ H]; discriminate].
    + assert (E : String.eqb t k = false) by (apply String.eqb_neq; congruence).
      rewrite E, get_set_other by exact Hne. split; reflexivity.
Qed.

Lemma all_stats_count up h d ps m t :
  let occ := count_of t (flat_map (stats_tokens up) ps) in
  posts_7d (dz (JsMapV.get (fold_left (stats_post up h d) ps m) t)) =
    posts_7d (dz (JsMapV.get m t)) + INR occ /\
  (JsMapV.get (fold_left (stats_post up h d) ps m) t = None <->
   JsMapV.get m t = None /\ occ = 0%nat).
Proof.
  revert m. induction ps as [|p ps IH]; intros m; cbn [fold_left flat_map].
  - unfold count_of. simpl. split; [lra|tauto].
  - destruct (IH (stats_post up h d m p)) as [E1 E2]. rewrite E1, E2.
    unfold stats_post. destruct (token_stats_count
      (h <=? postCreatedAt p)%Z (d <=? postCreatedAt p)%Z (or0 (viewCount p)) (or0 (likeCount p))
      (stats_tokens up p) m t) as [F1 F2].
    rewrite F1, F2, count_of_app, plus_INR. split; [lra|]. split; intros H; intuition lia.
Qed.

(** The orderings between the periods that every entry keeps. *)
Definition posts_ok (s : PeriodStats) : Prop :=
  0 <= posts_1h s <= posts_1d s /\ posts_1d s <= posts_7d s.

Definition views_ok (s : PeriodStats) : Prop :=
  0 <= views_1h s <= views_1d s /\ views_1d s <= views_7d s.

Lemma add_stats_ok h d v l s :
  (h = true -> d = true) ->
  (posts_ok s -> posts_ok (add_stats h d v l s)) /\
  (0 <= v -> views_ok s -> views_ok (add_stats h d v l s)).
Proof.
  intros Hhd. unfold posts_ok, views_ok, add_stats. cbn.
  destruct h, d; try (specialize (Hhd eq_refl); discriminate); split; intros; lra.
Qed.

Lemma token_stats_ok h d v l toks m (P : PeriodStats -> Prop) :
  P zero_stats -> (forall s, P s -> P (add_stats h d v l s)) ->
  (forall k s, JsMapV.get m k = Some s -> P s) ->
  forall k s, JsMapV.get (fold_left (add_token_stats h d v l) toks m) k = Some s -> P s.
Proof.
  intros H0 Hstep. revert m. induction toks as [|t toks IH]; intros m Hm; cbn [fold_left]; [exact Hm|].
  apply IH. intros k s. unfold add_token_stats.
  destruct (String.eqb_spec t k) as [->|Hne].
  - rewrite getV_set_same. intros [= <-]. apply Hstep.
    destruct (JsMapV.get m k) eqn:E; [exact (Hm _ _ E)|exact H0].
  - rewrite get_set_other by exact Hne. apply Hm.
Qed.

End TokenStatsFacts.

Module TokenStatsProps.

Import MemexAggregate TokenStats TokenStatsFacts.
Open Scope R_scope.

Lemma all_stats_ok up h d ps (P : PeriodStats -> Prop) :
  P zero_stats ->
  (forall p s, In p ps -> P s ->
     P (add_stats (h <=? postCreatedAt p)%Z (d <=? postCreatedAt p)%Z
          (or0 (viewCount p)) (or0 (likeCount p)) s)) ->
  forall m, (forall k s, JsMapV.get m k = Some s -> P s) ->
  forall k s, JsMapV.get (fold_left (stats_post up h d) ps m) k = Some s -> P s.
Proof.
  intros H0. induction ps as [|p ps IH]; intros Hstep m Hm; cbn [fold_left]; [exact Hm|].
  apply IH; [intros q s Hq; apply Hstep; right; exact Hq|].
  unfold stats_post. apply token_stats_ok; [exact H0| |exact Hm].
  intros s. apply Hstep. left. reflexivity.
Qed.

(** getAllTokenStats: a token has an entry exactly when some post names it,
    and its 7-day post count is the number of times it occurs in the posts'
    token lists, where duplicates are removed before upper-casing (so a post
    naming both [pepe] and [PEPE] counts twice for [PEPE]); for every entry
    0 <= posts 1h <= posts 1d <= posts 7d, and when no post has a negative
    view count the views keep the same order. *)
Theorem getAllTokenStats_props (up : string -> string) (now : Z) (ps : list DbPost) :
  let stats := getAllTokenStats up now ps in
  (forall t, JsMapV.get stats t = None <->
             length (filter (String.eqb t) (flat_map (stats_tokens up) ps)) = 0%nat) /\
  (forall t s, JsMapV.get stats t = Some s ->
     posts_7d s = INR (length (filter (String.eqb t) (flat_map (stats_tokens up) ps))) /\
     1 <= posts_7d s /\
     0 <= posts_1h s <= posts_1d s /\ posts_1d s <= posts_7d s /\
     ((forall p, In p ps -> 0 <= or0 (viewCount p)) ->
      0 <= views_1h s <= views_1d s /\ views_1d s <= views_7d s)).
Proof.
  intros stats.
  set (h := (now - 60 * 60 * 1000)%Z). set (d := (now - 24 * 60 * 60 * 1000)%Z).
  assert (Hc : forall t, posts_7d (dz (JsMapV.get stats t)) =
                 INR (count_of t (flat_map (stats_tokens up) ps)) /\
               (JsMapV.get stats t = None <-> count_of t (flat_map (stats_tokens up) ps) = 0%nat)).
  { intros t. destruct (all_stats_count up h d ps [] t) as [E1 E2]. split.
    - unfold stats, getAllTokenStats. fold h d. rewrite E1. simpl. lra.
    - unfold stats, getAllTokenStats. fold h d. rewrite E2. simpl. tauto. }
  assert (Hinv : forall P : PeriodStats -> Prop, P zero_stats ->
            (forall p s, In p ps -> P s ->
               P (add_stats (h <=? postCreatedAt p)%Z (d <=? postCreatedAt p)%Z
                    (or0 (viewCount p)) (or0 (likeCount p)) s)) ->
            forall t s, JsMapV.get stats t = Some s -> P s).
  { intros P H0 Hstep. unfold stats, getAllTokenStats. fold h d.
    apply (all_stats_ok up h d ps P H0 Hstep). intros k s E. discriminate. }
  assert (Hhd : forall p, (h <=? postCreatedAt p)%Z = true -> (d <=? postCreatedAt p)%Z = true).
  { intros p. unfold h, d. rewrite !Z.leb_le. lia. }
  split.
  - intros t. exact (proj2 (Hc t)).
  - intros t s Hs.
    assert (E7 : posts_7d s = INR (count_of t (flat_map (stats_tokens up) ps))).
    { rewrite <- (proj1 (Hc t)), Hs. reflexivity. }
    assert (Hne : count_of t (flat_map (stats_tokens up) ps) <> 0%nat).
    { intros E. pose proof (proj2 (proj2 (Hc t)) E) as Hn. congruence. }
    split; [exact E7|]. split.
    { rewrite E7. destruct (count_of t (flat_map (stats_tokens up) ps)) as [|n]; [congruence|].
      rewrite S_INR. pose proof (pos_INR n). lra. }
    assert (Hp : posts_ok s).
    { refine (Hinv posts_ok _ _ t s Hs); [unfold posts_ok; simpl; lra|].
      intros p s' _ Hs'. apply (add_stats_ok _ _ _ _ _ (Hhd p)), Hs'. }
    destruct Hp as [Hp1 Hp2]. split; [exact Hp1|]. split; [exact Hp2|].
    + intros Hv. refine (Hinv views_ok _ _ t s Hs); [unfold views_ok; simpl; lra|].
      intros p s' Hp Hs'. apply (add_stats_ok _ _ _ _ _ (Hhd p)); [apply Hv, Hp|exact Hs'].
Qed.

End TokenStatsProps.

Module TokenStatsWitnesses.

Import MemexAggregate TokenStats.
Open Scope R_scope.

(** A post naming [pepe] as a mention and [PEPE] as a ticker. *)
Definition pepe_post : DbPost :=
  {| mentionedTokens := Some ["pepe"%string]; extractedTickers := Some ["PEPE"%string];
     extractedHashtags := None; userId := 1%Z; viewCount := Some 10; likeCount := None;
     repostCount := None; replyCount := None; bondingCurveProgress := None;
     hasImage := false; priceFluctuationRange := None; userIsPreOrdered := false;
     postCreatedAt := 0%Z |}.

Lemma getAllTokenStats_props_witness :
  exists s, JsMapV.get (getAllTokenStats EpochPairsWitnesses.ascii_upper 0 [pepe_post]) "PEPE"%string
              = Some s /\ posts_7d s = 2.
Proof.
  destruct (TokenStatsProps.getAllTokenStats_props EpochPairsWitnesses.ascii_upper 0 [pepe_post])
    as [Hnone Hsome].
  destruct (JsMapV.get (getAllTokenStats EpochPairsWitnesses.ascii_upper 0 [pepe_post]) "PEPE"%string)
    as [s|] eqn:E.
  - exists s. split; [reflexivity|]. rewrite (proj1 (Hsome _ _ E)). vm_compute. reflexivity.
  - exfalso. apply Hnone in E. vm_compute in E. discriminate.
Defined.

End TokenStatsWitnesses.
